(** * Verification of the text-extraction core of iniciais_TCE

    The development embeds, as executable Rocq functions, the three parsers
    of the repository and the currency speller:

    - [extrair_dados_certidao] and [gerar_valor_extenso]   (main.py)
    - [parsear_endereco] and [parsear_partes]               (gestor_enderecos.py)

    The Python code is written almost entirely with the [re] module, so the
    file first builds a small model of Python strings (sequences of code
    points), of the pattern syntax of [re] and of its backtracking matcher.
    The patterns are kept as the literal strings of the source and parsed
    by [re_compile]. *)

From Stdlib Require Import ZArith NArith List String Ascii Bool Lia DecimalString.
From Corelib Require Import SpecFloat.
From stdpp Require Import gmap.
From Equations Require Import Equations.

Import ListNotations.
Local Open Scope N_scope.

Set Default Proof Using "Type".

(** ** Python strings

    A Python [str] is a sequence of Unicode code points. *)

Definition char := N.
Definition str := list N.

Module Utf8.

(** Rocq string literals hold the UTF-8 bytes of the source file; [decode]
    turns them into code points. *)
Fixpoint decode (bs : list N) : str :=
  match bs with
  | [] => []
  | b :: t =>
      if b <? 128 then b :: decode t
      else if b <? 224 then
        match t with
        | b2 :: t2 => ((b - 192) * 64 + (b2 - 128)) :: decode t2
        | _ => []
        end
      else if b <? 240 then
        match t with
        | b2 :: b3 :: t3 =>
            ((b - 224) * 4096 + (b2 - 128) * 64 + (b3 - 128)) :: decode t3
        | _ => []
        end
      else
        match t with
        | b2 :: b3 :: b4 :: t4 =>
            ((b - 240) * 262144 + (b2 - 128) * 4096 + (b3 - 128) * 64
             + (b4 - 128)) :: decode t4
        | _ => []
        end
  end.

Fixpoint bytes (s : string) : list N :=
  match s with
  | EmptyString => []
  | String a t => N_of_ascii a :: bytes t
  end.

End Utf8.

(** [py "..."] is the Python string written between the quotes. *)
Definition py (s : string) : str := Utf8.decode (Utf8.bytes s).
Arguments py : simpl never.

Definition str_eqb (a b : str) : bool := bool_decide (a = b).

(** *** The Unicode character database

    Python consults the Unicode database for whitespace, digits, letters and
    case mappings.  The tables for Latin-1 (and for the few other characters
    the patterns of this program mention) are written out below; everything
    beyond is a parameter, so that the theorems hold for whatever the
    database says about the remaining code points. *)

Record unicode_db := {
  u_isspace    : N -> bool;          (* str.isspace, regex \s            *)
  u_decimal    : N -> option N;      (* decimal digit value, regex \d    *)
  u_isalnum    : N -> bool;          (* str.isalnum, regex \w            *)
  u_lower      : N -> N;             (* simple lower-case mapping        *)
  u_upper      : N -> N;             (* simple upper-case mapping        *)
  u_casefix    : N -> N -> bool;     (* extra IGNORECASE equivalences    *)
  u_iscased    : N -> bool;          (* the Cased property (str.title)   *)
  u_case_ignorable : N -> bool;      (* the Case_Ignorable property      *)
  u_lower_full : N -> list N;        (* full mappings of str.lower,      *)
  u_upper_full : N -> list N;        (*   str.upper                      *)
  u_title_full : N -> list N;        (*   and str.title                  *)
}.

(** A database under which every code point beyond the tables is an
    uncased symbol. *)
Definition plain_db : unicode_db := {|
  u_isspace := fun _ => false;
  u_decimal := fun _ => None;
  u_isalnum := fun _ => false;
  u_lower := fun c => c;
  u_upper := fun c => c;
  u_casefix := fun _ _ => false;
  u_iscased := fun _ => false;
  u_case_ignorable := fun _ => false;
  u_lower_full := fun c => [c];
  u_upper_full := fun c => [c];
  u_title_full := fun c => [c];
|}.

Definition in_range (a b c : N) : bool := (a <=? c) && (c <=? b).

(** Code points whose properties are tabulated here: Latin-1, and
    U+1EBC/U+1EBD (E with tilde) and U+2013 (en dash) from the patterns. *)
Definition tabulated (c : N) : bool :=
  (c <? 256) || (c =? 7868) || (c =? 7869) || (c =? 8211).

Definition latin1_upper_letter (c : N) : bool :=
  in_range 65 90 c || (in_range 192 222 c && negb (c =? 215)).

Definition latin1_lower_letter (c : N) : bool :=
  in_range 97 122 c || (in_range 224 254 c && negb (c =? 247)).

Section Chars.
Variable db : unicode_db.

Definition isspace (c : N) : bool :=
  if tabulated c then
    in_range 9 13 c || in_range 28 32 c || (c =? 133) || (c =? 160)
  else u_isspace db c.

Definition decimal_value (c : N) : option N :=
  if tabulated c then (if in_range 48 57 c then Some (c - 48) else None)
  else match u_decimal db c with
       | Some d => Some (d mod 10)
       | None => None
       end.

Definition isdecimal (c : N) : bool :=
  match decimal_value c with Some _ => true | None => false end.

Definition isalnum (c : N) : bool :=
  if tabulated c then
    in_range 48 57 c || in_range 65 90 c || in_range 97 122 c
    || (c =? 170) || (c =? 178) || (c =? 179) || (c =? 181) || (c =? 185)
    || (c =? 186) || in_range 188 190 c
    || in_range 192 214 c || in_range 216 246 c || in_range 248 255 c
    || (c =? 7868) || (c =? 7869)
  else u_isalnum db c.

(** [\w] of the [re] module. *)
Definition isword (c : N) : bool := isalnum c || (c =? 95).

Definition tolower (c : N) : N :=
  if tabulated c then
    if latin1_upper_letter c then c + 32
    else if c =? 7868 then 7869 else c
  else u_lower db c.

Definition toupper (c : N) : N :=
  if tabulated c then
    if latin1_lower_letter c then c - 32
    else if c =? 255 then 376
    else if c =? 181 then 924
    else if c =? 223 then 83
    else if c =? 7869 then 7868 else c
  else u_upper db c.

Definition iscased (c : N) : bool :=
  if tabulated c then
    latin1_upper_letter c || latin1_lower_letter c
    || (c =? 170) || (c =? 181) || (c =? 186) || (c =? 223) || (c =? 255)
    || (c =? 7868) || (c =? 7869)
  else u_iscased db c.

Definition case_ignorable (c : N) : bool :=
  if tabulated c then
    (c =? 39) || (c =? 46) || (c =? 58) || (c =? 94) || (c =? 96)
    || (c =? 168) || (c =? 173) || (c =? 175) || (c =? 180) || (c =? 183)
    || (c =? 184)
  else u_case_ignorable db c.

Definition lower_full (c : N) : list N :=
  if tabulated c then [tolower c] else u_lower_full db c.

(** The first character of [l] that is not case-ignorable is cased. *)
Fixpoint cased_apos_ignoraveis (l : str) : bool :=
  match l with
  | [] => false
  | c :: t => if case_ignorable c then cased_apos_ignoraveis t else iscased c
  end.

(** The lower case of a character between the characters before it,
    nearest first, and those after it.  Capital sigma (U+03A3) becomes the
    final sigma (U+03C2) when a cased character precedes it and none
    follows it, case-ignorable characters apart; otherwise the small sigma
    (U+03C3). *)
Definition lower_em_contexto (antes_rev : str) (c : N) (depois : str)
  : list N :=
  if c =? 931 then
    if cased_apos_ignoraveis antes_rev && negb (cased_apos_ignoraveis depois)
    then [962] else [963]
  else lower_full c.

Definition upper_full (c : N) : list N :=
  if tabulated c then (if c =? 223 then [83; 83] else [toupper c])
  else u_upper_full db c.

Definition title_full (c : N) : list N :=
  if tabulated c then (if c =? 223 then [83; 115] else [toupper c])
  else u_title_full db c.

(** The additional pairs the [re] compiler adds under IGNORECASE (such as
    i / dotless i).  No two tabulated characters form such a pair except
    with themselves. *)
Definition casefix (lo lc : N) : bool :=
  if tabulated lo && tabulated lc then false else u_casefix db lo lc.

(** *** str methods *)

Definition str_upper (s : str) : str := flat_map upper_full s.

(** [str.title]: a character that follows a cased character is lowered,
    any other is title-cased; [antes_rev] holds the characters already
    read, nearest first. *)
Fixpoint title_go (antes_rev : str) (prev_cased : bool) (s : str) : str :=
  match s with
  | [] => []
  | c :: t =>
      (if prev_cased then lower_em_contexto antes_rev c t else title_full c)
        ++ title_go (c :: antes_rev) (iscased c) t
  end.

Definition str_title (s : str) : str := title_go [] false s.

Fixpoint lstrip_by (p : N -> bool) (s : str) : str :=
  match s with
  | [] => []
  | c :: t => if p c then lstrip_by p t else s
  end.

Definition rstrip_by (p : N -> bool) (s : str) : str :=
  rev (lstrip_by p (rev s)).

Definition strip_by (p : N -> bool) (s : str) : str :=
  rstrip_by p (lstrip_by p s).

(** [s.strip()] *)
Definition str_strip (s : str) : str := strip_by isspace s.

End Chars.

Definition char_in (chars : str) (c : N) : bool :=
  existsb (N.eqb c) chars.

(** [s.strip(chars)] and [s.rstrip(chars)] *)
Definition str_strip_chars (chars s : str) : str := strip_by (char_in chars) s.
Definition str_rstrip_chars (chars s : str) : str := rstrip_by (char_in chars) s.

(** [s[a:b]] for [0 <= a]; Python clamps both ends to the string. *)
Definition slice (s : str) (a b : nat) : str := firstn (b - a) (skipn a s).

(** [sep.join(l)] *)
Fixpoint str_join (sep : str) (l : list str) : str :=
  match l with
  | [] => []
  | [x] => x
  | x :: t => x ++ sep ++ str_join sep t
  end.

(** [s.replace(old, new)] for a one-character [old]. *)
Definition str_replace (old : N) (new : str) (s : str) : str :=
  flat_map (fun c => if c =? old then new else [c]) s.

Fixpoint is_prefix (p s : str) : bool :=
  match p, s with
  | [], _ => true
  | a :: p', b :: s' => (a =? b) && is_prefix p' s'
  | _ :: _, [] => false
  end.

(** [s.split(sep)] for a non-empty [sep]: [skip] counts the characters of a
    separator still to be passed over, [cur] holds the current piece in
    reverse. *)
Fixpoint split_go (sep : str) (skip : nat) (cur : str) (s : str) : list str :=
  match s with
  | [] => [rev cur]
  | c :: t =>
      match skip with
      | S k => split_go sep k cur t
      | O =>
          if is_prefix sep s
          then rev cur :: split_go sep (length sep - 1) [] t
          else split_go sep 0 (c :: cur) t
      end
  end.

Definition str_split (sep s : str) : list str := split_go sep 0 [] s.

(** [s.splitlines()]: the line boundaries of Python. *)
Definition is_linebreak (c : N) : bool :=
  in_range 10 13 c || in_range 28 30 c || (c =? 133) || (c =? 8232) || (c =? 8233).

Fixpoint splitlines_go (cur : str) (after_cr : bool) (s : str) : list str :=
  match s with
  | [] => match cur with [] => [] | _ => [rev cur] end
  | c :: t =>
      if after_cr && (c =? 10) then splitlines_go cur false t
      else if is_linebreak c then rev cur :: splitlines_go [] (c =? 13) t
      else splitlines_go (c :: cur) false t
  end.

Definition str_splitlines (s : str) : list str := splitlines_go [] false s.

(** [str(n)] for an integer. *)
Definition str_of_Z (n : Z) : str :=
  py (NilZero.string_of_int (Z.to_int n)).


(** ** The pattern language of [re]

    Only the constructs this program uses are modelled: literals, character
    sets with ranges and the categories [\s], [\d], [\w], the dot, greedy and
    lazy repetition, alternation, capturing and non-capturing groups, the
    anchors [^] and [$] (without MULTILINE) and the word boundary [\b]. *)

Inductive category := CatSpace | CatDigit | CatWord.

Inductive citem :=
| CLit (c : N)
| CRange (a b : N)
| CCat (k : category).

Inductive regex :=
| REmpty
| RSet (neg : bool) (items : list citem)
| RAny
| RSeq (r1 r2 : regex)
| RAlt (r1 r2 : regex)
| RRep (greedy : bool) (lo : nat) (hi : option nat) (r : regex)
| RGroup (n : nat) (r : regex)
| RBol
| REol
| RWordB.

(** A pattern that matches nothing; [re_compile] returns it for a pattern
    outside the modelled syntax. *)
Definition RNever : regex := RSet false [].

Record flags := { ignorecase : bool; dotall : bool }.

Definition NOFLAGS : flags := {| ignorecase := false; dotall := false |}.
Definition IGNORECASE : flags := {| ignorecase := true; dotall := false |}.
Definition IGNORECASE_DOTALL : flags := {| ignorecase := true; dotall := true |}.

Module Parse.

Definition ascii_digit (c : N) : bool := in_range 48 57 c.
Definition ascii_alnum (c : N) : bool :=
  ascii_digit c || in_range 65 90 c || in_range 97 122 c.

Fixpoint number (acc : nat) (s : str) : nat * str :=
  match s with
  | c :: t =>
      if ascii_digit c then number (acc * 10 + N.to_nat (c - 48)) t
      else (acc, s)
  | [] => (acc, [])
  end.

(** The character after a backslash. *)
Definition escape (c : N) : option citem :=
  if c =? 115 then Some (CCat CatSpace)          (* \s *)
  else if c =? 100 then Some (CCat CatDigit)     (* \d *)
  else if c =? 119 then Some (CCat CatWord)      (* \w *)
  else if c =? 116 then Some (CLit 9)            (* \t *)
  else if c =? 110 then Some (CLit 10)           (* \n *)
  else if ascii_alnum c then None
  else Some (CLit c).

(** One member of a set: a character or an escape. *)
Definition set_member (s : str) : option (citem * str) :=
  match s with
  | 92 :: e :: t =>
      match escape e with Some i => Some (i, t) | None => None end
  | 92 :: [] => None
  | c :: t => Some (CLit c, t)
  | [] => None
  end.

(** The members of a set up to the closing bracket. *)
Fixpoint set_items (fuel : nat) (acc : list citem) (s : str)
  : option (list citem * str) :=
  match fuel with
  | O => None
  | S f =>
      match s with
      | [] => None
      | 93 :: t => Some (rev acc, t)
      | _ =>
          match set_member s with
          | Some (CLit a, 45 :: t) =>
              match t with
              | 93 :: _ => set_items f (CLit a :: acc) (45 :: t)
              | _ =>
                  match set_member t with
                  | Some (CLit b, t') => set_items f (CRange a b :: acc) t'
                  | _ => None
                  end
              end
          | Some (i, t) => set_items f (i :: acc) t
          | None => None
          end
      end
  end.

Definition quantifier (a : regex) (s : str) : option (regex * str) :=
  let mk lo hi t :=
    match t with
    | 63 :: t' => (RRep false lo hi a, t')
    | _ => (RRep true lo hi a, t)
    end in
  match s with
  | 42 :: t => Some (mk O None t)
  | 43 :: t => Some (mk 1%nat None t)
  | 63 :: t => Some (mk O (Some 1%nat) t)
  | 123 :: t =>
      let (lo, t1) := number 0 t in
      match t1 with
      | 125 :: t2 => Some (mk lo (Some lo) t2)
      | 44 :: 125 :: t2 => Some (mk lo None t2)
      | 44 :: t2 =>
          let (hi, t3) := number 0 t2 in
          match t3 with
          | 125 :: t4 => Some (mk lo (Some hi) t4)
          | _ => None
          end
      | _ => None
      end
  | _ => Some (a, s)
  end.

Definition seq (a b : regex) : regex :=
  match b with
  | REmpty => a
  | _ => RSeq a b
  end.

(** [alt], [cat] and [atom] follow the grammar of a pattern; [g] is the
    number of capturing groups opened so far. *)
Fixpoint alt (fuel : nat) (g : nat) (s : str) : option (regex * nat * str) :=
  match fuel with
  | O => None
  | S f =>
      match cat f g s with
      | Some (r1, g1, 124 :: t) =>
          match alt f g1 t with
          | Some (r2, g2, t2) => Some (RAlt r1 r2, g2, t2)
          | None => None
          end
      | x => x
      end
  end
with cat (fuel : nat) (g : nat) (s : str) : option (regex * nat * str) :=
  match fuel with
  | O => None
  | S f =>
      match s with
      | [] => Some (REmpty, g, [])
      | 124 :: _ => Some (REmpty, g, s)
      | 41 :: _ => Some (REmpty, g, s)
      | _ =>
          match atom f g s with
          | Some (a, g1, t) =>
              match quantifier a t with
              | Some (q, t') =>
                  match cat f g1 t' with
                  | Some (r, g2, t2) => Some (seq q r, g2, t2)
                  | None => None
                  end
              | None => None
              end
          | None => None
          end
      end
  end
with atom (fuel : nat) (g : nat) (s : str) : option (regex * nat * str) :=
  match fuel with
  | O => None
  | S f =>
      match s with
      | 40 :: 63 :: 58 :: t =>                       (* (?: ... ) *)
          match alt f g t with
          | Some (r, g1, 41 :: t') => Some (r, g1, t')
          | _ => None
          end
      | 40 :: 63 :: _ => None
      | 40 :: t =>                                   (* ( ... ) *)
          match alt f (S g) t with
          | Some (r, g1, 41 :: t') => Some (RGroup (S g) r, g1, t')
          | _ => None
          end
      | 91 :: 94 :: t =>                             (* [^ ... ] *)
          match set_items (S (length t)) [] t with
          | Some (items, t') => Some (RSet true items, g, t')
          | None => None
          end
      | 91 :: t =>                                   (* [ ... ] *)
          match set_items (S (length t)) [] t with
          | Some (items, t') => Some (RSet false items, g, t')
          | None => None
          end
      | 46 :: t => Some (RAny, g, t)
      | 94 :: t => Some (RBol, g, t)
      | 36 :: t => Some (REol, g, t)
      | 92 :: 98 :: t => Some (RWordB, g, t)
      | 92 :: e :: t =>
          match escape e with
          | Some i => Some (RSet false [i], g, t)
          | None => None
          end
      | 42 :: _ | 43 :: _ | 63 :: _ | 123 :: _ | 92 :: [] => None
      | c :: t => Some (RSet false [CLit c], g, t)
      | [] => None
      end
  end.

End Parse.

(** [re.compile(pattern)] *)
Definition re_parse (pat : str) : option regex :=
  match Parse.alt (3 * length pat + 3) 0 pat with
  | Some (r, _, []) => Some r
  | _ => None
  end.

Definition re_compile (pat : str) : regex :=
  match re_parse pat with
  | Some r => r
  | None => RNever
  end.


(** ** The matcher

    [exec] is a backtracking matcher in continuation-passing style, as the
    engine of [re] is: alternatives are tried left to right, a greedy
    repetition tries one more iteration before it tries to stop, a lazy one
    the other way round, and the first complete match wins.  An iteration of
    a repetition has to consume at least one character (every repeated
    sub-pattern of this program does). *)

Definition caps := list (nat * (nat * nat)).

Fixpoint cap_get (c : caps) (n : nat) : option (nat * nat) :=
  match c with
  | [] => None
  | (n', span) :: t => if (n' =? n)%nat then Some span else cap_get t n
  end.

Fixpoint range_list (a : N) (n : nat) : list N :=
  match n with
  | O => []
  | S k => a :: range_list (a + 1) k
  end.

Definition chars_between (a b : N) : list N :=
  range_list a (N.to_nat (b + 1 - a)).

Definition below (hi : option nat) (cnt : nat) : bool :=
  match hi with
  | Some h => (cnt <? h)%nat
  | None => true
  end.

Definition result_t := option (nat * caps).
Definition cont := nat -> caps -> result_t.

(** The loop of a repetition over the matcher [body] of its sub-pattern. *)
Fixpoint rep_loop (body : nat -> caps -> cont -> result_t)
    (greedy : bool) (lo : nat) (hi : option nat) (k : cont)
    (fuel cnt i : nat) (c : caps) : result_t :=
  match fuel with
  | O => None
  | S f =>
      let more (_ : unit) :=
        if below hi cnt then
          body i c (fun j c' =>
            if (i <? j)%nat then rep_loop body greedy lo hi k f (S cnt) j c'
            else None)
        else None in
      let stop (_ : unit) := if (lo <=? cnt)%nat then k i c else None in
      if greedy then
        match more tt with Some x => Some x | None => stop tt end
      else
        match stop tt with Some x => Some x | None => more tt end
  end.

Section Engine.
Variable db : unicode_db.
Variable fl : flags.
Variable s : str.

Definition in_category (k : category) (c : N) : bool :=
  match k with
  | CatSpace => isspace db c
  | CatDigit => isdecimal db c
  | CatWord => isword db c
  end.

(** Under IGNORECASE a cased pattern character matches the characters
    with the same lower case (and the extra equivalents of [casefix]). *)
Definition sre_iscased (x : N) : bool :=
  negb (x =? tolower db x) || negb (x =? toupper db x).

Definition lit_match (x c : N) : bool :=
  if ignorecase fl && sre_iscased x then
    (tolower db c =? tolower db x)
    || casefix db (tolower db x) (tolower db c)
  else c =? x.

Definition item_match (i : citem) (c : N) : bool :=
  match i with
  | CLit x => lit_match x c
  | CRange a b =>
      if ignorecase fl then existsb (fun x => lit_match x c) (chars_between a b)
      else in_range a b c
  | CCat k => in_category k c
  end.

Definition set_match (neg : bool) (items : list citem) (c : N) : bool :=
  xorb neg (existsb (fun i => item_match i c) items).

Definition any_match (c : N) : bool := dotall fl || negb (c =? 10).

Definition at_eol (i : nat) : bool :=
  (i =? length s)%nat
  || ((S i =? length s)%nat
      && match nth_error s i with Some c => c =? 10 | None => false end).

Definition word_at (i : nat) : bool :=
  match nth_error s i with Some c => isword db c | None => false end.

Definition at_wordb (i : nat) : bool :=
  xorb (match i with O => false | S p => word_at p end) (word_at i).

Fixpoint exec (r : regex) (i : nat) (c : caps) (k : cont) {struct r}
  : result_t :=
  match r with
  | REmpty => k i c
  | RSet neg items =>
      match nth_error s i with
      | Some ch => if set_match neg items ch then k (S i) c else None
      | None => None
      end
  | RAny =>
      match nth_error s i with
      | Some ch => if any_match ch then k (S i) c else None
      | None => None
      end
  | RSeq r1 r2 => exec r1 i c (fun j c' => exec r2 j c' k)
  | RAlt r1 r2 =>
      match exec r1 i c k with
      | Some x => Some x
      | None => exec r2 i c k
      end
  | RRep greedy lo hi r' =>
      rep_loop (exec r') greedy lo hi k (S (length s)) 0 i c
  | RGroup n r' => exec r' i c (fun j c' => k j ((n, (i, j)) :: c'))
  | RBol => match i with O => k i c | S _ => None end
  | REol => if at_eol i then k i c else None
  | RWordB => if at_wordb i then k i c else None
  end.

(** *** Match objects and the functions of the [re] module *)

Record re_match := { m_start : nat; m_end : nat; m_caps : caps }.

(** [m.group(n)]: [None] when the group took no part in the match. *)
Definition m_group (m : re_match) (n : nat) : option str :=
  match n with
  | O => Some (slice s (m_start m) (m_end m))
  | _ => match cap_get (m_caps m) n with
         | Some (a, b) => Some (slice s a b)
         | None => None
         end
  end.

(** A match starting exactly at [start].  With [must_advance], which the
    iterating functions set after an empty match, a match that ends where
    it starts is refused. *)
Definition match_at (r : regex) (start : nat) (must_advance : bool)
  : option re_match :=
  match exec r start []
          (fun j c => if must_advance && (j =? start)%nat then None
                      else Some (j, c)) with
  | Some (j, c) => Some {| m_start := start; m_end := j; m_caps := c |}
  | None => None
  end.

(** Leftmost match at one of the [n] positions from [start] on. *)
Fixpoint search_go (r : regex) (n start : nat) (must_advance : bool)
  : option re_match :=
  match n with
  | O => None
  | S n' =>
      match match_at r start must_advance with
      | Some m => Some m
      | None => search_go r n' (S start) false
      end
  end.

Definition search_from (r : regex) (pos : nat) (must_advance : bool) :=
  search_go r (S (length s) - pos) pos must_advance.

Fixpoint finditer_go (r : regex) (fuel pos : nat) (must_advance : bool)
  : list re_match :=
  match fuel with
  | O => []
  | S f =>
      match search_from r pos must_advance with
      | Some m =>
          m :: finditer_go r f (m_end m) (m_end m =? m_start m)%nat
      | None => []
      end
  end.

(** [re.search], [re.match], [re.finditer] *)
Definition re_search (r : regex) : option re_match := search_from r 0 false.
Definition re_match_start (r : regex) : option re_match := match_at r 0 false.
Definition re_finditer (r : regex) : list re_match :=
  finditer_go r (2 * length s + 2) 0 false.

(** The pieces of [s] between the matches [ms], from position [pos]. *)
Fixpoint between (ms : list re_match) (pos : nat) : list str :=
  match ms with
  | [] => [slice s pos (length s)]
  | m :: t => slice s pos (m_start m) :: between t (m_end m)
  end.

(** [re.split] for a pattern without capturing groups. *)
Definition re_split (r : regex) : list str := between (re_finditer r) 0.

(** [re.sub] whose replacement is computed from the match by [repl]. *)
Fixpoint sub_go (repl : re_match -> str) (ms : list re_match) (pos : nat)
  : str :=
  match ms with
  | [] => slice s pos (length s)
  | m :: t => slice s pos (m_start m) ++ repl m ++ sub_go repl t (m_end m)
  end.

Definition re_sub_with (r : regex) (repl : re_match -> str) : str :=
  sub_go repl (re_finditer r) 0.

(** [re.sub] with a replacement string free of group references. *)
Definition re_sub (r : regex) (repl : str) : str :=
  re_sub_with r (fun _ => repl).

(** A group reference in a replacement template: an unmatched group is
    replaced by the empty string. *)
Definition group_or_empty (m : re_match) (n : nat) : str :=
  match m_group m n with Some g => g | None => [] end.

(** [re.findall] for a pattern with exactly one capturing group. *)
Definition re_findall1 (r : regex) : list str :=
  map (fun m => group_or_empty m 1) (re_finditer r).

End Engine.


(** ** Exceptions

    A Python function either returns a value or raises. *)

Inductive exn := TypeError | AttributeError | ValueError | OverflowError.

Inductive result (A : Type) : Type :=
| Ok (a : A)
| Raise (e : exn).
Arguments Ok {A} a.
Arguments Raise {A} e.

#[export] Instance result_ret : MRet result := fun A a => Ok a.
#[export] Instance result_bind : MBind result := fun A B f m =>
  match m with
  | Ok a => f a
  | Raise e => Raise e
  end.

(** The value a call returned, [d] if it raised. *)
Definition ok_ou {A : Type} (d : A) (r : result A) : A :=
  match r with
  | Ok a => a
  | Raise _ => d
  end.

(** [m.group(n)] used as a string: [None] there makes the string operation
    that follows raise. *)
Definition group (s : str) (m : re_match) (n : nat) : result str :=
  match m_group s m n with
  | Some g => Ok g
  | None => Raise AttributeError
  end.

(** ** Floating point

    Python floats are IEEE 754 binary64 numbers; they are modelled by the
    [spec_float] of the standard library with [prec = 53], [emax = 1024]. *)

Module Float.
Local Open Scope Z_scope.

Definition prec : Z := 53.
Definition emax : Z := 1024.

(** [float(z)] for an integer [z]. *)
Definition of_Z (z : Z) : spec_float := binary_normalize prec emax z 0 false.

Definition sub : spec_float -> spec_float -> spec_float := SFsub prec emax.
Definition mul : spec_float -> spec_float -> spec_float := SFmul prec emax.

(** The double nearest to [(-1)^sg * m * 10^e] (ties to even), as the
    string conversion of Python computes it. *)
Definition of_decimal (sg : bool) (m : Z) (e : Z) : spec_float :=
  match m with
  | Zpos p =>
      if 0 <=? e
      then binary_normalize prec emax (if sg then - (m * 10 ^ e) else m * 10 ^ e) 0 sg
      else SFdiv prec emax (S754_finite sg p 0)
                 (S754_finite false (Z.to_pos (10 ^ (- e))) 0)
  | _ => S754_zero sg
  end.

(** [int(x)]: truncation towards zero. *)
Definition to_int (x : spec_float) : result Z :=
  match x with
  | S754_zero _ => Ok 0
  | S754_finite sg m e =>
      let v := if 0 <=? e then Zpos m * 2 ^ e else Zpos m / 2 ^ (- e) in
      Ok (if sg then - v else v)
  | S754_infinity _ => Raise OverflowError
  | S754_nan => Raise ValueError
  end.

(** [round(x)]: the nearest integer, ties to even. *)
Definition round (x : spec_float) : result Z :=
  match x with
  | S754_zero _ => Ok 0
  | S754_finite sg m e =>
      let v :=
        if 0 <=? e then Zpos m * 2 ^ e
        else
          let d := 2 ^ (- e) in
          let q := Zpos m / d in
          let r := Zpos m mod d in
          match 2 * r ?= d with
          | Lt => q
          | Gt => q + 1
          | Eq => if Z.even q then q else q + 1
          end in
      Ok (if sg then - v else v)
  | S754_infinity _ => Raise OverflowError
  | S754_nan => Raise ValueError
  end.

End Float.

(** *** [float(s)] for a string

    The grammar is that of Python: optional sign, then [inf], [infinity] or
    [nan] in any case, or a decimal number with optional fraction and
    exponent; digits may be separated by single underscores; surrounding
    white space is ignored; any Unicode decimal digit counts as its value.
    A string outside the grammar raises ValueError. *)

Section FloatOfStr.
Variable db : unicode_db.

(** The digits of a "digitpart": [digit ("_"? digit)*], most significant
    first, and what follows it. *)
Fixpoint digitpart_go (acc : list N) (s : str) : list N * str :=
  match s with
  | c :: t =>
      match decimal_value db c with
      | Some d => digitpart_go (d :: acc) t
      | None =>
          match acc, t with
          | _ :: _, c2 :: _ =>
              if (c =? 95) && isdecimal db c2 then digitpart_go acc t
              else (rev acc, s)
          | _, _ => (rev acc, s)
          end
      end
  | [] => (rev acc, [])
  end.

Definition digitpart (s : str) : list N * str := digitpart_go [] s.

Definition digits_value (ds : list N) : Z :=
  fold_left (fun acc d => (acc * 10 + Z.of_N d)%Z) ds 0%Z.

Definition sign_of (s : str) : bool * str :=
  match s with
  | 45 :: t => (true, t)
  | 43 :: t => (false, t)
  | _ => (false, s)
  end.

Definition ascii_lower (c : N) : N := if in_range 65 90 c then c + 32 else c.

(** The optional exponent: [(e|E) sign? digitpart]. *)
Definition exponent (s : str) : option (Z * str) :=
  match s with
  | [] => Some (0%Z, [])
  | c :: t =>
      if ascii_lower c =? 101 then
        let (sg, t1) := sign_of t in
        match digitpart t1 with
        | ([], _) => None
        | (ds, rest) =>
            Some ((if sg then - digits_value ds else digits_value ds)%Z, rest)
        end
      else Some (0%Z, s)
  end.

Definition py_float (s : str) : result spec_float :=
  let (sg, body) := sign_of (str_strip db s) in
  let low := map ascii_lower body in
  if str_eqb low (py "inf") || str_eqb low (py "infinity")
  then Ok (S754_infinity sg)
  else if str_eqb low (py "nan") then Ok S754_nan
  else
    let (ip, r1) := digitpart body in
    let (fp, r2) :=
      match r1 with
      | 46 :: t => digitpart t
      | _ => ([], r1)
      end in
    match ip, fp with
    | [], [] => Raise ValueError
    | _, _ =>
        match exponent r2 with
        | Some (e, []) =>
            Ok (Float.of_decimal sg (digits_value (ip ++ fp))
                  (e - Z.of_nat (length fp)))
        | _ => Raise ValueError
        end
    end.

End FloatOfStr.


(** ** main.py: [gerar_valor_extenso] *)

Module Extenso.
Local Open Scope Z_scope.

Definition UNIDADES : list str :=
  map py ["" ; "um"; "dois"; "três"; "quatro"; "cinco"; "seis";
          "sete"; "oito"; "nove"; "dez"; "onze"; "doze"; "treze";
          "quatorze"; "quinze"; "dezesseis"; "dezessete"; "dezoito";
          "dezenove"]%string.
Definition DEZENAS : list str :=
  map py [""; ""; "vinte"; "trinta"; "quarenta"; "cinquenta";
          "sessenta"; "setenta"; "oitenta"; "noventa"]%string.
Definition CENTENAS : list str :=
  map py [""; "cem"; "duzentos"; "trezentos"; "quatrocentos";
          "quinhentos"; "seiscentos"; "setecentos"; "oitocentos";
          "novecentos"]%string.

(** [table[n]] for an index within the table. *)
Definition item (table : list str) (n : Z) : str := nth (Z.to_nat n) table [].

(** The recursion of [_extenso] descends through the magnitudes
    hundred, thousand, million. *)
Definition tier (n : Z) : nat :=
  if n <? 100 then 0
  else if n <? 1000 then 1
  else if n <? 1000000 then 2
  else if n <? 1000000000 then 3
  else 4.

Equations? _extenso (n : Z) : str by wf (tier n) lt :=
  _extenso n :=
    if n =? 0 then py "zero"
    else if n =? 100 then py "cem"
    else if n <? 20 then item UNIDADES n
    else
      match Z_lt_dec n 100 with
      | left _ =>
          let d := n / 10 in
          let u := n mod 10 in
          item DEZENAS d ++ (if u =? 0 then [] else py " e " ++ item UNIDADES u)
      | right H100 =>
          match Z_lt_dec n 1000 with
          | left H1000 =>
              let c := n / 100 in
              let r := n mod 100 in
              let base :=
                if (c =? 1) && (0 <? r) then py "cento" else item CENTENAS c in
              base ++ (if r =? 0 then [] else py " e " ++ _extenso r)
          | right H1000 =>
              match Z_lt_dec n 1000000 with
              | left H1e6 =>
                  let m := n / 1000 in
                  let r := n mod 1000 in
                  let prefixo :=
                    if m =? 1 then py "mil" else _extenso m ++ py " mil" in
                  prefixo ++ (if r =? 0 then [] else py " e " ++ _extenso r)
              | right H1e6 =>
                  match Z_lt_dec n 1000000000 with
                  | left H1e9 =>
                      let mi := n / 1000000 in
                      let r := n mod 1000000 in
                      let sufixo :=
                        if mi =? 1 then py "milhão" else py "milhões" in
                      let parte_mi := _extenso mi ++ py " " ++ sufixo in
                      parte_mi ++ (if r =? 0 then [] else py " e " ++ _extenso r)
                  | right _ => str_of_Z n
                  end
              end
          end
      end.
Proof.
  all: repeat match goal with x := _ |- _ => (clear x || subst x) end.
  all: unfold tier.
  all: repeat match goal with
         | |- context [?a <? ?b] => destruct (Z.ltb_spec a b)
         end; try lia.
  all: try (pose proof (Z.mod_pos_bound n 100 ltac:(lia)); lia).
  all: try (pose proof (Z.mod_pos_bound n 1000 ltac:(lia)); lia).
  all: try (pose proof (Z.mod_pos_bound n 1000000 ltac:(lia)); lia).
  all: try (assert (n / 1000 < 1000) by (apply Z.div_lt_upper_bound; lia); lia).
  all: try (assert (n / 1000000 < 1000) by (apply Z.div_lt_upper_bound; lia); lia).
Qed.

End Extenso.

Section ValorExtenso.
Variable db : unicode_db.
Import Extenso.
Local Open Scope Z_scope.

(** [re.sub(r'[R$\s]', '', valor_str).replace('.', '').replace(',', '.')] *)
Definition limpar_valor (valor_str : str) : str :=
  str_replace 44 (py ".")
    (str_replace 46 []
       (re_sub db NOFLAGS valor_str (re_compile (py "[R$\s]")) [])).

Definition com_unidade (n : Z) (singular plural : string) : str :=
  _extenso n ++ (if n =? 1 then py singular else py plural).

Definition montar_partes (inteiros centavos : Z) : list str :=
  (if 0 <? inteiros then [com_unidade inteiros " real" " reais"] else [])
  ++ (if 0 <? centavos then [com_unidade centavos " centavo" " centavos"] else []).

Definition gerar_valor_extenso (valor_str : str) : result str :=
  match py_float db (limpar_valor valor_str) with
  | Raise ValueError => Ok valor_str
  | Raise e => Raise e
  | Ok n =>
      inteiros ← Float.to_int n;
      centavos ← Float.round
                   (Float.mul (Float.sub n (Float.of_Z inteiros))
                              (Float.of_Z 100));
      let partes := montar_partes inteiros centavos in
      Ok (match partes with
          | [] => py "zero reais"
          | _ => str_join (py " e ") partes
          end)
  end.

End ValorExtenso.


(** ** main.py: [extrair_dados_certidao] *)

Record Responsavel := {
  nome : str;
  tipo_doc : str;
  numero_doc : str;
  acordao : option str;
  excluido : bool;
}.

Record Certidao := {
  numero_processo : option str;
  valor_atualizado : option str;
  data_atualizacao : option str;
  acordao_origem : option str;
  responsaveis : list Responsavel;
}.

(** [for x in l: st = f(st, x)] where the body may raise. *)
Fixpoint foldM {A S : Type} (f : S -> A -> result S) (l : list A) (st : S)
  : result S :=
  match l with
  | [] => Ok st
  | x :: t =>
      match f st x with
      | Ok st' => foldM f t st'
      | Raise e => Raise e
      end
  end.

(** [re.escape(x)] compiled: the pattern that matches [x] literally. *)
Definition re_literal (x : str) : regex :=
  fold_right (fun c r => Parse.seq (RSet false [CLit c]) r) REmpty x.

(** [m.lastindex]: the number of the capturing group closed last. *)
Definition lastindex (m : re_match) : option nat :=
  match m_caps m with
  | [] => None
  | (n, _) :: _ => Some n
  end.

Module Pat.
Local Open Scope string_scope.

Definition ESPACOS := re_compile (py "\s+").
Definition ESPACO := re_compile (py "\s").
Definition PROCESSO :=
  re_compile (py "processo\s+n[oº°]?\s*(TC[/\s]\d{6}[/\s]\d{4})").
Definition VALOR_ROTULADO :=
  re_compile
    (py "(?:restituir[^R]{0,80}|[Vv]alor\s+(?:final|do\s+débito\s+atualizado)[^R]{0,20})"
     ++ py "R\$\s*([\d.,]+)")%list.
Definition VALOR_MONETARIO :=
  re_compile (py "R\$\s*(\d{1,3}(?:\.\d{3})*,\d{2})").
Definition DATAS :=
  [ re_compile (py "[Aa]tualizado\s+em[:\s]+(\d{2}/\d{2}/\d{4})");
    re_compile (py "até\s+(\d{2}/\d{2}/\d{4})") ].
Definition ACORDAO_ORIGEM :=
  re_compile (py "[Aa]córd[ãa]o\s+n[oº°]?\s*([\d]+(?:-[A-Z]+)?/\d{4})").
Definition SUFIXO_ACORDAO := re_compile (py "(/\d{4})\s*[-–]\s*\w+").
Definition CERTIFICO_FECHADO :=
  re_compile (py "(CERTIFICO,\s+ainda.+?substituí-la\.)").
Definition CERTIFICO_ABERTO := re_compile (py "(CERTIFICO,\s+ainda.+)").
Definition padrao :=
  re_compile
    (py "(?:Sr\.?\s*)?"
     ++ py "([A-ZÁÉÍÓÚÀÂÊÔÇÃẼÕÜ][A-ZÁÉÍÓÚÀÂÊÔÇÃẼÕÜA-Z\s\./]{2,}?)"
     ++ py "\s*\((CPF|CNPJ)\s*:?\s*([\d\.\/\-]+)\)")%list.
Definition padrao_geral := padrao.
Definition padrao_lista :=
  re_compile
    (py "[a-z]\)\s*(?:Sr\.?\s*)?"
     ++ py "([A-ZÁÉÍÓÚÀÂÊÔÇÃẼÕÜ][A-ZÁÉÍÓÚÀÂÊÔÇÃẼÕÜA-Z\s\./]+?)"
     ++ py "\s*\((CPF|CNPJ)\s*:?\s*([\d\.\/\-]+)\)")%list.
Definition PREFIXO_NOME := re_compile (py "^(?:e\s+|Sr\.?\s*|a\s+)").
Definition EXCLUSAO :=
  re_compile (py "excluiu[^.]{0,100}rol|excluído\s+do\s+rol").
Definition ACORDAO_APOS_DOC := re_compile (py "AC[ÓO]RD[ÃA]O.*?(\d{1,5}/\d{4})").
Definition NUMERO_ANO := re_compile (py "\b\d{1,5}/\d{4}\b").

End Pat.

Section ExtrairCertidao.
Variable db : unicode_db.

Definition _normalizar_acordao (s0 : str) : str :=
  let s := str_strip db s0 in
  re_sub_with db NOFLAGS s Pat.SUFIXO_ACORDAO (fun m => group_or_empty s m 1).

Definition _buscar_acordao_por_doc (texto_flat num_doc : str)
  : result (option str) :=
  match re_search db NOFLAGS texto_flat (re_literal num_doc) with
  | None => Ok None
  | Some m_doc =>
      let trecho := slice texto_flat (m_end m_doc) (m_end m_doc + 400) in
      let m_ac :=
        match re_search db IGNORECASE_DOTALL trecho Pat.ACORDAO_APOS_DOC with
        | Some m => Some m
        | None => re_search db NOFLAGS trecho Pat.NUMERO_ANO
        end in
      match m_ac with
      | None => Ok None
      | Some m =>
          g ← match lastindex m with
              | Some _ => group trecho m 1
              | None => group trecho m 0
              end;
          Ok (Some (_normalizar_acordao g))
      end
  end.

(** The window of 700 characters after a match holds an exclusion phrase. *)
Definition excluido_apos (texto_flat : str) (m : re_match) : bool :=
  let trecho_pos := slice texto_flat (m_end m) (m_end m + 700) in
  match re_search db IGNORECASE trecho_pos Pat.EXCLUSAO with
  | Some _ => true
  | None => false
  end.

Definition limpar_prefixo (nome : str) : str :=
  str_strip db (re_sub db IGNORECASE nome Pat.PREFIXO_NOME []).

Definition estado := (gset str * list Responsavel)%type.

(** Body of the loop over the "CERTIFICO, ainda" paragraph [trecho]. *)
Definition passo_primario (texto_flat trecho : str) (st : estado)
    (m : re_match) : result estado :=
  let '(vistos, resp) := st in
  g1 ← group trecho m 1;
  g2 ← group trecho m 2;
  g3 ← group trecho m 3;
  let num_doc := str_strip db g3 in
  if bool_decide (num_doc ∈ vistos) then Ok st
  else
    ac ← _buscar_acordao_por_doc texto_flat num_doc;
    Ok ({[ num_doc ]} ∪ vistos,
        resp ++ [ {| nome := limpar_prefixo (str_strip db g1);
                     tipo_doc := str_upper db g2;
                     numero_doc := num_doc;
                     acordao := ac;
                     excluido := false |} ]).

(** Body of the two fallback loops over the whole text; [limpar] tells
    whether the name prefix is removed (fallback A) or not (fallback C). *)
Definition passo_fallback (limpar : bool) (texto_flat : str) (st : estado)
    (m : re_match) : result estado :=
  let '(vistos, resp) := st in
  g3 ← group texto_flat m 3;
  let num_doc := str_strip db g3 in
  if bool_decide (num_doc ∈ vistos) then Ok st
  else if excluido_apos texto_flat m then Ok st
  else
    g1 ← group texto_flat m 1;
    ac ← _buscar_acordao_por_doc texto_flat num_doc;
    g2 ← group texto_flat m 2;
    Ok ({[ num_doc ]} ∪ vistos,
        resp ++ [ {| nome := if limpar then limpar_prefixo (str_strip db g1)
                             else str_strip db g1;
                     tipo_doc := str_upper db g2;
                     numero_doc := num_doc;
                     acordao := ac;
                     excluido := false |} ]).

Definition extrair_numero_processo (texto_flat : str) : result (option str) :=
  match re_search db IGNORECASE texto_flat Pat.PROCESSO with
  | Some m =>
      g ← group texto_flat m 1;
      Ok (Some (re_sub db NOFLAGS g Pat.ESPACO (py "/")))
  | None => Ok None
  end.

Definition extrair_valor (texto_flat : str) : result (option str) :=
  match re_search db IGNORECASE texto_flat Pat.VALOR_ROTULADO with
  | Some m =>
      g ← group texto_flat m 1;
      Ok (Some (py "R$ " ++ g))
  | None =>
      match re_findall1 db NOFLAGS texto_flat Pat.VALOR_MONETARIO with
      | [] => Ok None
      | x :: todos => Ok (Some (py "R$ " ++ List.last todos x))
      end
  end.

Fixpoint extrair_data (texto_flat : str) (pats : list regex)
  : result (option str) :=
  match pats with
  | [] => Ok None
  | pat :: rest =>
      match re_search db NOFLAGS texto_flat pat with
      | Some m => g ← group texto_flat m 1; Ok (Some g)
      | None => extrair_data texto_flat rest
      end
  end.

Definition extrair_acordao_origem (texto_flat : str) : result (option str) :=
  match re_search db NOFLAGS texto_flat Pat.ACORDAO_ORIGEM with
  | Some m => g ← group texto_flat m 1; Ok (Some (_normalizar_acordao g))
  | None => Ok None
  end.

(** The paragraph "CERTIFICO, ainda ... substituí-la." or, without the
    closing phrase, everything from "CERTIFICO, ainda" on; the whole text
    when the marker is absent. *)
Definition trecho_responsaveis (texto_flat : str) : result str :=
  let m_segundo :=
    match re_search db IGNORECASE_DOTALL texto_flat Pat.CERTIFICO_FECHADO with
    | Some m => Some m
    | None => re_search db IGNORECASE_DOTALL texto_flat Pat.CERTIFICO_ABERTO
    end in
  match m_segundo with
  | Some m => group texto_flat m 1
  | None => Ok texto_flat
  end.

(** The three tiers of the search for the responsible parties. *)
Definition tier_primario (texto_flat : str) : result estado :=
  trecho ← trecho_responsaveis texto_flat;
  foldM (passo_primario texto_flat trecho)
        (re_finditer db IGNORECASE trecho Pat.padrao) (∅, []).

Definition tier_fallback_a (texto_flat : str) (st : estado) : result estado :=
  match snd st with
  | [] => foldM (passo_fallback true texto_flat)
                (re_finditer db IGNORECASE texto_flat Pat.padrao_geral) st
  | _ => Ok st
  end.

Definition tier_fallback_c (texto_flat : str) (st : estado) : result estado :=
  match snd st with
  | [] => foldM (passo_fallback false texto_flat)
                (re_finditer db IGNORECASE texto_flat Pat.padrao_lista) st
  | _ => Ok st
  end.

Definition extrair_responsaveis (texto_flat : str) : result (list Responsavel) :=
  st1 ← tier_primario texto_flat;
  st2 ← tier_fallback_a texto_flat st1;
  st3 ← tier_fallback_c texto_flat st2;
  Ok (snd st3).

Definition achatar (texto : str) : str :=
  re_sub db NOFLAGS texto Pat.ESPACOS (py " ").

Definition extrair_dados_certidao (texto : str) : result Certidao :=
  let texto_flat := achatar texto in
  np ← extrair_numero_processo texto_flat;
  va ← extrair_valor texto_flat;
  da ← extrair_data texto_flat Pat.DATAS;
  ao ← extrair_acordao_origem texto_flat;
  rs ← extrair_responsaveis texto_flat;
  Ok {| numero_processo := np;
        valor_atualizado := va;
        data_atualizacao := da;
        acordao_origem := ao;
        responsaveis := rs |}.

End ExtrairCertidao.


(** ** gestor_enderecos.py: [parsear_endereco] *)

Record EnderecoEstruturado := {
  tipo_logradouro : str;
  logradouro : str;
  numero : str;
  complemento : str;
  bairro : str;
  cep : str;
  municipio : str;
  uf : str;
  pais : str;
  endereco_original : str;
}.

(** [EnderecoEstruturado(endereco_original=original)]: the defaults of the
    dataclass. *)
Definition endereco_novo (original : str) : EnderecoEstruturado := {|
  tipo_logradouro := []; logradouro := []; numero := []; complemento := [];
  bairro := []; cep := []; municipio := [];
  uf := py "PI"; pais := py "BR"; endereco_original := original |}.

Definition set_tipo_logradouro v e := {|
  tipo_logradouro := v; logradouro := logradouro e; numero := numero e;
  complemento := complemento e; bairro := bairro e; cep := cep e;
  municipio := municipio e; uf := uf e; pais := pais e;
  endereco_original := endereco_original e |}.
Definition set_logradouro v e := {|
  tipo_logradouro := tipo_logradouro e; logradouro := v; numero := numero e;
  complemento := complemento e; bairro := bairro e; cep := cep e;
  municipio := municipio e; uf := uf e; pais := pais e;
  endereco_original := endereco_original e |}.
Definition set_numero v e := {|
  tipo_logradouro := tipo_logradouro e; logradouro := logradouro e; numero := v;
  complemento := complemento e; bairro := bairro e; cep := cep e;
  municipio := municipio e; uf := uf e; pais := pais e;
  endereco_original := endereco_original e |}.
Definition set_complemento v e := {|
  tipo_logradouro := tipo_logradouro e; logradouro := logradouro e;
  numero := numero e; complemento := v; bairro := bairro e; cep := cep e;
  municipio := municipio e; uf := uf e; pais := pais e;
  endereco_original := endereco_original e |}.
Definition set_bairro v e := {|
  tipo_logradouro := tipo_logradouro e; logradouro := logradouro e;
  numero := numero e; complemento := complemento e; bairro := v; cep := cep e;
  municipio := municipio e; uf := uf e; pais := pais e;
  endereco_original := endereco_original e |}.
Definition set_cep v e := {|
  tipo_logradouro := tipo_logradouro e; logradouro := logradouro e;
  numero := numero e; complemento := complemento e; bairro := bairro e;
  cep := v; municipio := municipio e; uf := uf e; pais := pais e;
  endereco_original := endereco_original e |}.
Definition set_municipio v e := {|
  tipo_logradouro := tipo_logradouro e; logradouro := logradouro e;
  numero := numero e; complemento := complemento e; bairro := bairro e;
  cep := cep e; municipio := v; uf := uf e; pais := pais e;
  endereco_original := endereco_original e |}.
Definition set_uf v e := {|
  tipo_logradouro := tipo_logradouro e; logradouro := logradouro e;
  numero := numero e; complemento := complemento e; bairro := bairro e;
  cep := cep e; municipio := municipio e; uf := v; pais := pais e;
  endereco_original := endereco_original e |}.

(** [if candidatos and not end.bairro: end.bairro = valor] *)
Definition bairro_se_vazio (candidatos : list str) (valor : str)
    (e : EnderecoEstruturado) : EnderecoEstruturado :=
  match candidatos, bairro e with
  | _ :: _, [] => set_bairro valor e
  | _, _ => e
  end.

(** [sorted(l, key=len, reverse=True)]: stable, longest first. *)
Fixpoint inserir_por_tamanho (x : str) (l : list str) : list str :=
  match l with
  | [] => [x]
  | y :: t =>
      if (length y <=? length x)%nat then x :: l
      else y :: inserir_por_tamanho x t
  end.

Definition sorted_len_reverse (l : list str) : list str :=
  fold_right inserir_por_tamanho [] l.

Module PatEnd.
Local Open Scope string_scope.

Definition _TIPOS_LOGRADOURO : list str :=
  map py
    [ "AVENIDA"; "AV"; "RUA"; "R"; "TRAVESSA"; "TV"; "ALAMEDA"; "AL";
      "RODOVIA"; "ROD"; "ESTRADA"; "EST"; "PRACA"; "PC"; "LARGO";
      "BECO"; "VILA"; "CONDOMINIO"; "COND"; "QUADRA"; "QD"; "CONJUNTO";
      "LOTEAMENTO"; "SETOR"; "AREA"; "LOTE"; "SERVIDAO"; "COMUNIDADE";
      "MUCUNA"; "LOCALIDADE" ].

Definition _RE_TIPO_fonte : str :=
  (py "^(" ++ str_join (py "|") (sorted_len_reverse _TIPOS_LOGRADOURO)
   ++ py ")\b[.]?\s*")%list.
Definition _RE_TIPO := re_compile _RE_TIPO_fonte.

Definition ESPACOS := re_compile (py "\s+").
Definition CIDADE_UF := re_compile (py "([A-Z][A-Z\s\-]*)/([A-Z]{2})\s*$").
Definition HIFEN := re_compile (py "\s*-\s*").
Definition CEP := re_compile (py "CEP\s*(\d{5}[-.]?\d{3})").
Definition PONTUACAO_CEP := re_compile (py "[-.]").
Definition ROTULO_BAIRRO := re_compile (py "^BAIRRO\s+").
Definition MARCA_NUMERO := re_compile (py "\bN[o]\s*").
Definition NUMERO_CASA :=
  re_compile (py "^(S/?N|SN|\d[\d\s./]*|[QLTB]\s*\d.*)$").

End PatEnd.

Definition nao_vazio (s : str) : bool :=
  match s with [] => false | _ => true end.

Section ParsearEndereco.
Variable db : unicode_db.

(** [[p.strip() for p in pieces if p.strip()]] *)
Definition segmentos_limpos (pieces : list str) : list str :=
  List.filter nao_vazio (map (str_strip db) pieces).

(** 1. CIDADE/UF *)
Definition etapa_cidade (e : EnderecoEstruturado) (original : str)
  : result (EnderecoEstruturado * str) :=
  match re_search db IGNORECASE original PatEnd.CIDADE_UF with
  | Some m_cidade =>
      g1 ← group original m_cidade 1;
      let cidade_raw := str_strip db g1 in
      let partes_cidade :=
        segmentos_limpos (re_split db NOFLAGS cidade_raw PatEnd.HIFEN) in
      let e1 :=
        set_municipio
          (match partes_cidade with
           | [] => str_title db cidade_raw
           | p :: ps => str_title db (List.last ps p)
           end) e in
      let bairros_cid := removelast partes_cidade in
      g2 ← group original m_cidade 2;
      let e2 := set_uf (str_upper db g2) e1 in
      let original' :=
        str_rstrip_chars (py " -,") (slice original 0 (m_start m_cidade)) in
      Ok (bairro_se_vazio bairros_cid
            (str_join (py " / ") (map (str_title db) bairros_cid)) e2,
          original')
  | None => Ok (e, original)
  end.

(** 2. CEP *)
Definition etapa_cep (e : EnderecoEstruturado) (original : str)
  : result (EnderecoEstruturado * str) :=
  match re_search db IGNORECASE original PatEnd.CEP with
  | Some m_cep =>
      g1 ← group original m_cep 1;
      let e1 := set_cep (re_sub db NOFLAGS g1 PatEnd.PONTUACAO_CEP []) e in
      let trecho_apos :=
        str_strip_chars (py " -,")
          (slice original (m_end m_cep) (length original)) in
      let original' :=
        str_rstrip_chars (py " -,") (slice original 0 (m_start m_cep)) in
      match trecho_apos with
      | [] => Ok (e1, original')
      | _ =>
          let segs := segmentos_limpos (str_split (py " - ") trecho_apos) in
          let bairro_pos := List.filter (fun s => negb (char_in s 47)) segs in
          Ok (bairro_se_vazio bairro_pos
                (str_title db (str_join (py " / ") bairro_pos)) e1,
              original')
      end
  | None => Ok (e, original)
  end.

(** 3. the remaining text, split at hyphens *)
Definition partes_dash (original : str) : list str :=
  segmentos_limpos (re_split db NOFLAGS original PatEnd.HIFEN).

Definition bairro_candidatos (original : str) : list str :=
  map (fun p => str_strip db (re_sub db IGNORECASE p PatEnd.ROTULO_BAIRRO []))
      (tl (partes_dash original)).

Definition etapa_logradouro (e : EnderecoEstruturado) (original : str)
  : EnderecoEstruturado * str :=
  let logradouro_bruto :=
    match partes_dash original with [] => [] | p :: _ => p end in
  (bairro_se_vazio (bairro_candidatos original)
     (str_join (py " / ") (map (str_title db) (bairro_candidatos original))) e,
   logradouro_bruto).

(** 4. street type, name, number, complement *)
Definition etapa_numero (e : EnderecoEstruturado) (logradouro_bruto0 : str)
  : result EnderecoEstruturado :=
  let logradouro_bruto :=
    re_sub db NOFLAGS logradouro_bruto0 PatEnd.MARCA_NUMERO [] in
  let segmentos := map (str_strip db) (str_split (py ",") logradouro_bruto) in
  let seg0 := match segmentos with [] => [] | x :: _ => x end in
  e1 ← match re_match_start db IGNORECASE seg0 PatEnd._RE_TIPO with
       | Some m_tipo =>
           g1 ← group seg0 m_tipo 1;
           Ok (set_logradouro
                 (str_title db
                    (str_strip db (slice seg0 (m_end m_tipo) (length seg0))))
                 (set_tipo_logradouro
                    (str_rstrip_chars (py ".") (str_upper db g1)) e))
       | None =>
           Ok (set_logradouro (str_title db (str_strip db seg0))
                 (set_tipo_logradouro (py "RUA") e))
       end;
  let e2 :=
    match segmentos with
    | _ :: s1 :: resto =>
        let poss_num := str_strip db s1 in
        match re_match_start db IGNORECASE poss_num PatEnd.NUMERO_CASA with
        | Some _ =>
            let e' := set_numero (str_upper db poss_num) e1 in
            match resto with
            | _ :: _ =>
                set_complemento
                  (str_title db (str_strip db (str_join (py ", ") resto))) e'
            | [] => e'
            end
        | None =>
            set_complemento
              (str_title db (str_strip db (str_join (py ", ") (s1 :: resto))))
              (set_numero (py "S/N") e1)
        end
    | _ => e1
    end in
  Ok (match numero e2 with
      | [] => set_numero (py "S/N") e2
      | _ => e2
      end).

Definition normalizar_endereco (endereco_bruto : str) : str :=
  str_strip db (re_sub db NOFLAGS endereco_bruto PatEnd.ESPACOS (py " ")).

Definition parsear_endereco (endereco_bruto : str)
  : result EnderecoEstruturado :=
  let original := normalizar_endereco endereco_bruto in
  '(e1, original1) ← etapa_cidade (endereco_novo original) original;
  '(e2, original2) ← etapa_cep e1 original1;
  let '(e3, logradouro_bruto) := etapa_logradouro e2 original2 in
  etapa_numero e3 logradouro_bruto.

End ParsearEndereco.


(** ** gestor_enderecos.py: [parsear_partes] *)

(** [int(s)] in base 10: white space around, an optional sign, decimal
    digits that single underscores may separate.  More than 4300 digits
    (the default of [sys.int_max_str_digits]) raise ValueError. *)
Definition py_int (db : unicode_db) (s : str) : result Z :=
  let (sg, body) := sign_of (str_strip db s) in
  match digitpart db body with
  | (d :: ds, []) =>
      if (4300 <? length (d :: ds))%nat then Raise ValueError
      else
      Ok (if sg then - digits_value (d :: ds) else digits_value (d :: ds))%Z
  | _ => Raise ValueError
  end.

(** The dictionaries appended to [partes]. *)
Module Parte.
Record t := {
  numero_parte : Z;
  nome : str;
  cpf_cnpj : str;
  tipo_doc : str;
  email : str;
}.
End Parte.

(** The variables of [parsear_partes] that its loop and its inner functions
    share. *)
Module Acc.
Record t := {
  partes : list Parte.t;
  num_atual : option Z;
  nome_linhas : list str;
  doc_atual : str;
  tipo_doc : str;
  email_atual : str;
}.

Definition inicial : t := {|
  partes := []; num_atual := None; nome_linhas := [];
  doc_atual := []; tipo_doc := []; email_atual := [] |}.
End Acc.

Module PatPartes.
Local Open Scope string_scope.

Definition re_inicio := re_compile (py "^(\d{1,2})\s*[-.)|\s]\s*(.+)").
Definition re_cpf_fmt :=
  re_compile
    (py "CPF\s*[:.#]?\s*([\d]{3}[.\s][\d]{3}[.\s][\d]{3}[-\s][\d]{2})").
Definition re_cnpj_fmt :=
  re_compile
    (py "CNPJ\s*[:.#]?\s*([\d]{2}[.\s][\d]{3}[.\s][\d]{3}[/\s][\d]{4}[-\s][\d]{2})").
Definition re_cpf_raw := re_compile (py "([\d]{3}\.[\d]{3}\.[\d]{3}-[\d]{2})").
Definition re_cnpj_raw :=
  re_compile (py "([\d]{2}\.[\d]{3}\.[\d]{3}/[\d]{4}-[\d]{2})").
Definition re_email := re_compile (py "[\w.+\-]+@[\w.\-]+\.[a-z]{2,}").
Definition re_linha_so_cpf :=
  re_compile (py "^\s*\d{3}\.\d{3}\.\d{3}-\d{2}\s*$").
Definition re_linha_so_cnpj :=
  re_compile (py "^\s*\d{2}\.\d{3}\.\d{3}/\d{4}-\d{2}\s*$").
Definition ROTULO_DOC := re_compile (py "\b(CPF|CNPJ)\b").
Definition FONE := re_compile (py "\b\d{2}\s+\d{4,5}-\d{4}\b").
Definition ESPACO := re_compile (py "[\s]").
Definition ESPACOS := re_compile (py "\s+").

End PatPartes.

Section ParsearPartes.
Variable db : unicode_db.
Import PatPartes.

Definition _e_linha_doc (linha : str) : bool :=
  match re_match_start db NOFLAGS linha re_linha_so_cpf with
  | Some _ => true
  | None =>
      match re_match_start db NOFLAGS linha re_linha_so_cnpj with
      | Some _ => true
      | None => false
      end
  end.

(** [a.search(linha) or b.search(linha)] *)
Definition search_or (linha : str) (fa : flags) (a : regex)
    (fb : flags) (b : regex) : option re_match :=
  match re_search db fa linha a with
  | Some m => Some m
  | None => re_search db fb linha b
  end.

Definition sem_espacos (g : str) : str := re_sub db NOFLAGS g ESPACO [].

Definition _extrair_doc (linha : str) : result (str * str) :=
  match search_or linha IGNORECASE re_cpf_fmt NOFLAGS re_cpf_raw with
  | Some m => g ← group linha m 1; Ok (sem_espacos g, py "CPF")
  | None =>
      match search_or linha IGNORECASE re_cnpj_fmt NOFLAGS re_cnpj_raw with
      | Some m => g ← group linha m 1; Ok (sem_espacos g, py "CNPJ")
      | None => Ok ([], [])
      end
  end.

(** Removal of the tax numbers, in the order of the source. *)
Definition sem_documentos (linha : str) : str :=
  let l1 := re_sub db IGNORECASE linha re_cnpj_fmt [] in
  let l2 := re_sub db IGNORECASE l1 re_cpf_fmt [] in
  let l3 := re_sub db NOFLAGS l2 re_cnpj_raw [] in
  re_sub db NOFLAGS l3 re_cpf_raw [].

Definition _limpar_nome (linhas_lista : list str) : str :=
  let n0 := str_join (py " ") linhas_lista in
  let n1 := re_sub db IGNORECASE n0 re_cpf_fmt [] in
  let n2 := re_sub db IGNORECASE n1 re_cnpj_fmt [] in
  let n3 := re_sub db NOFLAGS n2 re_cpf_raw [] in
  let n4 := re_sub db NOFLAGS n3 re_cnpj_raw [] in
  let n5 := re_sub db IGNORECASE n4 re_email [] in
  let n6 := re_sub db IGNORECASE n5 ROTULO_DOC [] in
  let n7 := re_sub db NOFLAGS n6 FONE [] in
  let n8 :=
    str_strip_chars (py " -,.:#") (re_sub db NOFLAGS n7 ESPACOS (py " ")) in
  str_title db n8.

Definition _salvar (st : Acc.t) : list Parte.t :=
  match Acc.num_atual st with
  | Some n =>
      (Acc.partes st ++
       [ {| Parte.numero_parte := n;
            Parte.nome := _limpar_nome (Acc.nome_linhas st);
            Parte.cpf_cnpj := Acc.doc_atual st;
            Parte.tipo_doc := Acc.tipo_doc st;
            Parte.email := Acc.email_atual st |} ])%list
  | None => Acc.partes st
  end.

Definition email_de (linha : str) (m_email : option re_match) : str :=
  match m_email with
  | Some m => slice linha (m_start m) (m_end m)
  | None => []
  end.

(** [if doc and not doc_atual: doc_atual = doc; tipo_doc = tdoc] *)
Definition adotar_doc (doc tdoc : str) (st : Acc.t) : Acc.t :=
  match doc, Acc.doc_atual st with
  | _ :: _, [] =>
      {| Acc.partes := Acc.partes st; Acc.num_atual := Acc.num_atual st;
         Acc.nome_linhas := Acc.nome_linhas st;
         Acc.doc_atual := doc; Acc.tipo_doc := tdoc;
         Acc.email_atual := Acc.email_atual st |}
  | _, _ => st
  end.

Definition adotar_email (linha : str) (m_email : option re_match)
    (st : Acc.t) : Acc.t :=
  match m_email, Acc.email_atual st with
  | Some _, [] =>
      {| Acc.partes := Acc.partes st; Acc.num_atual := Acc.num_atual st;
         Acc.nome_linhas := Acc.nome_linhas st;
         Acc.doc_atual := Acc.doc_atual st; Acc.tipo_doc := Acc.tipo_doc st;
         Acc.email_atual := email_de linha m_email |}
  | _, _ => st
  end.

Definition acrescentar_nome (linha_limpa : str) (st : Acc.t) : Acc.t :=
  match linha_limpa with
  | [] => st
  | _ =>
      {| Acc.partes := Acc.partes st; Acc.num_atual := Acc.num_atual st;
         Acc.nome_linhas := (Acc.nome_linhas st ++ [linha_limpa])%list;
         Acc.doc_atual := Acc.doc_atual st; Acc.tipo_doc := Acc.tipo_doc st;
         Acc.email_atual := Acc.email_atual st |}
  end.

(** The body of [for linha in linhas]. *)
Definition passo_linha (st : Acc.t) (linha0 : str) : result Acc.t :=
  let linha := str_strip db linha0 in
  match linha with
  | [] => Ok st
  | _ =>
      '(doc, tdoc) ← _extrair_doc linha;
      let m_email := re_search db IGNORECASE linha re_email in
      if _e_linha_doc linha then Ok (adotar_doc doc tdoc st)
      else
        match re_match_start db IGNORECASE linha re_inicio with
        | Some m_ini =>
            let salvas := _salvar st in
            g1 ← group linha m_ini 1;
            n ← py_int db g1;
            g2 ← group linha m_ini 2;
            Ok {| Acc.partes := salvas; Acc.num_atual := Some n;
                  Acc.nome_linhas := [str_strip db g2];
                  Acc.doc_atual := doc; Acc.tipo_doc := tdoc;
                  Acc.email_atual := email_de linha m_email |}
        | None =>
            let st1 := adotar_email linha m_email (adotar_doc doc tdoc st) in
            match Acc.num_atual st1 with
            | Some _ =>
                let l1 := sem_documentos linha in
                let l2 := re_sub db IGNORECASE l1 re_email [] in
                let l3 := re_sub db IGNORECASE l2 ROTULO_DOC [] in
                let l4 := re_sub db NOFLAGS l3 FONE [] in
                Ok (acrescentar_nome (str_strip_chars (py " -,.:") l4) st1)
            | None =>
                let l1 := sem_documentos linha in
                let l2 := re_sub db IGNORECASE l1 re_email [] in
                Ok (acrescentar_nome (str_strip_chars (py " -,.:") l2)
                      {| Acc.partes := Acc.partes st1;
                         Acc.num_atual := Some 1%Z;
                         Acc.nome_linhas := [];
                         Acc.doc_atual := doc; Acc.tipo_doc := tdoc;
                         Acc.email_atual := email_de linha m_email |})
            end
        end
  end.

Definition parsear_partes (partes_texto : str) : result (list Parte.t) :=
  st ← foldM passo_linha (str_splitlines partes_texto) Acc.inicial;
  Ok (_salvar st).

End ParsearPartes.


(** ** gestor_enderecos.py: [EnderecoEstruturado.formatado] *)

Section Formatado.
Variable db : unicode_db.

(** [f"{self.tipo_logradouro} {self.logradouro}".strip()] *)
Definition logradouro_completo (e : EnderecoEstruturado) : str :=
  str_strip db (tipo_logradouro e ++ py " " ++ logradouro e).

(** The list [partes] that [formatado] joins. *)
Definition formatado_partes (e : EnderecoEstruturado) : list str :=
  (if nao_vazio (tipo_logradouro e) || nao_vazio (logradouro e)
   then [logradouro_completo e] else [])
  ++ (if nao_vazio (numero e) then [numero e] else [])
  ++ (if nao_vazio (complemento e) then [complemento e] else [])
  ++ (if nao_vazio (bairro e) then [bairro e] else [])
  ++ (if nao_vazio (cep e) && (length (cep e) =? 8)%nat
      then [py "CEP " ++ firstn 5 (cep e) ++ py "-" ++ skipn 5 (cep e)]
      else if nao_vazio (cep e) then [cep e] else [])
  ++ (if nao_vazio (municipio e) then [municipio e ++ py "/" ++ uf e] else []).

Definition formatado (e : EnderecoEstruturado) : str :=
  str_join (py " - ") (formatado_partes e).

End Formatado.

(** ** gestor_enderecos.py: [_normalizar_processo] *)

Module PatProcesso.
Local Open Scope string_scope.
Definition ESPACO := re_compile (py "\s").
Definition TC := re_compile (py "TC[/,]?(\d{6})[/,]?(\d{4})").
End PatProcesso.

(** [f"{m.group(n)}"]: a group that took no part in the match is written
    as the word None. *)
Definition fmt_group (s : str) (m : re_match) (n : nat) : str :=
  match m_group s m n with
  | Some g => g
  | None => py "None"
  end.

Definition _normalizar_processo (db : unicode_db) (txt0 : str) : str :=
  let txt := re_sub db NOFLAGS txt0 PatProcesso.ESPACO [] in
  match re_search db IGNORECASE txt PatProcesso.TC with
  | Some m => py "TC/" ++ fmt_group txt m 1 ++ py "/" ++ fmt_group txt m 2
  | None => str_strip db txt
  end.

(** ** gestor_enderecos.py: [parsear_enderecos_coluna] *)

Module Coluna.

Definition re_num := re_compile (py "^(\d+)\s*[-.)|\s]\s*(.+)").

(** The dictionary [mapa] and the two variables that the loop and
    [_salvar] share. *)
Record t := {
  mapa : gmap Z str;
  num_atual : option Z;
  acumulo : list str;
}.

Definition inicial : t := {| mapa := ∅; num_atual := None; acumulo := [] |}.

(** [if num_atual is not None and acumulo: mapa[num_atual] = ' '.join(acumulo)] *)
Definition _salvar (st : t) : gmap Z str :=
  match num_atual st, acumulo st with
  | Some n, _ :: _ => <[ n := str_join (py " ") (acumulo st) ]> (mapa st)
  | _, _ => mapa st
  end.

Section Passo.
Variable db : unicode_db.

(** The body of [for linha in linhas]. *)
Definition passo_linha (st : t) (linha0 : str) : result t :=
  let linha := str_strip db linha0 in
  match linha with
  | [] => Ok st
  | _ =>
      match re_match_start db IGNORECASE linha re_num with
      | Some m =>
          let salvo := _salvar st in
          n ← match m_group linha m 1 with
              | Some g1 => py_int db g1
              | None => Raise TypeError
              end;
          g2 ← group linha m 2;
          Ok {| mapa := salvo; num_atual := Some n;
                acumulo := [str_strip db g2] |}
      | None =>
          match num_atual st with
          | Some _ =>
              Ok {| mapa := mapa st; num_atual := num_atual st;
                    acumulo := acumulo st ++ [linha] |}
          | None =>
              Ok {| mapa := mapa st; num_atual := Some 1%Z;
                    acumulo := [linha] |}
          end
      end
  end.

End Passo.
End Coluna.

Definition parsear_enderecos_coluna (db : unicode_db) (enderecos_texto : str)
  : result (gmap Z str) :=
  st ← foldM (Coluna.passo_linha db) (str_splitlines enderecos_texto)
        Coluna.inicial;
  let mapa := Coluna._salvar st in
  Ok (if bool_decide (mapa = ∅) && nao_vazio (str_strip db enderecos_texto)
      then <[ 1%Z := str_join (py " ") (str_splitlines enderecos_texto) ]> mapa
      else mapa).

(** ** enviador_peticao.py: [valor_float] and [_esc] *)

(** [x or d] for a value that is a string or [None]. *)
Definition ou (x : option str) (d : str) : str :=
  match x with
  | Some (c :: t) => c :: t
  | _ => d
  end.

(** The normalisation is the one of [gerar_valor_extenso]; [None] and the
    empty string are read as "0". *)
Definition valor_float (db : unicode_db) (valor_str : option str)
  : result spec_float :=
  match py_float db (limpar_valor db (ou valor_str (py "0"))) with
  | Raise ValueError => Ok (S754_zero false)
  | r => r
  end.

Definition aspas : str := [34].

Definition _esc (s : option str) : str :=
  str_replace 34 (py "&quot;")
    (str_replace 62 (py "&gt;")
       (str_replace 60 (py "&lt;")
          (str_replace 38 (py "&amp;") (ou s [])))).

(** ** enviador_peticao.py: [_buscar_endereco] *)

(** A row of the table [enderecos_responsavel]; a column that is NULL
    reads as [None]. *)
Module Linha.
Record t := {
  tipo_logradouro : option str;
  logradouro : option str;
  numero : option str;
  complemento : option str;
  bairro : option str;
  cep : option str;
  municipio : option str;
  uf : option str;
  pais : option str;
}.
End Linha.

(** Of the connection, what [_buscar_endereco] asks it: the row that
    [fetchone] returns for
    [SELECT * FROM enderecos_responsavel WHERE numero_doc=? LIMIT 1]. *)
Record Connection := {
  endereco_por_doc : str -> option Linha.t;
}.

(** The dictionary that [_buscar_endereco] returns. *)
Module EndPJe.
Record t := {
  cep : str;
  logradouro : str;
  numero : str;
  complemento : str;
  bairro : str;
  cidade : str;
  uf : str;
  pais : str;
}.
End EndPJe.

Section BuscarEndereco.
Variable db : unicode_db.

Definition sem_hifen_nem_espaco (s : str) : str :=
  str_replace 32 [] (str_replace 45 [] s).

Definition endereco_da_linha (row : Linha.t) : EndPJe.t := {|
  EndPJe.cep := ou (Some (sem_hifen_nem_espaco (ou (Linha.cep row) [])))
                   (py "00000000");
  EndPJe.logradouro :=
    str_strip db (ou (Linha.tipo_logradouro row) [] ++ py " "
                  ++ ou (Linha.logradouro row) []);
  EndPJe.numero := ou (Linha.numero row) (py "S/N");
  EndPJe.complemento := ou (Linha.complemento row) [];
  EndPJe.bairro := ou (Linha.bairro row) [];
  EndPJe.cidade := ou (Linha.municipio row) [];
  EndPJe.uf := ou (Linha.uf row) (py "PI");
  EndPJe.pais := ou (Linha.pais row) (py "BR") |}.

Definition endereco_do_texto (e : EnderecoEstruturado) : EndPJe.t := {|
  EndPJe.cep := ou (Some (sem_hifen_nem_espaco (ou (Some (cep e)) [])))
                   (py "00000000");
  EndPJe.logradouro := str_strip db (tipo_logradouro e ++ py " " ++ logradouro e);
  EndPJe.numero := ou (Some (numero e)) (py "S/N");
  EndPJe.complemento := ou (Some (complemento e)) [];
  EndPJe.bairro := ou (Some (bairro e)) [];
  EndPJe.cidade := ou (Some (municipio e)) [];
  EndPJe.uf := ou (Some (uf e)) (py "PI");
  EndPJe.pais := ou (Some (pais e)) (py "BR") |}.

Definition endereco_nao_informado : EndPJe.t := {|
  EndPJe.cep := py "00000000";
  EndPJe.logradouro := py "ENDERECO NAO INFORMADO";
  EndPJe.numero := py "SN";
  EndPJe.complemento := [];
  EndPJe.bairro := [];
  EndPJe.cidade := [];
  EndPJe.uf := py "PI";
  EndPJe.pais := py "BR" |}.

(** The second half of [_buscar_endereco]: the free text, parsed inside
    [try ... except Exception: pass]. *)
Definition endereco_por_texto (endereco_texto : str) : EndPJe.t :=
  if nao_vazio endereco_texto && nao_vazio (str_strip db endereco_texto) then
    match parsear_endereco db endereco_texto with
    | Ok e => endereco_do_texto e
    | Raise _ => endereco_nao_informado
    end
  else endereco_nao_informado.

Definition _buscar_endereco (conn : Connection)
    (numero_doc endereco_texto : str) : EndPJe.t :=
  match numero_doc with
  | _ :: _ =>
      match endereco_por_doc conn numero_doc with
      | Some row =>
          if nao_vazio (ou (Linha.logradouro row) [])
          then endereco_da_linha row
          else endereco_por_texto endereco_texto
      | None => endereco_por_texto endereco_texto
      end
  | [] => endereco_por_texto endereco_texto
  end.

End BuscarEndereco.

(** ** enviador_peticao.py: [_bloco_polo_passivo] *)

(** The dictionaries of [responsaveis]: rows of the query of the window,
    whose columns may be NULL. *)
Module Resp.
Record t := {
  nome : option str;
  tipo_doc : option str;
  numero_doc : option str;
  endereco : option str;
}.
End Resp.

Module PatEnvio.
Definition PONTUACAO_DOC := re_compile (py "[.\-/]").
End PatEnvio.

Section BlocoPoloPassivo.
Variable db : unicode_db.

(** [doc_limpo = re.sub(r"[.\-/]", "", num_doc)] *)
Definition doc_limpo (num_doc : str) : str :=
  re_sub db NOFLAGS num_doc PatEnvio.PONTUACAO_DOC [].

(** The lines of the block of one party, without the line break that
    opens the block. *)
Definition linhas_do_bloco (nome doc tipo_pessoa tipo_doc_pje : str)
    (ende : EndPJe.t) : list str :=
    [ py "                <int:parte assistenciaJudiciaria=" ++ aspas
       ++ py "1" ++ aspas ++ py " intimacaoPendente=" ++ aspas ++ py "1"
       ++ aspas ++ py " relacionamentoProcessual=" ++ aspas ++ py "1" ++ aspas
       ++ py ">";
      py "                    <int:pessoa nome=" ++ aspas ++ nome ++ aspas
       ++ py " numeroDocumentoPrincipal=" ++ aspas ++ doc ++ aspas
       ++ py " tipoPessoa=" ++ aspas ++ tipo_pessoa ++ aspas ++ py ">";
      py "                        <int:outroNome>?</int:outroNome>";
      py "                        <int:documento codigoDocumento=" ++ aspas
       ++ doc ++ aspas ++ py " emissorDocumento=" ++ aspas ++ py "MF" ++ aspas
       ++ py " tipoDocumento=" ++ aspas ++ tipo_doc_pje ++ aspas ++ py " nome="
       ++ aspas ++ nome ++ aspas ++ py "/>";
      py "                        <int:endereco cep=" ++ aspas
       ++ EndPJe.cep ende ++ aspas ++ py ">";
      py "                            <int:logradouro>"
       ++ _esc (Some (EndPJe.logradouro ende)) ++ py "</int:logradouro>";
      py "                            <int:numero>"
       ++ _esc (Some (EndPJe.numero ende)) ++ py "</int:numero>";
      py "                            <int:complemento>"
       ++ _esc (Some (EndPJe.complemento ende)) ++ py "</int:complemento>";
      py "                            <int:bairro>"
       ++ _esc (Some (EndPJe.bairro ende)) ++ py "</int:bairro>";
      py "                            <int:cidade>"
       ++ _esc (Some (EndPJe.cidade ende)) ++ py "</int:cidade>";
      py "                            <int:estado>"
       ++ _esc (Some (EndPJe.uf ende)) ++ py "</int:estado>";
      py "                            <int:pais>"
       ++ _esc (Some (EndPJe.pais ende)) ++ py "</int:pais>";
      py "                        </int:endereco>";
      py "                    </int:pessoa>";
      py "                </int:parte>" ].

(** The block appended for one party; [resp["nome"].replace] raises when
    the name is [None]. *)
Definition bloco_da_parte (conn : Connection) (resp : Resp.t) : result str :=
  match Resp.nome resp with
  | None => Raise AttributeError
  | Some n =>
      let nome := _esc (Some (str_replace 38 (py "E") n)) in
      let num_doc := ou (Resp.numero_doc resp) [] in
      let tipo_doc := str_upper db (ou (Resp.tipo_doc resp) (py "CPF")) in
      let doc := doc_limpo num_doc in
      let tipo_pessoa :=
        if str_eqb tipo_doc (py "CNPJ") then py "juridica" else py "fisica" in
      let tipo_doc_pje := py "CMF" in
      let ende := _buscar_endereco db conn num_doc (ou (Resp.endereco resp) []) in
      Ok ([10] ++ str_join [10]
                    (linhas_do_bloco nome doc tipo_pessoa tipo_doc_pje ende))
  end.

Definition _bloco_polo_passivo (responsaveis : list Resp.t)
    (conn : Connection) : result str :=
  blocos ← foldM (fun blocos resp =>
                    b ← bloco_da_parte conn resp; Ok (blocos ++ [b]))
             responsaveis [];
  Ok (str_join [10] blocos).

End BlocoPoloPassivo.


(** ** Declarative reading of a pattern

    The matcher is related below to a relation that says what a pattern
    matches, with no reference to the order in which the matcher searches. *)


(** The capturing groups of a pattern and those that take part in every
    match of it. *)
Fixpoint groups (r : regex) : list (nat * regex) :=
  match r with
  | RSeq a b | RAlt a b => groups a ++ groups b
  | RRep _ _ _ a => groups a
  | RGroup n a => (n, a) :: groups a
  | _ => []
  end.

Fixpoint sure (r : regex) : list nat :=
  match r with
  | RSeq a b => sure a ++ sure b
  | RAlt a b => List.filter (fun n => existsb (Nat.eqb n) (sure b)) (sure a)
  | RRep _ lo _ a => match lo with O => [] | S _ => sure a end
  | RGroup n a => n :: sure a
  | _ => []
  end.

Definition within (hi : option nat) (n : nat) : Prop :=
  match hi with
  | Some h => (n <= h)%nat
  | None => True
  end.

(** [iter P n i j l]: [n] successive steps of [P] lead from [i] to [j],
    each consuming at least one character; [l] collects what the steps
    captured, the latest first. *)
Inductive iter (P : nat -> nat -> caps -> Prop) : nat -> nat -> nat -> caps -> Prop :=
| iter_0 i : iter P 0 i i []
| iter_S n i j k l1 l2 :
    P i j l1 -> (i < j)%nat -> iter P n j k l2 -> iter P (S n) i k (l2 ++ l1).

Section Declarative.
Variable db : unicode_db.
Variable fl : flags.
Variable s : str.

(** *** Declarative matching: [rmatch r i j] says that [r] matches the
    characters of [s] from position [i] up to position [j]. *)
Fixpoint rmatch (r : regex) (i j : nat) : Prop :=
  match r with
  | REmpty => j = i
  | RSet neg items =>
      exists ch, nth_error s i = Some ch
                 /\ set_match db fl neg items ch = true /\ j = S i
  | RAny =>
      exists ch, nth_error s i = Some ch
                 /\ any_match fl ch = true /\ j = S i
  | RSeq r1 r2 => exists m, rmatch r1 i m /\ rmatch r2 m j
  | RAlt r1 r2 => rmatch r1 i j \/ rmatch r2 i j
  | RRep _ lo hi r' =>
      exists n l, iter (fun a b _ => rmatch r' a b) n i j l
                  /\ (lo <= n)%nat /\ within hi n
  | RGroup _ r' => rmatch r' i j
  | RBol => i = O /\ j = i
  | REol => at_eol s i = true /\ j = i
  | RWordB => at_wordb db s i = true /\ j = i
  end.

(** A captured span is valid for [r] when it belongs to one of the groups
    of [r] and that group matches the span. *)
Definition cap_valid (r : regex) (e : nat * (nat * nat)) : Prop :=
  exists r', In (e.1, r') (groups r) /\ rmatch r' e.2.1 e.2.2.

Definition caps_ok (r : regex) (l : caps) : Prop :=
  Forall (cap_valid r) l /\ (forall n, In n (sure r) -> cap_get l n <> None).

Definition match_ok (r : regex) (m : re_match) : Prop :=
  rmatch r (m_start m) (m_end m) /\ caps_ok r (m_caps m).

End Declarative.

(** [r] matches somewhere in [s]. *)
Definition has_match (db : unicode_db) (fl : flags) (s : str) (r : regex)
  : Prop :=
  exists i j, (i <= length s)%nat /\ rmatch db fl s r i j.

(** The window of 700 characters after the match [m] holds no exclusion
    phrase. *)
Definition sem_frase_de_exclusao (db : unicode_db) (texto_flat : str)
    (m : re_match) : Prop :=
  let trecho_pos := slice texto_flat (m_end m) (m_end m + 700) in
  forall i j, (i <= length trecho_pos)%nat ->
              ~ rmatch db IGNORECASE trecho_pos Pat.EXCLUSAO i j.

(** Where an entry of a fallback tier comes from: a match among [l] whose
    following window holds no exclusion phrase. *)
Definition origem (db : unicode_db) (texto_flat : str) (l : list re_match)
    (r : Responsavel) : Prop :=
  exists m g3,
    In m l /\ group texto_flat m 3 = Ok g3
    /\ numero_doc r = str_strip db g3
    /\ sem_frase_de_exclusao db texto_flat m.

(** A string without decimal digits. *)
Definition sem_algarismos (s : str) : bool :=
  forallb (fun c => negb (Parse.ascii_digit c)) s.

(** A double that is zero, or finite and below [2 ^ B] in absolute value. *)
Definition magnitude_le (B : Z) (x : spec_float) : Prop :=
  match x with
  | S754_zero _ => True
  | S754_finite _ m e => (Zdigits2 (Z.pos m) + e <= B)%Z
  | _ => False
  end.


(** A double that, when finite, has the sign [sg]. *)
Definition sinal_de (sg : bool) (x : spec_float) : Prop :=
  match x with
  | S754_finite s _ _ => s = sg
  | _ => True
  end.

(** * Statements and scenarios used by the theorems *)

(** The state of the loops: the document numbers of the list are pairwise
    distinct and all recorded in [vistos]. *)
Definition sem_repeticao (st : estado) : Prop :=
  NoDup (map numero_doc st.2)
  /\ forall r, In r st.2 -> numero_doc r ∈ st.1.

(** [g] without the hyphens and dots. *)
Definition sem_pontuacao (g : str) : str :=
  List.filter (fun c => negb (char_in (py "-.") c)) g.

Module Exemplos.
Local Open Scope string_scope.

(** A certificate whose "CERTIFICO, ainda" paragraph names a party and
    then says that the party was excluded from the roll. *)
Definition certidao_com_exclusao : str :=
  py "CERTIFICO, ainda: JOAO DA SILVA (CPF: 123.456.789-00), excluído do rol.".

(** A certificate whose "CERTIFICO, ainda" paragraph names nobody; the
    party stands in the paragraph before it. *)
Definition certidao_sem_nomes : str :=
  py "JOAO DA SILVA (CPF: 123.456.789-00) deve. CERTIFICO, ainda, que o citado deve, apta a substituí-la.".

(** A certificate with three amounts, one of them labelled. *)
Definition certidao_com_rotulo : str :=
  py "Pagou R$ 1,00. Valor a restituir: R$ 1.234,56. Multa de R$ 9,99.".

(** A certificate with a process number, written with spaces, and the date
    of the amount. *)
Definition certidao_com_data : str :=
  py "Processo nº TC 012345 2020. Valor atualizado em: 05/03/2024. JOAO DA SILVA (CPF: 123.456.789-00) deve.".

(** A certificate whose party is followed by the number of a judgment
    with the suffix of the chamber. *)
Definition certidao_com_acordao : str :=
  py "JOAO DA SILVA (CPF: 123.456.789-00), conforme Acórdão nº 185/2023 - SPL, deve.".


End Exemplos.

(** The claim C1 as it is written: no occurrence [m] of a party in the text
    that is followed within 700 characters by an exclusion phrase has its
    document number in the list. *)
Definition exclusao_vale_em_todas_as_camadas (db : unicode_db) (texto : str)
  : Prop :=
  forall d m g3,
    extrair_dados_certidao db texto = Ok d ->
    In m (re_finditer db IGNORECASE (achatar db texto) Pat.padrao) ->
    excluido_apos db (achatar db texto) m = true ->
    group (achatar db texto) m 3 = Ok g3 ->
    ~ In (str_strip db g3) (map numero_doc (responsaveis d)).

Module Cenarios.
Local Open Scope string_scope.

(** The address of the parser's demonstration that starts with "MUCUNA". *)
Definition mucuna : str :=
  py "MUCUNA, S/N - CENTRO - CEP 64790-000 - DOM INOCENCIO/PI".

(** An address without postal code. *)
Definition sem_cep : str := py "RUA A, 10".

(** An address with a district before the postal code and another one
    before the city. *)
Definition dois_bairros : str :=
  py "RUA A, 10 - CENTRO - CEP 64000-000 - JOQUEI - TERESINA/PI".

(** A list of parties with a line that holds a document number only. *)
Definition partes : str :=
  (py "1 - JOAO DA SILVA (CPF: 123.456.789-00)" ++ [10]
   ++ py "152.308.643-20" ++ [10]
   ++ py "2 - MARIA OLIVEIRA (CPF 987.654.321-00)")%list.

(** A party without a document on its own line, followed by a line that
    holds a document number only. *)
Definition parte_e_documento : str :=
  (py "1 - JOAO DA SILVA" ++ [10] ++ py "152.308.643-20")%list.

(** A connection whose table of addresses is empty. *)
Definition sem_banco : Connection := {| endereco_por_doc := fun _ => None |}.

End Cenarios.

(** The claim C3 as it is written. *)
Definition mucuna_como_rua (db : unicode_db) : Prop :=
  exists e,
    parsear_endereco db Cenarios.mucuna = Ok e
    /\ tipo_logradouro e = py "RUA" /\ logradouro e = py "Mucuna"
    /\ numero e = py "S/N" /\ bairro e = py "Centro"
    /\ cep e = py "64790000" /\ municipio e = py "Dom Inocencio"
    /\ uf e = py "PI".

(** The claim C5 for an address without labelled postal code, as it is
    written: the field is the all-zeros sentinel. *)
Definition cep_ausente_vira_zeros (db : unicode_db) (endereco_bruto : str)
  : Prop :=
  forall e,
    parsear_endereco db endereco_bruto = Ok e ->
    ~ has_match db IGNORECASE (normalizar_endereco db endereco_bruto) PatEnd.CEP ->
    cep e = py "00000000".

(** The claim C6 as it is written: a district found by the hyphen stage
    prevails over the candidates of the city suffix. *)
Definition bairro_posterior_prevalece (db : unicode_db) (endereco_bruto : str)
  : Prop :=
  let original := normalizar_endereco db endereco_bruto in
  forall e1 o1 e2 o2 e,
    etapa_cidade db (endereco_novo original) original = Ok (e1, o1) ->
    etapa_cep db e1 o1 = Ok (e2, o2) ->
    parsear_endereco db endereco_bruto = Ok e ->
    bairro_candidatos db o2 <> [] ->
    bairro e
    = str_join (py " / ") (map (str_title db) (bairro_candidatos db o2)).

(** What [_esc] writes for one character. *)
Definition esc_char (c : N) : str :=
  if c =? 38 then py "&amp;"
  else if c =? 60 then py "&lt;"
  else if c =? 62 then py "&gt;"
  else if c =? 34 then py "&quot;"
  else [c].

(** The table [enderecos_responsavel] has no usable row for [numero_doc]:
    no row at all, or a row whose street is NULL or empty. *)
Definition sem_linha_util (conn : Connection) (numero_doc : str) : Prop :=
  forall row,
    endereco_por_doc conn numero_doc = Some row ->
    ou (Linha.logradouro row) [] = [].

(** The fields that no stage but its own touches. *)
Definition mesmos_fixos (e e' : EnderecoEstruturado) : Prop :=
  pais e' = pais e /\ endereco_original e' = endereco_original e.

(** The length of the longest prefix of [l] whose characters satisfy [p]. *)
Fixpoint corrida (p : N -> bool) (l : str) : nat :=
  match l with
  | c :: t => if p c then S (corrida p t) else O
  | [] => O
  end.

(** [l] with every maximal run of characters that satisfy [p] replaced by
    [rep]; [dentro] tells that the character before [l] was in a run. *)
Fixpoint colapsar_go (p : N -> bool) (rep : str) (dentro : bool) (l : str)
  : str :=
  match l with
  | [] => []
  | c :: t =>
      if p c then (if dentro then [] else rep) ++ colapsar_go p rep true t
      else c :: colapsar_go p rep false t
  end.

Definition colapsar (p : N -> bool) (rep l : str) : str :=
  colapsar_go p rep false l.

(** A text whose only white space is the space character, never two in a
    row. *)
Definition espacos_simples (db : unicode_db) (l : str) : Prop :=
  (forall c, In c l -> isspace db c = true -> c = 32)
  /\ (forall i, nth_error l i = Some 32 -> nth_error l (S i) <> Some 32).

(** The length of the match, at the start of [l], of one character that
    satisfies [p], and of a greedy run of such characters. *)
Definition passo_um (p : N -> bool) (l : str) : option nat :=
  match l with
  | c :: _ => if p c then Some 1%nat else None
  | [] => None
  end.

Definition passo_corrida (p : N -> bool) (l : str) : option nat :=
  match corrida p l with
  | O => None
  | S n => Some (S n)
  end.

(** The loop has stored something to save: a part number and at least one
    piece of text. *)
Definition cheio (st : Coluna.t) : Prop :=
  Coluna.num_atual st <> None /\ Coluna.acumulo st <> [].

(** A document number and its type go together: the type is "CPF" or
    "CNPJ", or both are empty. *)
Definition par_doc_ok (doc tdoc : str) : Prop :=
  tdoc = py "CPF" \/ tdoc = py "CNPJ" \/ (tdoc = [] /\ doc = []).

Definition parte_ok (p : Parte.t) : Prop :=
  par_doc_ok (Parte.cpf_cnpj p) (Parte.tipo_doc p).

(** The document number of a part: its characters are decimal digits, dots,
    slashes and hyphens, none of them white space. *)
Definition doc_sem_espacos (db : unicode_db) (doc : str) : Prop :=
  Forall (fun c => (isdecimal db c = true \/ c = 46 \/ c = 47 \/ c = 45)
                   /\ isspace db c = false) doc.

(** [acc_inv Q st]: the pending document of the loop of [parsear_partes]
    and the documents of the parts already saved satisfy [Q]. *)
Definition acc_inv (Q : str -> str -> Prop) (st : Acc.t) : Prop :=
  Q (Acc.doc_atual st) (Acc.tipo_doc st)
  /\ Forall (fun p => Q (Parte.cpf_cnpj p) (Parte.tipo_doc p)) (Acc.partes st).

(** The characters of a document number: decimal digits, dot, slash and
    hyphen. *)
Definition char_doc (db : unicode_db) (c : N) : Prop :=
  isdecimal db c = true \/ c = 46 \/ c = 47 \/ c = 45.

Definition doc_bem_formado (db : unicode_db) (r : Responsavel) : Prop :=
  Forall (char_doc db) (numero_doc r).

(** A date written as two digits, a slash, two digits, a slash and four
    digits. *)
Definition forma_de_data (db : unicode_db) (g : str) : Prop :=
  exists dd mm aaaa,
    g = dd ++ py "/" ++ mm ++ py "/" ++ aaaa
    /\ length dd = 2%nat /\ length mm = 2%nat /\ length aaaa = 4%nat
    /\ Forall (fun c => isdecimal db c = true) (dd ++ mm ++ aaaa).

(** The characters of an amount: decimal digits, dot and comma. *)
Definition char_valor (db : unicode_db) (c : N) : Prop :=
  isdecimal db c = true \/ c = 46 \/ c = 44.

(** [alfabeto db fl P r]: every character that a character class of [r]
    accepts satisfies [P]. *)
Fixpoint alfabeto (db : unicode_db) (fl : flags) (P : N -> Prop) (r : regex)
  : Prop :=
  match r with
  | RSet neg items => forall c, set_match db fl neg items c = true -> P c
  | RAny => forall c, any_match fl c = true -> P c
  | RSeq a b | RAlt a b => alfabeto db fl P a /\ alfabeto db fl P b
  | RRep _ _ _ a | RGroup _ a => alfabeto db fl P a
  | _ => True
  end.

(** [re.sub] written without the matcher, for a pattern whose match at a
    position is decided by the text that starts there: [stepl l] is the
    length of the match at the start of [l], and [rep] replaces it. *)
Fixpoint trocar (rep : str) (stepl : str -> option nat) (fuel : nat)
    (l : str) : str :=
  match fuel with
  | O => []
  | S f =>
      match stepl l with
      | Some n => rep ++ trocar rep stepl f (skipn n l)
      | None =>
          match l with
          | c :: t => c :: trocar rep stepl f t
          | [] => []
          end
      end
  end.

(** The characters of the number of a judgment: decimal digits and the
    slash. *)
Definition char_acordao (db : unicode_db) (c : N) : Prop :=
  isdecimal db c = true \/ c = 47.

Definition acordao_bem_formado (db : unicode_db) (r : Responsavel) : Prop :=
  match acordao r with
  | Some a => Forall (char_acordao db) a
  | None => True
  end.

(** The claim C9 as it is written: when [float] refuses what is left of
    the string, the string comes back as it was given, and what comes back
    is not the phrase "zero reais". *)
Definition recusado_nunca_e_zero_reais (db : unicode_db) : Prop :=
  forall valor_str e,
    py_float db (limpar_valor db valor_str) = Raise e ->
    gerar_valor_extenso db valor_str = Ok valor_str
    /\ gerar_valor_extenso db valor_str <> Ok (py "zero reais").


(** ** The district candidates of [parsear_endereco]

    What each stage of the parser would write in the district field, and
    the text each stage leaves to the next, as the source computes them. *)
Section CandidatosDeBairro.
Variable db : unicode_db.

(** [bairros_cid = partes_cidade[:-1]], joined as the first stage joins
    them; empty when the text has no city suffix or the suffix has no
    segment before the municipality. *)
Definition bairros_cid (original : str) : list str :=
  match re_search db IGNORECASE original PatEnd.CIDADE_UF with
  | Some m_cidade =>
      let cidade_raw := str_strip db (group_or_empty original m_cidade 1) in
      removelast
        (segmentos_limpos db (re_split db NOFLAGS cidade_raw PatEnd.HIFEN))
  | None => []
  end.

Definition bairro_da_cidade (original : str) : str :=
  match bairros_cid original with
  | [] => []
  | l => str_join (py " / ") (map (str_title db) l)
  end.

(** [original[:m_cidade.start()].rstrip(' -,')] *)
Definition resto_cidade (original : str) : str :=
  match re_search db IGNORECASE original PatEnd.CIDADE_UF with
  | Some m_cidade =>
      str_rstrip_chars (py " -,") (slice original 0 (m_start m_cidade))
  | None => original
  end.

(** [bairro_pos = [s for s in segs if '/' not in s]], from the text after
    the postal code. *)
Definition bairro_pos (original : str) : list str :=
  match re_search db IGNORECASE original PatEnd.CEP with
  | Some m_cep =>
      match str_strip_chars (py " -,")
              (slice original (m_end m_cep) (length original)) with
      | [] => []
      | trecho_apos =>
          List.filter (fun s => negb (char_in s 47))
            (segmentos_limpos db (str_split (py " - ") trecho_apos))
      end
  | None => []
  end.

Definition bairro_apos_cep (original : str) : str :=
  match bairro_pos original with
  | [] => []
  | l => str_title db (str_join (py " / ") l)
  end.

(** [original[:m_cep.start()].rstrip(' -,')] *)
Definition resto_cep (original : str) : str :=
  match re_search db IGNORECASE original PatEnd.CEP with
  | Some m_cep =>
      str_rstrip_chars (py " -,") (slice original 0 (m_start m_cep))
  | None => original
  end.

Definition bairro_dos_hifens (original : str) : str :=
  match bairro_candidatos db original with
  | [] => []
  | l => str_join (py " / ") (map (str_title db) l)
  end.

End CandidatosDeBairro.

(** The first string of a list that is not empty. *)
Fixpoint primeiro_nao_vazio (l : list str) : str :=
  match l with
  | [] => []
  | [] :: t => primeiro_nao_vazio t
  | x :: _ => x
  end.

(** ** Numerals written in words

    The reading of a Portuguese numeral: what the claim C10 calls "rendered
    in words" is a text that this reading turns back into the number. *)
Module Numeral.
Local Open Scope Z_scope.









End Numeral.



(** ** Characters that a pattern cannot tell apart *)

(** [mesma_classe db fl r c c']: every character test of [r] gives the
    same answer for [c] and for [c']. *)
Fixpoint mesma_classe (db : unicode_db) (fl : flags) (r : regex) (c c' : N)
  : bool :=
  match r with
  | RSet neg items =>
      Bool.eqb (set_match db fl neg items c) (set_match db fl neg items c')
  | RAny => Bool.eqb (any_match fl c) (any_match fl c')
  | RSeq a b | RAlt a b =>
      mesma_classe db fl a c c' && mesma_classe db fl b c c'
  | RRep _ _ _ a | RGroup _ a => mesma_classe db fl a c c'
  | REol => Bool.eqb (c =? 10) (c' =? 10)
  | RWordB => Bool.eqb (isword db c) (isword db c')
  | REmpty | RBol => true
  end.

(** ** Lines that are a tax number and nothing else *)

(** An ASCII digit. *)
Definition algarismo (c : N) : Prop := (48 <= c <= 57)%N.

(** ddd.ddd.ddd-dd *)
Definition forma_cpf (l : str) : Prop :=
  exists a b c d,
    l = a ++ py "." ++ b ++ py "." ++ c ++ py "-" ++ d
    /\ length a = 3%nat /\ length b = 3%nat /\ length c = 3%nat
    /\ length d = 2%nat
    /\ Forall algarismo (a ++ b ++ c ++ d).

(** dd.ddd.ddd/dddd-dd *)
Definition forma_cnpj (l : str) : Prop :=
  exists a b c d e,
    l = a ++ py "." ++ b ++ py "." ++ c ++ py "/" ++ d ++ py "-" ++ e
    /\ length a = 2%nat /\ length b = 3%nat /\ length c = 3%nat
    /\ length d = 4%nat /\ length e = 2%nat
    /\ Forall algarismo (a ++ b ++ c ++ d ++ e).

(** The tax numbers whose digits are all zero. *)
Definition cpf_zeros : str := py "000.000.000-00".
Definition cnpj_zeros : str := py "00.000.000/0000-00".

(** * Properties of the matcher *)

Lemma cap_get_app (a b : caps) (n : nat) :
  cap_get (a ++ b) n =
  match cap_get a n with Some x => Some x | None => cap_get b n end.
Proof.
  induction a as [|[n' sp] a IH]; simpl; [done|].
  destruct (n' =? n)%nat; done.
Qed.

Lemma cap_get_In (c : caps) (n : nat) (sp : nat * nat) :
  cap_get c n = Some sp -> In (n, sp) c.
Proof.
  induction c as [|[n' sp'] c IH]; simpl; [done|].
  destruct (Nat.eqb_spec n' n) as [->|]; [intros [= ->]; by left | auto].
Qed.

Lemma below_within hi cnt : below hi cnt = true -> within hi (S cnt).
Proof.
  destruct hi as [h|]; simpl; [|done].
  intros H%Nat.ltb_lt. lia.
Qed.

(** Splits the conclusion of the soundness lemma into the declarative
    match, the validity of the spans, the sure groups and the continuation. *)
Ltac give_match j l :=
  exists j, l; split; [| split; [split|]].

Section EngineFacts.
Variable db : unicode_db.
Variable fl : flags.
Variable s : str.

Local Abbreviation rmatch := (rmatch db fl s).
Local Abbreviation cap_valid := (cap_valid db fl s).
Local Abbreviation caps_ok := (caps_ok db fl s).
Local Abbreviation match_ok := (match_ok db fl s).

Lemma cap_valid_mono (r r' : regex) e :
  (forall x, In x (groups r) -> In x (groups r')) ->
  cap_valid r e -> cap_valid r' e.
Proof. intros Hsub (g & Hin & Hm). exists g. auto. Qed.

Lemma caps_valid_mono (r r' : regex) (l : caps) :
  (forall x, In x (groups r) -> In x (groups r')) ->
  Forall (cap_valid r) l -> Forall (cap_valid r') l.
Proof.
  intros Hsub Hl. eapply Forall_impl; [exact Hl|].
  intros e. by apply cap_valid_mono.
Qed.

(** *** Soundness of the loop of a repetition *)
Lemma rep_loop_sound (body : nat -> caps -> cont -> result_t)
    (P : nat -> nat -> caps -> Prop) greedy lo hi k :
  (forall i c k' res, body i c k' = Some res ->
     exists j l, P i j l /\ k' j (l ++ c) = Some res) ->
  forall fuel cnt i c res,
    within hi cnt ->
    rep_loop body greedy lo hi k fuel cnt i c = Some res ->
    exists n j l, iter P n i j l /\ (lo <= cnt + n)%nat
                  /\ within hi (cnt + n) /\ k j (l ++ c) = Some res.
Proof.
  intros Hbody. induction fuel as [|f IH]; intros cnt i c res Hcnt; [done|].
  simpl.
  match goal with
  | |- context [if below hi cnt then ?x else None] =>
      set (more := if below hi cnt then x else None)
  end.
  set (stop := if (lo <=? cnt)%nat then k i c else None).
  assert (Hstop : stop = Some res ->
                  exists n j l, iter P n i j l /\ (lo <= cnt + n)%nat
                    /\ within hi (cnt + n) /\ k j (l ++ c) = Some res).
  { subst stop. destruct (Nat.leb_spec lo cnt); [|done]. intros Hk.
    exists O, i, []. rewrite Nat.add_0_r. repeat split; auto. constructor. }
  assert (Hmore : more = Some res ->
    exists n j l, iter P n i j l /\ (lo <= cnt + n)%nat
                  /\ within hi (cnt + n) /\ k j (l ++ c) = Some res).
  { subst more. destruct (below hi cnt) eqn:Hb; [|done]. intros Hm.
    apply Hbody in Hm as (j & l1 & HP & Hk).
    destruct (Nat.ltb_spec i j); [|done].
    apply IH in Hk as (n & j' & l2 & Hit & Hlo & Hhi & Hk);
      [|by apply below_within].
    exists (S n), j', (l2 ++ l1). rewrite <- app_assoc.
    replace (cnt + S n)%nat with (S cnt + n)%nat by lia.
    repeat split; auto. econstructor; eauto. }
  clearbody more stop.
  destruct greedy.
  - destruct more; [intros [= <-]; by apply Hmore | apply Hstop].
  - destruct stop; [intros [= <-]; by apply Hstop | apply Hmore].
Qed.

Lemma iter_caps_ok (r : regex) n i j l :
  iter (fun a b l' => rmatch r a b /\ caps_ok r l') n i j l ->
  iter (fun a b _ => rmatch r a b) n i j l
  /\ Forall (cap_valid r) l
  /\ (n <> O -> forall g, In g (sure r) -> cap_get l g <> None).
Proof.
  induction 1 as [|n i j k l1 l2 [Hm [Hv Hs]] Hlt _ (IH1 & IH2 & IH3)].
  - repeat split; [constructor | constructor | done].
  - repeat split.
    + econstructor; eauto.
    + apply Forall_app; auto.
    + intros _ g Hg. rewrite cap_get_app.
      destruct (cap_get l2 g); [done | by apply Hs].
Qed.

(** *** Soundness of the matcher: a successful run follows a declarative
    match, passes to its continuation the spans of the groups it went
    through, all valid, and every group of [sure r] is among them. *)
Lemma exec_sound (r : regex) :
  forall i c k res,
    exec db fl s r i c k = Some res ->
    exists j l, rmatch r i j /\ caps_ok r l /\ k j (l ++ c) = Some res.
Proof.
  induction r as [ | neg items | | r1 IH1 r2 IH2 | r1 IH1 r2 IH2
                 | greedy lo hi r' IH | n r' IH | | | ];
    intros i c k res Hex;
    [ simpl in Hex .. | | simpl in Hex | simpl in Hex | simpl in Hex | simpl in Hex ];
    [ | | | | | change (rep_loop (exec db fl s r') greedy lo hi k
                         (S (length s)) 0 i c = Some res) in Hex | | | | ].
  - give_match i (@nil (nat * (nat * nat))); by try constructor.
  - destruct (nth_error s i) as [ch|] eqn:Hn; [|done].
    destruct (set_match db fl neg items ch) eqn:Hs; [|done].
    give_match (S i) (@nil (nat * (nat * nat)));
      [by exists ch | constructor | done | done].
  - destruct (nth_error s i) as [ch|] eqn:Hn; [|done].
    destruct (any_match fl ch) eqn:Hs; [|done].
    give_match (S i) (@nil (nat * (nat * nat)));
      [by exists ch | constructor | done | done].
  - apply IH1 in Hex as (j1 & l1 & Hm1 & [Hv1 Hs1] & Hex).
    apply IH2 in Hex as (j & l2 & Hm2 & [Hv2 Hs2] & Hk).
    give_match j (l2 ++ l1).
    + by exists j1.
    + apply Forall_app. split.
      * eapply caps_valid_mono; [|exact Hv2]. intros x Hx. simpl. apply in_or_app. by right.
      * eapply caps_valid_mono; [|exact Hv1]. intros x Hx. simpl. apply in_or_app. by left.
    + intros g Hg. simpl in Hg. rewrite cap_get_app.
      apply in_app_or in Hg as [Hg|Hg].
      * destruct (cap_get l2 g); [done | by apply Hs1].
      * specialize (Hs2 g Hg). by destruct (cap_get l2 g).
    + by rewrite <- app_assoc.
  - destruct (exec db fl s r1 i c k) as [x|] eqn:E1.
    + injection Hex as ->.
      apply IH1 in E1 as (j & l & Hm & [Hv Hs] & Hk).
      give_match j l; [by left | | | done].
      * eapply caps_valid_mono; [|exact Hv]. intros x Hx. simpl. apply in_or_app. by left.
      * intros g Hg. simpl in Hg. apply filter_In in Hg as [Hg _]. auto.
    + apply IH2 in Hex as (j & l & Hm & [Hv Hs] & Hk).
      give_match j l; [by right | | | done].
      * eapply caps_valid_mono; [|exact Hv]. intros x Hx. simpl. apply in_or_app. by right.
      * intros g Hg. simpl in Hg. apply filter_In in Hg as [_ Hg].
        apply existsb_exists in Hg as (g' & Hg' & ->%Nat.eqb_eq). auto.
  - eapply (rep_loop_sound _ (fun a b l' => rmatch r' a b /\ caps_ok r' l'))
      in Hex as (n & j & l & Hit & Hlo & Hhi & Hk).
    + apply iter_caps_ok in Hit as (Hit & Hv & Hs).
      give_match j l; [by exists n, l | done | | done].
      intros g Hg. simpl in Hg. destruct lo; [done|].
      apply Hs; [lia | done].
    + intros i' c' k' res' Hb. apply IH in Hb as (j & l & ? & ? & ?).
      exists j, l. auto.
    + destruct hi; simpl; [lia | done].
  - apply IH in Hex as (j & l & Hm & [Hv Hs] & Hk).
    give_match j ((n, (i, j)) :: l); [done | | | done].
    + constructor.
      * exists r'. simpl. auto.
      * eapply caps_valid_mono; [|exact Hv]. intros x Hx. simpl. by right.
    + intros g Hg. simpl in *. destruct (Nat.eqb_spec n g); [done|].
      destruct Hg as [->|Hg]; [done | by apply Hs].
  - destruct i; [|done].
    give_match O (@nil (nat * (nat * nat))); by try constructor.
  - destruct (at_eol s i) eqn:E; [|done].
    give_match i (@nil (nat * (nat * nat))); by try constructor.
  - destruct (at_wordb db s i) eqn:E; [|done].
    give_match i (@nil (nat * (nat * nat))); by try constructor.
Qed.

(** *** Completeness: where a declarative match exists the matcher finds
    some match, whatever the captures. *)

Lemma rmatch_bounds (r : regex) :
  forall i j, rmatch r i j -> (i <= j)%nat /\ ((i < j)%nat -> (j <= length s)%nat).
Proof.
  induction r as [ | neg items | | r1 IH1 r2 IH2 | r1 IH1 r2 IH2
                 | greedy lo hi r' IH | n r' IH | | | ];
    intros i j Hm; simpl in Hm.
  - lia.
  - destruct Hm as (ch & Hn & _ & ->).
    assert (i < length s)%nat by (apply nth_error_Some; congruence). lia.
  - destruct Hm as (ch & Hn & _ & ->).
    assert (i < length s)%nat by (apply nth_error_Some; congruence). lia.
  - destruct Hm as (m & H1%IH1 & H2%IH2). lia.
  - destruct Hm as [H%IH1 | H%IH2]; lia.
  - destruct Hm as (n & l & Hit & _).
    clear -Hit IH. induction Hit as [|n i j k l1 l2 H%IH Hlt _ IHit]; lia.
  - by apply IH.
  - lia.
  - lia.
  - lia.
Qed.

Lemma iter_count (r : regex) n i j l :
  iter (fun a b _ => rmatch r a b) n i j l ->
  (i + n <= j)%nat /\ (n <> O -> (j <= length s)%nat).
Proof.
  induction 1 as [|n i j k l1 l2 H%rmatch_bounds Hlt Hit IH]; [lia|].
  destruct n; [inversion Hit; subst|]; lia.
Qed.

Lemma rep_loop_complete (body : nat -> caps -> cont -> result_t)
    (R : nat -> nat -> Prop) greedy lo hi k :
  (forall i j, R i j -> forall c k',
      (forall c', k' j c' <> None) -> body i c k' <> None) ->
  forall n i j l,
    iter (fun a b _ => R a b) n i j l ->
    forall fuel cnt c,
      (n < fuel)%nat -> (lo <= cnt + n)%nat -> within hi (cnt + n) ->
      (forall c', k j c' <> None) ->
      rep_loop body greedy lo hi k fuel cnt i c <> None.
Proof.
  intros Hbody n i j l Hit.
  induction Hit as [i | n i j j' l1 l2 HR Hlt Hit IH];
    intros fuel cnt c Hfuel Hlo Hhi Hk;
    (destruct fuel as [|f]; [lia|]); simpl.
  - rewrite Nat.add_0_r in Hlo.
    apply Nat.leb_le in Hlo. rewrite Hlo.
    specialize (Hk c).
    destruct greedy; [|by destruct (k i c)].
    match goal with
    | |- match ?x with _ => _ end <> None => destruct x
    end; [done | by destruct (k i c)].
  - assert (Hb : below hi cnt = true).
    { destruct hi as [h|]; simpl in *; [apply Nat.ltb_lt; lia | done]. }
    rewrite Hb.
    match goal with
    | |- context [body i c ?K] =>
        assert (Hm : body i c K <> None); [|destruct (body i c K); [|done]]
    end.
    { eapply Hbody; [exact HR|]. intros c'.
      apply Nat.ltb_lt in Hlt. rewrite Hlt.
      apply IH; [lia | lia | | done].
      by replace (S cnt + n)%nat with (cnt + S n)%nat by lia. }
    destruct greedy; [done|].
    match goal with
    | |- match ?x with _ => _ end <> None => by destruct x
    end.
Qed.

Lemma exec_complete (r : regex) :
  forall i j, rmatch r i j ->
  forall c k, (forall c', k j c' <> None) -> exec db fl s r i c k <> None.
Proof.
  induction r as [ | neg items | | r1 IH1 r2 IH2 | r1 IH1 r2 IH2
                 | greedy lo hi r' IH | n r' IH | | | ];
    intros i j Hm c k Hk; simpl in Hm.
  - subst j. simpl. apply Hk.
  - destruct Hm as (ch & Hn & Hs & ->). simpl. rewrite Hn, Hs. apply Hk.
  - destruct Hm as (ch & Hn & Hs & ->). simpl. rewrite Hn, Hs. apply Hk.
  - destruct Hm as (m & H1 & H2). simpl.
    eapply IH1; [exact H1|]. intros c'. by eapply IH2.
  - simpl. destruct Hm as [H|H].
    + pose proof (IH1 _ _ H c k Hk).
      by destruct (exec db fl s r1 i c k).
    + destruct (exec db fl s r1 i c k); [done|]. by eapply IH2.
  - destruct Hm as (n & l & Hit & Hlo & Hhi).
    change (rep_loop (exec db fl s r') greedy lo hi k (S (length s)) 0 i c
            <> None).
    eapply (rep_loop_complete _ (rmatch r')); eauto.
    apply iter_count in Hit. destruct n; lia.
  - simpl. eapply IH; [exact Hm|]. intros c'. apply Hk.
  - destruct Hm as [-> ->]. simpl. apply Hk.
  - destruct Hm as [H ->]. simpl. rewrite H. apply Hk.
  - destruct Hm as [H ->]. simpl. rewrite H. apply Hk.
Qed.

(** *** The functions of the module *)

Lemma match_at_sound r start adv m :
  match_at db fl s r start adv = Some m ->
  m_start m = start /\ match_ok r m.
Proof.
  unfold match_at.
  destruct (exec db fl s r start [] _) as [[j c]|] eqn:E; [|done].
  intros [= <-]. simpl.
  apply exec_sound in E as (j' & l & Hm & Hc & Hk).
  destruct (adv && (j' =? start)%nat); [done|].
  rewrite app_nil_r in Hk. injection Hk as <- <-.
  split; [done|]. by split.
Qed.

Lemma match_at_complete r start j :
  rmatch r start j -> match_at db fl s r start false <> None.
Proof.
  intros Hm. unfold match_at.
  eapply exec_complete with (c := []) (k := fun j c => Some (j, c)) in Hm;
    [|done].
  simpl. by destruct (exec db fl s r start [] _) as [[? ?]|].
Qed.

Lemma search_go_sound r n start adv m :
  search_go db fl s r n start adv = Some m ->
  match_ok r m /\ (start <= m_start m < start + n)%nat.
Proof.
  revert start adv. induction n as [|n IH]; intros start adv; [done|].
  simpl. destruct (match_at db fl s r start adv) as [m'|] eqn:E.
  - intros [= ->]. apply match_at_sound in E as [-> ?]. split; [done|lia].
  - intros [? ?]%IH. split; [done|lia].
Qed.

Lemma search_go_leftmost r n start m :
  search_go db fl s r n start false = Some m ->
  forall i j, (start <= i < m_start m)%nat -> ~ rmatch r i j.
Proof.
  revert start. induction n as [|n IH]; intros start; [done|].
  simpl. destruct (match_at db fl s r start false) as [m'|] eqn:E.
  - intros [= ->]. apply match_at_sound in E as [-> ?]. lia.
  - intros Hs i j Hi Hm.
    destruct (decide (i = start)) as [->|].
    + by apply match_at_complete in Hm.
    + eapply IH; [exact Hs| |exact Hm]. lia.
Qed.

Lemma search_go_none r n start :
  search_go db fl s r n start false = None ->
  forall i j, (start <= i < start + n)%nat -> ~ rmatch r i j.
Proof.
  revert start. induction n as [|n IH]; intros start; [intros; lia|].
  simpl. destruct (match_at db fl s r start false) as [m'|] eqn:E; [done|].
  intros Hs i j Hi Hm.
  destruct (decide (i = start)) as [->|].
  - by apply match_at_complete in Hm.
  - eapply IH; [exact Hs| |exact Hm]. lia.
Qed.

(** [re.search] returns the leftmost match, and [None] only when no
    position of the string starts a match. *)
Lemma re_search_sound r m :
  re_search db fl s r = Some m ->
  match_ok r m /\ (m_start m <= length s)%nat
  /\ forall i j, (i < m_start m)%nat -> ~ rmatch r i j.
Proof.
  unfold re_search, search_from. intros H. split; [|split].
  - by apply search_go_sound in H as [? _].
  - apply search_go_sound in H as [_ ?]. lia.
  - intros i j Hi. eapply search_go_leftmost; [exact H|lia].
Qed.

Lemma re_search_none r :
  re_search db fl s r = None ->
  forall i j, (i <= length s)%nat -> ~ rmatch r i j.
Proof.
  unfold re_search, search_from. intros H i j Hi.
  eapply search_go_none; [exact H|lia].
Qed.

Lemma re_match_start_sound r m :
  re_match_start db fl s r = Some m -> match_ok r m.
Proof. intros H. by apply match_at_sound in H as [_ ?]. Qed.

Lemma finditer_go_ok r fuel pos adv :
  Forall (match_ok r) (finditer_go db fl s r fuel pos adv).
Proof.
  revert pos adv. induction fuel as [|f IH]; intros pos adv; simpl;
    [constructor|].
  destruct (search_from db fl s r pos adv) as [m|] eqn:E; [|constructor].
  constructor; [|apply IH].
  unfold search_from in E. by apply search_go_sound in E as [? _].
Qed.

Lemma re_finditer_ok r : Forall (match_ok r) (re_finditer db fl s r).
Proof. apply finditer_go_ok. Qed.

(** A group of [sure r] can be read from every match of [r]. *)
Lemma group_sure r m n :
  match_ok r m -> In n (sure r) -> exists g, group s m n = Ok g.
Proof.
  intros [_ [_ Hs]] Hn. specialize (Hs n Hn).
  unfold group, m_group. destruct n; [eauto|].
  destruct (cap_get (m_caps m) (S n)) as [[a b]|]; [eauto|done].
Qed.

(** What a group holds is matched by the sub-pattern of the group. *)
Lemma group_matches r m n g :
  match_ok r m -> n <> O -> group s m n = Ok g ->
  exists r' a b, In (n, r') (groups r) /\ rmatch r' a b /\ g = slice s a b.
Proof.
  intros [_ [Hv _]] Hn. unfold group, m_group. destruct n; [done|].
  destruct (cap_get (m_caps m) (S n)) as [[a b]|] eqn:E; [|done].
  intros [= <-]. apply cap_get_In in E.
  rewrite List.Forall_forall in Hv. apply Hv in E as (r' & Hin & Hm).
  exists r', a, b. auto.
Qed.

End EngineFacts.

(** * Texts that a pattern cannot tell apart

    The matcher looks at the characters of the text through the tests of
    the pattern only; two texts whose characters pass the same tests, place
    by place, are matched alike. *)

Lemma rep_loop_ext (body body' : nat -> caps -> cont -> result_t)
    (greedy : bool) (lo : nat) (hi : option nat) :
  (forall i c k k', (forall j c', k j c' = k' j c') ->
                    body i c k = body' i c k') ->
  forall fuel k k' cnt i c,
    (forall j c', k j c' = k' j c') ->
    rep_loop body greedy lo hi k fuel cnt i c
    = rep_loop body' greedy lo hi k' fuel cnt i c.
Proof.
  intros Hb. induction fuel as [|f IH]; intros k k' cnt i c Hk; [reflexivity|].
  cbn [rep_loop].
  assert (Hmore :
    (if below hi cnt
     then body i c (fun j c' =>
            if (i <? j)%nat then rep_loop body greedy lo hi k f (S cnt) j c'
            else None)
     else None)
    = (if below hi cnt
       then body' i c (fun j c' =>
              if (i <? j)%nat then rep_loop body' greedy lo hi k' f (S cnt) j c'
              else None)
       else None)).
  { destruct (below hi cnt); [|reflexivity].
    apply Hb. intros j c'. destruct (i <? j)%nat; [|reflexivity].
    by apply IH. }
  rewrite Hmore, (Hk i c). reflexivity.
Qed.

Lemma Forall2_nth_error {A B : Type} (P : A -> B -> Prop) (l : list A)
    (l' : list B) :
  Forall2 P l l' ->
  forall i, option_Forall2 P (nth_error l i) (nth_error l' i).
Proof.
  induction 1 as [|x y l l' Hxy _ IH]; intros [|i]; simpl;
    try constructor; [exact Hxy | apply IH].
Qed.

Section MesmaClasse.
Variable db : unicode_db.
Variable fl : flags.
Variables s s' : str.

Lemma exec_mesma_classe (r : regex) :
  Forall2 (fun c c' => mesma_classe db fl r c c' = true) s s' ->
  forall i c k k',
    (forall j c', k j c' = k' j c') ->
    exec db fl s r i c k = exec db fl s' r i c k'.
Proof.
  induction r as [ | neg items | | r1 IH1 r2 IH2 | r1 IH1 r2 IH2
                 | greedy lo hi r' IH | n r' IH | | | ];
    intros Hs i c k k' Hk; cbn [exec].
  - apply Hk.
  - destruct (Forall2_nth_error _ s s' Hs i) as [x y Hxy|].
    + cbn [mesma_classe] in Hxy. apply Bool.eqb_prop in Hxy.
      rewrite Hxy. by destruct (set_match db fl neg items y).
    + reflexivity.
  - destruct (Forall2_nth_error _ s s' Hs i) as [x y Hxy|].
    + cbn [mesma_classe] in Hxy. apply Bool.eqb_prop in Hxy.
      rewrite Hxy. by destruct (any_match fl y).
    + reflexivity.
  - apply IH1.
    + eapply Forall2_impl; [exact Hs|]. cbn [mesma_classe].
      intros x y H. by apply andb_prop in H as [? _].
    + intros j c'. apply IH2; [|exact Hk].
      eapply Forall2_impl; [exact Hs|]. cbn [mesma_classe].
      intros x y H. by apply andb_prop in H as [_ ?].
  - rewrite (IH1 ltac:(eapply Forall2_impl; [exact Hs|]; cbn [mesma_classe];
                       intros x y H; by apply andb_prop in H as [? _])
               i c k k' Hk).
    rewrite (IH2 ltac:(eapply Forall2_impl; [exact Hs|]; cbn [mesma_classe];
                       intros x y H; by apply andb_prop in H as [_ ?])
               i c k k' Hk).
    reflexivity.
  - rewrite (Forall2_length _ _ _ Hs).
    apply rep_loop_ext; [|exact Hk].
    intros i0 c0 k0 k0' Hk0. by apply IH.
  - apply IH; [exact Hs|]. intros j c'. apply Hk.
  - destruct i; [apply Hk | reflexivity].
  - assert (He : at_eol s i = at_eol s' i).
    { unfold at_eol. rewrite (Forall2_length _ _ _ Hs).
      destruct (Forall2_nth_error _ s s' Hs i) as [x y Hxy|]; [|reflexivity].
      cbn [mesma_classe] in Hxy. apply Bool.eqb_prop in Hxy.
      by rewrite Hxy. }
    rewrite He, (Hk i c). reflexivity.
  - assert (Hw : forall p, word_at db s p = word_at db s' p).
    { intros p. unfold word_at.
      destruct (Forall2_nth_error _ s s' Hs p) as [x y Hxy|]; [|reflexivity].
      cbn [mesma_classe] in Hxy. by apply Bool.eqb_prop in Hxy. }
    assert (He : at_wordb db s i = at_wordb db s' i).
    { unfold at_wordb. destruct i; by rewrite ?Hw. }
    rewrite He, (Hk i c). reflexivity.
Qed.

Section Funcoes.
Variable r : regex.
Hypothesis Hs : Forall2 (fun c c' => mesma_classe db fl r c c' = true) s s'.

Lemma match_at_mesma_classe (start : nat) (adv : bool) :
  match_at db fl s r start adv = match_at db fl s' r start adv.
Proof using Hs.
  unfold match_at.
  by rewrite (exec_mesma_classe r Hs start [] _ _ (fun _ _ => eq_refl)).
Qed.

Lemma search_go_mesma_classe (n start : nat) (adv : bool) :
  search_go db fl s r n start adv = search_go db fl s' r n start adv.
Proof using Hs.
  revert start adv. induction n as [|n IH]; intros start adv; [reflexivity|].
  cbn [search_go]. rewrite match_at_mesma_classe, IH. reflexivity.
Qed.

Lemma re_search_mesma_classe :
  re_search db fl s r = re_search db fl s' r.
Proof using Hs.
  unfold re_search, search_from.
  rewrite (Forall2_length _ _ _ Hs). apply search_go_mesma_classe.
Qed.

Lemma re_match_start_mesma_classe :
  re_match_start db fl s r = re_match_start db fl s' r.
Proof using Hs. apply match_at_mesma_classe. Qed.

End Funcoes.

End MesmaClasse.


(** * Properties of [extrair_dados_certidao] *)

(** A loop whose body keeps an invariant and never raises on the elements
    it is given returns, and the invariant holds of what it returns. *)
Lemma foldM_inv {A S : Type} (f : S -> A -> result S)
    (I : S -> Prop) (Q : A -> Prop) (l : list A) (st : S) :
  (forall st x, Q x -> I st -> exists st', f st x = Ok st' /\ I st') ->
  Forall Q l -> I st ->
  exists st', foldM f l st = Ok st' /\ I st'.
Proof.
  intros Hstep Hl. revert st.
  induction Hl as [|x l Hx _ IH]; intros st Hst; simpl; [eauto|].
  destruct (Hstep st x Hx Hst) as (st1 & -> & Hst1). by apply IH.
Qed.

Lemma Forall_with_In {A : Type} (Q : A -> Prop) (l : list A) :
  Forall Q l -> Forall (fun x => In x l /\ Q x) l.
Proof.
  intros H. apply List.Forall_forall. intros x Hx. split; [done|].
  rewrite List.Forall_forall in H. auto.
Qed.

Lemma result_bind_ok {A B : Type} (a : A) (f : A -> result B) :
  (Ok a ≫= f) = f a.
Proof. reflexivity. Qed.

Lemma group_0 (s : str) (m : re_match) :
  group s m 0 = Ok (slice s (m_start m) (m_end m)).
Proof. reflexivity. Qed.

(** The result of a pattern without groups has no captured span. *)
Lemma match_ok_no_groups db fl s r m :
  groups r = [] -> match_ok db fl s r m -> m_caps m = [].
Proof.
  intros Hg [_ [Hv _]]. destruct (m_caps m) as [|e l]; [done|].
  inversion Hv as [|? ? (r' & Hin & _) _]. rewrite Hg in Hin. done.
Qed.

(** Decides [In n (sure r)] for the patterns of the program. *)
Ltac sure_group := vm_compute; tauto.

Section CertidaoFacts.
Variable db : unicode_db.

Lemma _buscar_acordao_por_doc_total (texto_flat num_doc : str) :
  exists v, _buscar_acordao_por_doc db texto_flat num_doc = Ok v.
Proof.
  unfold _buscar_acordao_por_doc.
  destruct (re_search db NOFLAGS texto_flat _) as [m_doc|]; [|eauto].
  set (trecho := slice texto_flat _ _).
  destruct (re_search db IGNORECASE_DOTALL trecho Pat.ACORDAO_APOS_DOC)
    as [m|] eqn:E1.
  - apply re_search_sound in E1 as [Hok _].
    destruct (group_sure _ _ _ _ m 1 Hok ltac:(sure_group)) as [g Hg].
    destruct (lastindex m); rewrite ?Hg, ?group_0; cbn; eauto.
  - destruct (re_search db NOFLAGS trecho Pat.NUMERO_ANO) as [m|] eqn:E2;
      [|eauto].
    apply re_search_sound in E2 as [Hok _].
    apply match_ok_no_groups in Hok; [|reflexivity].
    unfold lastindex. rewrite Hok, group_0. cbn. eauto.
Qed.

Lemma sem_repeticao_vazio (vistos : gset str) : sem_repeticao (vistos, []).
Proof. split; [constructor | intros r []]. Qed.

Lemma sem_repeticao_novo vistos resp (r : Responsavel) :
  sem_repeticao (vistos, resp) ->
  numero_doc r ∉ vistos ->
  sem_repeticao ({[ numero_doc r ]} ∪ vistos, resp ++ [r]).
Proof.
  intros [Hnd Hin] Hnew. split; simpl in *.
  - rewrite map_app. apply NoDup_app. split; [done|]. split.
    + intros d Hd Hd'. apply list_elem_of_In in Hd.
      apply in_map_iff in Hd as (r' & <- & Hr').
      apply list_elem_of_In in Hd'. simpl in Hd'.
      destruct Hd' as [Hd'|[]]. apply Hnew. rewrite Hd'. by apply Hin.
    + simpl. apply NoDup_singleton.
  - intros r' [Hr'|[<-|[]]]%in_app_or; set_solver.
Qed.

Lemma passo_primario_ok texto_flat trecho st m :
  match_ok db IGNORECASE trecho Pat.padrao m ->
  sem_repeticao st ->
  exists st', passo_primario db texto_flat trecho st m = Ok st'
              /\ sem_repeticao st'.
Proof.
  intros Hok Hst. destruct st as [vistos resp]. unfold passo_primario.
  destruct (group_sure _ _ _ _ m 1 Hok ltac:(sure_group)) as [g1 ->].
  destruct (group_sure _ _ _ _ m 2 Hok ltac:(sure_group)) as [g2 ->].
  destruct (group_sure _ _ _ _ m 3 Hok ltac:(sure_group)) as [g3 ->].
  cbn. case_bool_decide as Hv; [eauto|].
  destruct (_buscar_acordao_por_doc_total texto_flat (str_strip db g3))
    as [ac ->].
  cbn. eexists. split; [done|].
  by apply (sem_repeticao_novo _ _
              {| nome := _; tipo_doc := _; numero_doc := str_strip db g3;
                 acordao := ac; excluido := false |}).
Qed.

Lemma excluido_apos_false texto_flat m :
  excluido_apos db texto_flat m = false ->
  sem_frase_de_exclusao db texto_flat m.
Proof.
  unfold excluido_apos, sem_frase_de_exclusao.
  destruct (re_search db IGNORECASE _ Pat.EXCLUSAO) eqn:E; [done|].
  intros _. by apply re_search_none.
Qed.

Local Abbreviation origem := (origem db).

Lemma passo_fallback_ok limpar texto_flat pat l st m :
  In 1%nat (sure pat) -> In 2%nat (sure pat) -> In 3%nat (sure pat) ->
  In m l /\ match_ok db IGNORECASE texto_flat pat m ->
  sem_repeticao st /\ Forall (origem texto_flat l) st.2 ->
  exists st', passo_fallback db limpar texto_flat st m = Ok st'
              /\ sem_repeticao st' /\ Forall (origem texto_flat l) st'.2.
Proof.
  intros H1 H2 H3 [Hin Hok] [Hst Hor]. destruct st as [vistos resp].
  unfold passo_fallback.
  destruct (group_sure _ _ _ _ m 1 Hok H1) as [g1 Hg1].
  destruct (group_sure _ _ _ _ m 2 Hok H2) as [g2 Hg2].
  destruct (group_sure _ _ _ _ m 3 Hok H3) as [g3 Hg3].
  rewrite Hg3. cbn. case_bool_decide as Hv; [eauto|].
  destruct (excluido_apos db texto_flat m) eqn:Hex; [eauto|].
  rewrite Hg1. cbn.
  destruct (_buscar_acordao_por_doc_total texto_flat (str_strip db g3))
    as [ac ->].
  cbn. rewrite Hg2. cbn. eexists. split; [done|]. split.
  - by apply (sem_repeticao_novo _ _
                {| nome := _; tipo_doc := _; numero_doc := str_strip db g3;
                   acordao := ac; excluido := false |}).
  - simpl. apply Forall_app. split; [done|].
    constructor; [|constructor]. exists m, g3.
    auto using excluido_apos_false.
Qed.

Lemma trecho_responsaveis_total texto_flat :
  exists trecho, trecho_responsaveis db texto_flat = Ok trecho.
Proof.
  unfold trecho_responsaveis.
  destruct (re_search db IGNORECASE_DOTALL texto_flat Pat.CERTIFICO_FECHADO)
    as [m|] eqn:E1.
  - apply re_search_sound in E1 as [Hok _].
    exact (group_sure _ _ _ _ m 1 Hok ltac:(sure_group)).
  - destruct (re_search db IGNORECASE_DOTALL texto_flat Pat.CERTIFICO_ABERTO)
      as [m|] eqn:E2; [|eauto].
    apply re_search_sound in E2 as [Hok _].
    exact (group_sure _ _ _ _ m 1 Hok ltac:(sure_group)).
Qed.

Lemma tier_primario_ok texto_flat :
  exists st, tier_primario db texto_flat = Ok st /\ sem_repeticao st.
Proof.
  unfold tier_primario.
  destruct (trecho_responsaveis_total texto_flat) as [trecho ->]. cbn.
  apply (foldM_inv _ sem_repeticao (match_ok db IGNORECASE trecho Pat.padrao)).
  - intros st m. apply passo_primario_ok.
  - apply re_finditer_ok.
  - apply sem_repeticao_vazio.
Qed.

Lemma tier_fallback_ok limpar texto_flat pat st :
  In 1%nat (sure pat) -> In 2%nat (sure pat) -> In 3%nat (sure pat) ->
  sem_repeticao st -> st.2 = [] ->
  let l := re_finditer db IGNORECASE texto_flat pat in
  exists st', foldM (passo_fallback db limpar texto_flat) l st = Ok st'
              /\ sem_repeticao st' /\ Forall (origem texto_flat l) st'.2.
Proof.
  intros H1 H2 H3 Hst Hnil l.
  apply (foldM_inv _
           (fun st => sem_repeticao st /\ Forall (origem texto_flat l) st.2)
           (fun m => In m l /\ match_ok db IGNORECASE texto_flat pat m)).
  - intros st0 m. by apply passo_fallback_ok.
  - apply Forall_with_In, re_finditer_ok.
  - split; [done|]. rewrite Hnil. constructor.
Qed.

(** The three tiers together. *)
Lemma extrair_responsaveis_ok texto_flat :
  exists rs, extrair_responsaveis db texto_flat = Ok rs
             /\ NoDup (map numero_doc rs).
Proof.
  unfold extrair_responsaveis.
  destruct (tier_primario_ok texto_flat) as (st1 & -> & Hst1). cbn.
  assert (exists st2, tier_fallback_a db texto_flat st1 = Ok st2
                      /\ sem_repeticao st2) as (st2 & -> & Hst2).
  { unfold tier_fallback_a. destruct (snd st1) eqn:E; [|eauto].
    destruct (tier_fallback_ok true texto_flat Pat.padrao_geral st1)
      as (st2 & ? & ? & _); eauto; sure_group. }
  cbn.
  assert (exists st3, tier_fallback_c db texto_flat st2 = Ok st3
                      /\ sem_repeticao st3) as (st3 & -> & Hst3).
  { unfold tier_fallback_c. destruct (snd st2) eqn:E; [|eauto].
    destruct (tier_fallback_ok false texto_flat Pat.padrao_lista st2)
      as (st3 & ? & ? & _); eauto; sure_group. }
  cbn. eexists. split; [done|]. apply Hst3.
Qed.

Lemma extrair_numero_processo_total texto_flat :
  exists v, extrair_numero_processo db texto_flat = Ok v.
Proof.
  unfold extrair_numero_processo.
  destruct (re_search db IGNORECASE texto_flat Pat.PROCESSO) as [m|] eqn:E;
    [|eauto].
  apply re_search_sound in E as [Hok _].
  destruct (group_sure _ _ _ _ m 1 Hok ltac:(sure_group)) as [g ->].
  cbn. eauto.
Qed.

Lemma extrair_data_total texto_flat pats :
  Forall (fun pat => In 1%nat (sure pat)) pats ->
  exists v, extrair_data db texto_flat pats = Ok v.
Proof.
  induction 1 as [|pat pats Hs _ IH]; simpl; [eauto|].
  destruct (re_search db NOFLAGS texto_flat pat) as [m|] eqn:E; [|done].
  apply re_search_sound in E as [Hok _].
  destruct (group_sure _ _ _ _ m 1 Hok Hs) as [g ->]. cbn. eauto.
Qed.

Lemma extrair_acordao_origem_total texto_flat :
  exists v, extrair_acordao_origem db texto_flat = Ok v.
Proof.
  unfold extrair_acordao_origem.
  destruct (re_search db NOFLAGS texto_flat Pat.ACORDAO_ORIGEM) as [m|] eqn:E;
    [|eauto].
  apply re_search_sound in E as [Hok _].
  destruct (group_sure _ _ _ _ m 1 Hok ltac:(sure_group)) as [g ->].
  cbn. eauto.
Qed.

(** The value: the labelled amount of the leftmost labelled match, or
    else the last of the currency amounts, or else nothing. *)
Lemma extrair_valor_spec texto_flat :
  match re_search db IGNORECASE texto_flat Pat.VALOR_ROTULADO with
  | Some m =>
      exists g, m_group texto_flat m 1 = Some g
                /\ extrair_valor db texto_flat = Ok (Some (py "R$ " ++ g))
  | None =>
      extrair_valor db texto_flat =
      Ok (match re_findall1 db NOFLAGS texto_flat Pat.VALOR_MONETARIO with
          | [] => None
          | x :: todos => Some (py "R$ " ++ List.last todos x)
          end)
  end.
Proof.
  unfold extrair_valor.
  destruct (re_search db IGNORECASE texto_flat Pat.VALOR_ROTULADO)
    as [m|] eqn:E.
  - apply re_search_sound in E as [Hok _].
    destruct (group_sure _ _ _ _ m 1 Hok ltac:(sure_group)) as [g Hg].
    rewrite Hg. exists g. split; [|done].
    unfold group in Hg.
    destruct (m_group texto_flat m 1) as [g0|]; [|discriminate Hg].
    by injection Hg as ->.
  - by destruct (re_findall1 db NOFLAGS texto_flat Pat.VALOR_MONETARIO).
Qed.

Lemma extrair_valor_total texto_flat :
  exists v, extrair_valor db texto_flat = Ok v.
Proof.
  pose proof (extrair_valor_spec texto_flat) as H.
  destruct (re_search db IGNORECASE texto_flat Pat.VALOR_ROTULADO);
    [destruct H as (g & _ & ->) | rewrite H]; eauto.
Qed.

(** [extrair_dados_certidao] never raises; its fields are the results of
    the five extractions. *)
Lemma extrair_dados_certidao_total texto :
  exists d, extrair_dados_certidao db texto = Ok d
    /\ extrair_valor db (achatar db texto) = Ok (valor_atualizado d)
    /\ extrair_responsaveis db (achatar db texto) = Ok (responsaveis d).
Proof.
  unfold extrair_dados_certidao.
  destruct (extrair_numero_processo_total (achatar db texto)) as [np ->].
  destruct (extrair_valor_total (achatar db texto)) as [va ->].
  destruct (extrair_data_total (achatar db texto) Pat.DATAS) as [da ->].
  { repeat constructor; sure_group. }
  destruct (extrair_acordao_origem_total (achatar db texto)) as [ao ->].
  destruct (extrair_responsaveis_ok (achatar db texto)) as (rs & -> & _).
  cbn. eexists. by repeat split.
Qed.

(** A pattern has a match somewhere in [s]. *)
Lemma re_search_has_match fl s r :
  has_match db fl s r <-> re_search db fl s r <> None.
Proof.
  split.
  - intros (i & j & Hi & Hm) E. by eapply re_search_none in E.
  - destruct (re_search db fl s r) as [m|] eqn:E; [|done]. intros _.
    apply re_search_sound in E as ([Hm _] & Hi & _).
    by exists (m_start m), (m_end m).
Qed.


End CertidaoFacts.

(** * Properties of the string functions *)

Lemma str_join_cons (sep x y : str) (t : list str) :
  str_join sep (x :: y :: t) = x ++ sep ++ str_join sep (y :: t).
Proof. reflexivity. Qed.

(** An element of the list is a piece of the joined string. *)
Lemma str_join_In (sep x : str) (l : list str) :
  In x l -> exists a b, str_join sep l = a ++ x ++ b.
Proof.
  induction l as [|y [|z t] IH]; intros Hin; [done| |].
  - destruct Hin as [->|[]]. exists [], []. by rewrite app_nil_r.
  - rewrite str_join_cons. destruct Hin as [->|Hin].
    + exists [], (sep ++ str_join sep (z :: t)). reflexivity.
    + destruct (IH Hin) as (a & b & ->).
      exists (y ++ sep ++ a), b. by rewrite <- !app_assoc.
Qed.

(** ** [strip] *)

Lemma lstrip_by_spec (p : N -> bool) (l : str) :
  exists a,
    l = a ++ lstrip_by p l
    /\ Forall (fun c => p c = true) a
    /\ (forall c t, lstrip_by p l = c :: t -> p c = false).
Proof.
  induction l as [|c t (a & Ha & Hp & Hf)]; simpl.
  - exists []. by repeat split.
  - destruct (p c) eqn:E.
    + exists (c :: a). split; [by rewrite Ha at 1|].
      split; [by constructor | exact Hf].
    + exists []. split; [done|]. split; [constructor|].
      intros c' t' [= <- _]. exact E.
Qed.

Lemma rstrip_by_spec (p : N -> bool) (l : str) :
  exists b,
    l = rstrip_by p l ++ b
    /\ Forall (fun c => p c = true) b
    /\ (forall t c, rstrip_by p l = t ++ [c] -> p c = false).
Proof.
  unfold rstrip_by.
  destruct (lstrip_by_spec p (rev l)) as (a & Ha & Hp & Hf).
  exists (rev a). split; [|split].
  - rewrite <- rev_app_distr, <- Ha. by rewrite rev_involutive.
  - by apply Forall_rev.
  - intros t c Ht. apply (Hf c (rev t)).
    rewrite <- (rev_involutive (lstrip_by p (rev l))), Ht.
    by rewrite rev_app_distr.
Qed.

(** What [strip] returns is the text between the leading and the trailing
    characters of the kind stripped; it neither starts nor ends with one. *)
Lemma strip_by_spec (p : N -> bool) (l : str) :
  exists a b,
    l = a ++ strip_by p l ++ b
    /\ Forall (fun c => p c = true) a
    /\ Forall (fun c => p c = true) b
    /\ (forall c t, strip_by p l = c :: t -> p c = false)
    /\ (forall t c, strip_by p l = t ++ [c] -> p c = false).
Proof.
  unfold strip_by.
  destruct (lstrip_by_spec p l) as (a & Ha & Hpa & Hfa).
  destruct (rstrip_by_spec p (lstrip_by p l)) as (b & Hb & Hpb & Hfb).
  exists a, b. split; [by rewrite <- Hb|].
  split; [exact Hpa|]. split; [exact Hpb|]. split; [|exact Hfb].
  intros c t Ht. apply (Hfa c (t ++ b)). by rewrite Hb, Ht.
Qed.

Lemma lstrip_by_todos (p : N -> bool) (l : str) :
  Forall (fun c => p c = true) l -> lstrip_by p l = [].
Proof. induction 1 as [|c t Hc _ IH]; simpl; [done|]. by rewrite Hc. Qed.

Lemma strip_by_nil (p : N -> bool) (l : str) :
  strip_by p l = [] <-> Forall (fun c => p c = true) l.
Proof.
  split.
  - intros H. destruct (strip_by_spec p l) as (a & b & Hl & Ha & Hb & _).
    rewrite H in Hl. rewrite Hl. apply Forall_app. by split.
  - intros H. unfold strip_by, rstrip_by.
    rewrite (lstrip_by_todos p l H). reflexivity.
Qed.

(** ** Runs of white space replaced by one space *)

Lemma colapsar_go_espacos (db : unicode_db) (l : str) :
  forall dentro,
    let r := colapsar_go (isspace db) [32] dentro l in
    (forall c, In c r -> isspace db c = true -> c = 32)
    /\ (forall i, nth_error r i = Some 32 -> nth_error r (S i) <> Some 32)
    /\ (dentro = true -> nth_error r 0 <> Some 32).
Proof.
  induction l as [|c t IH]; intros dentro r; subst r.
  - simpl. split; [done|]. split; [by intros [|i]|done].
  - cbn [colapsar_go]. destruct (isspace db c) eqn:E.
    + destruct (IH true) as (H1 & H2 & H3). destruct dentro.
      * cbn [app]. by repeat split.
      * cbn [app]. split; [|split; [|done]].
        -- intros x [<-|Hx] Hs; [done | by apply H1].
        -- intros [|i] Hi; [by apply H3 | by apply H2].
    + destruct (IH false) as (H1 & H2 & _).
      assert (Hc : c <> 32) by (intros ->; by vm_compute in E).
      split; [|split].
      * intros x [<-|Hx] Hs; [congruence | by apply H1].
      * intros [|i] Hi; [simpl in Hi; congruence | by apply H2].
      * intros _. simpl. congruence.
Qed.

Lemma colapsar_espacos_simples (db : unicode_db) (l : str) :
  espacos_simples db (colapsar (isspace db) [32] l).
Proof.
  destruct (colapsar_go_espacos db l false) as (H1 & H2 & _). by split.
Qed.

Lemma espacos_simples_trecho (db : unicode_db) (a m b : str) :
  espacos_simples db (a ++ m ++ b) -> espacos_simples db m.
Proof.
  intros [H1 H2]. split.
  - intros c Hc. apply H1. apply in_or_app. right. apply in_or_app. by left.
  - intros i Hi Hi'.
    assert (Hlt : (S i < length m)%nat)
      by (apply nth_error_Some; congruence).
    apply (H2 (length a + i)%nat).
    + rewrite nth_error_app2 by lia.
      replace (length a + i - length a)%nat with i by lia.
      by rewrite nth_error_app1 by lia.
    + replace (S (length a + i)) with (length a + S i)%nat by lia.
      rewrite nth_error_app2 by lia.
      replace (length a + S i - length a)%nat with (S i) by lia.
      by rewrite nth_error_app1 by lia.
Qed.

(** ** [splitlines] *)

Lemma splitlines_go_In (s : str) :
  forall cur after_cr linha c,
    In linha (splitlines_go cur after_cr s) -> In c linha ->
    In c cur \/ In c s.
Proof.
  induction s as [|x t IH]; intros cur after_cr linha c Hl Hc; simpl in Hl.
  - destruct cur as [|y cur']; [done|].
    destruct Hl as [<-|[]]. left. by apply in_rev.
  - destruct (after_cr && (x =? 10)).
    { destruct (IH _ _ _ _ Hl Hc); [by left | right; by right]. }
    destruct (is_linebreak x).
    + destruct Hl as [<-|Hl]; [left; by apply in_rev|].
      destruct (IH _ _ _ _ Hl Hc) as [[]|?]. right. by right.
    + destruct (IH _ _ _ _ Hl Hc) as [[<-|?]|?];
        [right; by left | by left | right; by right].
Qed.

(** The characters of a line are characters of the text. *)
Lemma str_splitlines_In (s linha : str) (c : N) :
  In linha (str_splitlines s) -> In c linha -> In c s.
Proof.
  intros Hl Hc. by destruct (splitlines_go_In s [] false linha c Hl Hc).
Qed.

(** The lines of a blank text are blank. *)
Lemma linhas_em_branco (db : unicode_db) (s : str) :
  str_strip db s = [] ->
  Forall (fun linha => str_strip db linha = []) (str_splitlines s).
Proof.
  intros H. apply strip_by_nil in H. rewrite List.Forall_forall in H.
  apply List.Forall_forall. intros linha Hl. apply strip_by_nil.
  apply List.Forall_forall. intros c Hc. apply H.
  by apply (str_splitlines_In s linha).
Qed.

(** A text without characters of the kind stripped is left as it is. *)
Lemma strip_by_id (p : N -> bool) (l : str) :
  Forall (fun c => p c = false) l -> strip_by p l = l.
Proof.
  intros H.
  assert (Hl : forall l', Forall (fun c => p c = false) l' ->
                          lstrip_by p l' = l').
  { intros [|c t] Hc; [done|]. simpl. inversion Hc as [|? ? Hpc _]; subst.
    by rewrite Hpc. }
  unfold strip_by, rstrip_by. rewrite (Hl l H).
  rewrite Hl by (by apply Forall_rev). apply rev_involutive.
Qed.


(** * Properties of [parsear_endereco] *)

Lemma slice_split (s : str) (a m b : nat) :
  (a <= m <= b)%nat -> slice s a b = slice s a m ++ slice s m b.
Proof.
  intros H. unfold slice.
  replace (b - a)%nat with ((m - a) + (b - m))%nat by lia.
  rewrite <- take_take_drop. f_equal.
  rewrite drop_drop. do 2 f_equal. lia.
Qed.

Lemma slice_one (s : str) (a : nat) (ch : N) :
  nth_error s a = Some ch -> slice s a (S a) = [ch].
Proof.
  intros H. apply nth_error_split in H as (l1 & l2 & -> & <-).
  unfold slice. replace (S (length l1) - length l1)%nat with 1%nat by lia.
  by rewrite drop_app_length.
Qed.

Lemma slice_nil (s : str) (a : nat) : slice s a a = [].
Proof. unfold slice. by rewrite Nat.sub_diag. Qed.

Lemma slice_to_end (s : str) (a : nat) : slice s a (length s) = skipn a s.
Proof.
  unfold slice. apply take_ge. rewrite length_drop. lia.
Qed.

Section Formas.
Variable db : unicode_db.
Variable fl : flags.
Variable s : str.

Local Abbreviation rmatch := (rmatch db fl s).

(** What a set, a sequence and a repeated set match, as pieces of [s]. *)
Lemma rmatch_set_slice neg items a b :
  rmatch (RSet neg items) a b ->
  exists ch, slice s a b = [ch] /\ set_match db fl neg items ch = true.
Proof.
  intros (ch & Hn & Hs & ->). exists ch. split; [by apply slice_one|done].
Qed.

Lemma rmatch_seq_slice r1 r2 a b :
  rmatch (RSeq r1 r2) a b ->
  exists m, rmatch r1 a m /\ rmatch r2 m b
            /\ slice s a b = slice s a m ++ slice s m b.
Proof.
  intros (m & H1 & H2). exists m. repeat split; [done..|].
  apply slice_split.
  apply rmatch_bounds in H1. apply rmatch_bounds in H2. lia.
Qed.

Lemma rmatch_rep_set_slice greedy lo hi neg items a b :
  rmatch (RRep greedy lo hi (RSet neg items)) a b ->
  (lo <= length (slice s a b))%nat
  /\ within hi (length (slice s a b))
  /\ Forall (fun ch => set_match db fl neg items ch = true) (slice s a b).
Proof.
  intros (n & l & Hit & Hlo & Hhi).
  enough (length (slice s a b) = n
          /\ Forall (fun ch => set_match db fl neg items ch = true) (slice s a b))
    as [-> ?] by done.
  clear Hlo Hhi. induction Hit as [i | n i j k l1 l2 Hm Hlt Hit [IH1 IH2]].
  - by rewrite slice_nil.
  - pose proof (iter_count _ _ _ _ _ _ _ _ Hit) as [Hjk _].
    destruct Hm as (ch & Hn & Hs & ->).
    rewrite (slice_split s i (S i) k) by lia.
    rewrite (slice_one s i ch Hn). simpl. split; [by rewrite IH1|].
    by constructor.
Qed.

(** *** Substituting the empty string for one character of a set removes
    the characters of the set. *)

Variable neg : bool.
Variable items : list citem.

Local Abbreviation in_set := (set_match db fl neg items).
Local Abbreviation out_of_set := (fun ch => negb (set_match db fl neg items ch)).

Lemma match_at_set start adv :
  match_at db fl s (RSet neg items) start adv =
  match nth_error s start with
  | Some ch =>
      if in_set ch
      then Some {| m_start := start; m_end := S start; m_caps := [] |}
      else None
  | None => None
  end.
Proof.
  assert (E : (S start =? start)%nat = false) by (apply Nat.eqb_neq; lia).
  unfold match_at. cbn [exec].
  destruct (nth_error s start) as [ch|]; [|done].
  destruct (in_set ch); [|done].
  by rewrite E, andb_false_r.
Qed.

Lemma search_go_set n :
  forall start adv,
    (start + n = S (length s))%nat ->
    match search_go db fl s (RSet neg items) n start adv with
    | Some m =>
        (start <= m_start m)%nat /\ m_end m = S (m_start m)
        /\ List.filter out_of_set (slice s start (m_start m))
           = slice s start (m_start m)
        /\ exists ch, nth_error s (m_start m) = Some ch /\ in_set ch = true
    | None => List.filter out_of_set (skipn start s) = skipn start s
    end.
Proof.
  induction n as [|n IH]; intros start adv Hn.
  - simpl. by rewrite drop_ge by lia.
  - simpl. rewrite match_at_set.
    destruct (nth_error s start) as [ch|] eqn:Hch.
    + destruct (in_set ch) eqn:Hin.
      * simpl. rewrite slice_nil. eauto 10.
      * specialize (IH (S start) false ltac:(lia)).
        destruct (search_go db fl s (RSet neg items) n (S start) false)
          as [m|].
        -- destruct IH as (Hle & He & Hf & Hex).
           split; [lia|]. split; [done|]. split; [|done].
           rewrite (slice_split s start (S start) (m_start m)) by lia.
           rewrite (slice_one s start ch Hch). simpl.
           by rewrite Hin, Hf.
        -- apply nth_error_split in Hch as (l1 & l2 & -> & <-).
           rewrite drop_app_length.
           replace (S (length l1)) with (length (l1 ++ [ch])) in IH
             by (rewrite length_app; simpl; lia).
           rewrite (cons_middle ch l1 l2), app_assoc, drop_app_length in IH.
           simpl. by rewrite Hin, IH.
    + apply nth_error_None in Hch.
      assert (Hd : skipn start s = []) by (apply drop_ge; lia).
      destruct n as [|n]; [simpl; by rewrite Hd|lia].
Qed.

Lemma sub_go_set (k : nat) :
  forall pos fuel adv,
    (length s - pos <= k)%nat -> (pos <= length s)%nat -> (k < fuel)%nat ->
    sub_go s (fun _ => [])
           (finditer_go db fl s (RSet neg items) fuel pos adv) pos
    = List.filter out_of_set (skipn pos s).
Proof.
  induction k as [k IH] using lt_wf_ind. intros pos fuel adv Hk Hpos Hfuel.
  destruct fuel as [|fuel]; [lia|]. simpl. unfold search_from.
  pose proof (search_go_set (S (length s) - pos) pos adv ltac:(lia)) as Hs.
  destruct (search_go db fl s (RSet neg items) (S (length s) - pos) pos adv)
    as [m|].
  - destruct Hs as (Hle & He & Hf & ch & Hch & Hin).
    assert (Hlt : (m_start m < length s)%nat)
      by (apply nth_error_Some; congruence).
    simpl. rewrite He.
    rewrite (IH (length s - S (m_start m))%nat) by lia.
    rewrite <- (slice_to_end s pos).
    rewrite (slice_split s pos (m_start m) (length s)) by lia.
    rewrite (slice_split s (m_start m) (S (m_start m)) (length s)) by lia.
    rewrite (slice_one s _ ch Hch), slice_to_end.
    rewrite !List.filter_app. simpl. by rewrite Hin, Hf.
  - simpl. by rewrite slice_to_end.
Qed.

Lemma re_sub_set :
  re_sub db fl s (RSet neg items) [] = List.filter out_of_set s.
Proof.
  unfold re_sub, re_sub_with, re_finditer.
  by rewrite (sub_go_set (length s)) by lia.
Qed.

End Formas.

Section EnderecoFacts.
Variable db : unicode_db.

(** A decimal digit is neither a hyphen nor a dot. *)
Lemma digito_nao_e_pontuacao (fl : flags) (ch : N) :
  set_match db fl false [CCat CatDigit] ch = true ->
  isdecimal db ch = true /\ char_in (py "-.") ch = false.
Proof.
  change (py "-.") with [45; 46].
  unfold set_match. simpl. rewrite orb_false_r. intros Hd. split; [done|].
  unfold char_in. simpl.
  destruct (N.eqb_spec ch 45) as [->|]; [by vm_compute in Hd|].
  destruct (N.eqb_spec ch 46) as [->|]; [by vm_compute in Hd|done].
Qed.

Lemma pontuacao_cep (fl : flags) (ch : N) :
  set_match db fl false [CLit 45; CLit 46] ch = char_in (py "-.") ch.
Proof.
  change (py "-.") with [45; 46].
  unfold set_match, char_in, item_match, lit_match, sre_iscased. simpl.
  replace (tolower db 45) with 45 by reflexivity.
  replace (toupper db 45) with 45 by reflexivity.
  replace (tolower db 46) with 46 by reflexivity.
  replace (toupper db 46) with 46 by reflexivity.
  simpl. by rewrite !andb_false_r.
Qed.

(** The group of the CEP pattern: five digits, at most one hyphen or dot,
    three digits; without the punctuation, eight digits. *)
Lemma grupo_cep (s : str) (a b : nat) :
  rmatch db IGNORECASE s
    (RSeq (RRep true 5 (Some 5%nat) (RSet false [CCat CatDigit]))
       (RSeq (RRep true 0 (Some 1%nat) (RSet false [CLit 45; CLit 46]))
          (RRep true 3 (Some 3%nat) (RSet false [CCat CatDigit])))) a b ->
  length (sem_pontuacao (slice s a b)) = 8%nat
  /\ Forall (fun c => isdecimal db c = true) (sem_pontuacao (slice s a b)).
Proof.
  intros (m1 & H1 & (m2 & H2 & H3 & ->)%rmatch_seq_slice & ->)%rmatch_seq_slice.
  apply rmatch_rep_set_slice in H1 as (Hl1 & Hh1 & Hd1).
  apply rmatch_rep_set_slice in H2 as (_ & _ & Hp).
  apply rmatch_rep_set_slice in H3 as (Hl3 & Hh3 & Hd3).
  simpl in Hh1, Hh3. unfold sem_pontuacao. rewrite !List.filter_app.
  assert (Hdig : forall l,
    Forall (fun ch => set_match db IGNORECASE false [CCat CatDigit] ch = true) l ->
    List.filter (fun c => negb (char_in (py "-.") c)) l = l
    /\ Forall (fun c => isdecimal db c = true) l).
  { induction 1 as [|ch l [Hd Hc]%digito_nao_e_pontuacao _ [IH1 IH2]];
      [done|]. cbn. rewrite Hc. cbn. rewrite IH1. by split; [|constructor]. }
  assert (Hpun :
    List.filter (fun c => negb (char_in (py "-.") c)) (slice s m1 m2) = []).
  { induction Hp as [|ch l Hc _ IH]; [done|].
    cbn. rewrite pontuacao_cep in Hc. by rewrite Hc. }
  destruct (Hdig _ Hd1) as [-> ?]. destruct (Hdig _ Hd3) as [-> ?].
  rewrite Hpun. cbn. rewrite length_app. split; [lia|].
  by apply Forall_app.
Qed.

(** *** The stages *)

Lemma bairro_se_vazio_cep c v e : cep (bairro_se_vazio c v e) = cep e.
Proof. unfold bairro_se_vazio. by destruct c, (bairro e). Qed.

(** The first stage that finds a district keeps it. *)
Lemma bairro_se_vazio_mantem c v e :
  bairro e <> [] -> bairro (bairro_se_vazio c v e) = bairro e.
Proof.
  intros H. unfold bairro_se_vazio. destruct c; [done|].
  destruct (bairro e) eqn:E; [by destruct H | done].
Qed.

Lemma etapa_cidade_total e original :
  exists e1 o1, etapa_cidade db e original = Ok (e1, o1) /\ cep e1 = cep e.
Proof.
  unfold etapa_cidade.
  destruct (re_search db IGNORECASE original PatEnd.CIDADE_UF) as [m|] eqn:E;
    [|eauto].
  apply re_search_sound in E as [Hok _].
  destruct (group_sure _ _ _ _ m 1 Hok ltac:(sure_group)) as [g1 ->].
  destruct (group_sure _ _ _ _ m 2 Hok ltac:(sure_group)) as [g2 ->].
  rewrite !result_bind_ok. eexists _, _. split; [reflexivity|].
  by rewrite bairro_se_vazio_cep.
Qed.

(** The postal code stage: without a labelled code in the text the record
    is left as it is; with one, the field is the group of the leftmost
    match without its hyphen or dot, eight decimal digits. *)
Lemma etapa_cep_spec e original :
  match re_search db IGNORECASE original PatEnd.CEP with
  | None => etapa_cep db e original = Ok (e, original)
  | Some m =>
      exists g e2 o2,
        m_group original m 1 = Some g
        /\ etapa_cep db e original = Ok (e2, o2)
        /\ cep e2 = sem_pontuacao g
        /\ length (cep e2) = 8%nat
        /\ Forall (fun c => isdecimal db c = true) (cep e2)
  end.
Proof.
  unfold etapa_cep.
  destruct (re_search db IGNORECASE original PatEnd.CEP) as [m|] eqn:E;
    [|done].
  apply re_search_sound in E as [Hok _].
  destruct (group_sure _ _ _ _ m 1 Hok ltac:(sure_group)) as [g Hg].
  destruct (group_matches _ _ _ _ m 1 g Hok ltac:(done) Hg)
    as (r' & a & b & Hin & Hm & ->).
  assert (Hr' : r' = RSeq (RRep true 5 (Some 5%nat) (RSet false [CCat CatDigit]))
       (RSeq (RRep true 0 (Some 1%nat) (RSet false [CLit 45; CLit 46]))
          (RRep true 3 (Some 3%nat) (RSet false [CCat CatDigit])))).
  { vm_compute in Hin. destruct Hin as [[= <-]|[]]. reflexivity. }
  subst r'. apply grupo_cep in Hm as [Hlen Hdig].
  rewrite Hg, result_bind_ok.
  assert (Hsub : re_sub db NOFLAGS (slice original a b) PatEnd.PONTUACAO_CEP []
                 = sem_pontuacao (slice original a b)).
  { change PatEnd.PONTUACAO_CEP with (RSet false [CLit 45; CLit 46]).
    rewrite re_sub_set. unfold sem_pontuacao.
    apply List.filter_ext. intros c. by rewrite pontuacao_cep. }
  unfold group in Hg.
  destruct (m_group original m 1) as [g0|]; [|discriminate Hg].
  injection Hg as ->.
  destruct (str_strip_chars _ _);
    eexists _, _, _; (split; [reflexivity|]); (split; [reflexivity|]);
    rewrite ?bairro_se_vazio_cep; cbn [cep set_cep]; rewrite Hsub;
    (split; [reflexivity|]); (split; [exact Hlen | exact Hdig]).
Qed.

Lemma etapa_numero_preserva e logradouro_bruto :
  exists e', etapa_numero db e logradouro_bruto = Ok e'
             /\ cep e' = cep e /\ bairro e' = bairro e.
Proof.
  unfold etapa_numero.
  set (segmentos := map (str_strip db) _).
  set (seg0 := match segmentos with [] => [] | x :: _ => x end).
  assert (exists e1,
    match re_match_start db IGNORECASE seg0 PatEnd._RE_TIPO with
    | Some m_tipo =>
        g1 ← group seg0 m_tipo 1;
        Ok (set_logradouro
              (str_title db
                 (str_strip db (slice seg0 (m_end m_tipo) (length seg0))))
              (set_tipo_logradouro
                 (str_rstrip_chars (py ".") (str_upper db g1)) e))
    | None =>
        Ok (set_logradouro (str_title db (str_strip db seg0))
              (set_tipo_logradouro (py "RUA") e))
    end = Ok e1 /\ cep e1 = cep e /\ bairro e1 = bairro e) as (e1 & -> & Hc & Hb).
  { destruct (re_match_start db IGNORECASE seg0 PatEnd._RE_TIPO) as [m|] eqn:E;
      [|eauto].
    apply re_match_start_sound in E.
    destruct (group_sure _ _ _ _ m 1 E ltac:(sure_group)) as [g1 ->].
    rewrite result_bind_ok. eauto. }
  rewrite result_bind_ok.
  match goal with
  | |- exists e', Ok (match numero ?e2 with _ => _ end) = _ /\ _ =>
      assert (cep e2 = cep e /\ bairro e2 = bairro e) as [Hc2 Hb2];
        [|destruct (numero e2); eexists; (split; [reflexivity|]); by split]
  end.
  destruct segmentos as [|? [|s1 resto]]; [by split..|].
  destruct (re_match_start db IGNORECASE (str_strip db s1) PatEnd.NUMERO_CASA);
    [destruct resto|]; by split.
Qed.

(** [parsear_endereco] returns for every text; its postal code is that of
    the postal code stage and its district that of the hyphen stage. *)
Lemma parsear_endereco_etapas endereco_bruto :
  let original := normalizar_endereco db endereco_bruto in
  exists e1 o1 e2 o2 e,
    etapa_cidade db (endereco_novo original) original = Ok (e1, o1)
    /\ etapa_cep db e1 o1 = Ok (e2, o2)
    /\ parsear_endereco db endereco_bruto = Ok e
    /\ cep e1 = []
    /\ cep e = cep e2
    /\ bairro e = bairro (etapa_logradouro db e2 o2).1.
Proof using Type.
  intros original.
  destruct (etapa_cidade_total (endereco_novo original) original)
    as (e1 & o1 & H1 & Hc1).
  assert (exists e2 o2, etapa_cep db e1 o1 = Ok (e2, o2)) as (e2 & o2 & H2).
  { pose proof (etapa_cep_spec e1 o1) as H.
    destruct (re_search db IGNORECASE o1 PatEnd.CEP);
      [destruct H as (? & ? & ? & _ & ? & _)|]; eauto. }
  destruct (etapa_logradouro db e2 o2) as [e3 lb] eqn:H3.
  destruct (etapa_numero_preserva e3 lb) as (e & He & Hc & Hb).
  exists e1, o1, e2, o2, e.
  split; [exact H1|]. split; [exact H2|]. split.
  { unfold parsear_endereco. fold original.
    rewrite H1, result_bind_ok, H2, result_bind_ok, H3. exact He. }
  split; [exact Hc1|].
  replace e3 with (etapa_logradouro db e2 o2).1 in Hc, Hb
    by (rewrite H3; reflexivity).
  split; [|exact Hb].
  rewrite Hc. unfold etapa_logradouro. apply bairro_se_vazio_cep.
Qed.

End EnderecoFacts.

(** * [re.sub] for patterns whose match at a position is determined by the
    text that starts there *)

Lemma skipn_cons_nth (s : str) (pos : nat) (c : N) :
  nth_error s pos = Some c -> skipn pos s = c :: skipn (S pos) s.
Proof.
  intros H. apply nth_error_split in H as (l1 & l2 & -> & <-).
  rewrite drop_app_length.
  replace (S (length l1)) with (length (l1 ++ [c]))
    by (rewrite length_app; simpl; lia).
  by rewrite (cons_middle c l1 l2), app_assoc, drop_app_length.
Qed.

Section Substituicao.
Variable db : unicode_db.
Variable fl : flags.
Variable s : str.
Variable r : regex.
Variable rep : str.

(** [stepl l]: the length of the match of [r] at the start of [l]. *)
Variable stepl : str -> option nat.

Hypothesis Hstepl :
  forall l n, stepl l = Some n -> (1 <= n <= length l)%nat.
Hypothesis Hmatch :
  forall start adv, (start <= length s)%nat ->
    match_at db fl s r start adv
    = option_map (fun n => {| m_start := start; m_end := start + n;
                              m_caps := [] |})
                 (stepl (skipn start s)).

Lemma trocar_fuel (k : nat) :
  forall l f1 f2,
    (length l <= k)%nat -> (length l < f1)%nat -> (length l < f2)%nat ->
    trocar rep stepl f1 l = trocar rep stepl f2 l.
Proof using Hstepl.
  induction k as [k IH] using lt_wf_ind. intros l f1 f2 Hk H1 H2.
  destruct f1 as [|f1]; [lia|]. destruct f2 as [|f2]; [lia|]. simpl.
  destruct (stepl l) as [n|] eqn:E.
  - apply Hstepl in E. f_equal.
    apply (IH (length (skipn n l))); rewrite ?length_drop; lia.
  - destruct l as [|c t]; [done|]. simpl in *. f_equal.
    apply (IH (length t)); lia.
Qed.

Lemma trocar_pula (d : nat) :
  forall pos fuel,
    (forall i, (pos <= i < pos + d)%nat -> stepl (skipn i s) = None) ->
    (pos + d <= length s)%nat -> (d <= fuel)%nat ->
    trocar rep stepl fuel (skipn pos s)
    = slice s pos (pos + d) ++ trocar rep stepl (fuel - d) (skipn (pos + d) s).
Proof.
  induction d as [|d IH]; intros pos fuel Hnone Hlen Hfuel.
  - by rewrite Nat.add_0_r, slice_nil, Nat.sub_0_r.
  - destruct fuel as [|f]; [lia|]. simpl trocar at 1.
    rewrite (Hnone pos) by lia.
    destruct (nth_error s pos) as [c|] eqn:Hc.
    2: { apply nth_error_None in Hc. lia. }
    rewrite (skipn_cons_nth s pos c Hc).
    rewrite (slice_split s pos (S pos) (pos + S d)) by lia.
    rewrite (slice_one s pos c Hc). simpl.
    f_equal. rewrite (IH (S pos) f); [| |lia|lia].
    + by replace (S pos + d)%nat with (pos + S d)%nat by lia.
    + intros i Hi. apply Hnone. lia.
Qed.

Lemma search_go_det (n : nat) :
  forall start adv,
    (start + n = S (length s))%nat ->
    match search_go db fl s r n start adv with
    | Some m =>
        exists p k,
          m = {| m_start := p; m_end := p + k; m_caps := [] |}
          /\ (start <= p <= length s)%nat
          /\ stepl (skipn p s) = Some k
          /\ (forall i, (start <= i < p)%nat -> stepl (skipn i s) = None)
    | None =>
        forall i, (start <= i <= length s)%nat -> stepl (skipn i s) = None
    end.
Proof using Hmatch.
  induction n as [|n IH]; intros start adv Hn.
  - simpl. intros i Hi. lia.
  - simpl. rewrite Hmatch by lia.
    destruct (stepl (skipn start s)) as [k|] eqn:E; simpl.
    + exists start, k. split; [done|]. split; [lia|]. split; [done|].
      intros i Hi. lia.
    + specialize (IH (S start) false ltac:(lia)).
      destruct (search_go db fl s r n (S start) false) as [m|].
      * destruct IH as (p & k & -> & Hp & Hk & Hnone).
        exists p, k. split; [done|]. split; [lia|]. split; [done|].
        intros i Hi. destruct (Nat.eq_dec i start) as [->|]; [done|].
        apply Hnone. lia.
      * intros i Hi. destruct (Nat.eq_dec i start) as [->|]; [done|].
        apply IH. lia.
Qed.

Lemma sub_go_det (k : nat) :
  forall pos fuel adv,
    (length s - pos <= k)%nat -> (pos <= length s)%nat -> (k < fuel)%nat ->
    sub_go s (fun _ => rep) (finditer_go db fl s r fuel pos adv) pos
    = trocar rep stepl (S k) (skipn pos s).
Proof using Hmatch Hstepl.
  induction k as [k IH] using lt_wf_ind. intros pos fuel adv Hk Hpos Hfuel.
  destruct fuel as [|fuel]; [lia|]. cbn [finditer_go]. unfold search_from.
  pose proof (search_go_det (S (length s) - pos) pos adv ltac:(lia)) as Hs.
  destruct (search_go db fl s r (S (length s) - pos) pos adv) as [m|].
  - destruct Hs as (p & n & -> & Hp & Hn & Hnone).
    pose proof (Hstepl _ _ Hn) as Hb. rewrite length_drop in Hb.
    cbn [sub_go m_start m_end].
    rewrite (IH (length s - (p + n))%nat) by lia.
    replace p with (pos + (p - pos))%nat in Hnone by lia.
    rewrite (trocar_pula (p - pos) pos (S k) Hnone) by lia.
    replace (pos + (p - pos))%nat with p by lia.
    f_equal.
    set (resto := trocar rep stepl (S (length s - (p + n))) (skipn (p + n) s)).
    destruct (S k - (p - pos))%nat as [|f] eqn:Ef; [lia|].
    cbn [trocar]. rewrite Hn. f_equal.
    rewrite drop_drop. subst resto.
    apply (trocar_fuel (length s - (p + n))%nat);
      rewrite length_drop; lia.
  - cbn [sub_go].
    rewrite (trocar_pula (length s - pos) pos (S k)); [| |lia|lia].
    + replace (pos + (length s - pos))%nat with (length s) by lia.
      rewrite drop_all.
      destruct (S k - (length s - pos))%nat as [|f] eqn:Ef; [lia|].
      cbn [trocar].
      assert (E : stepl [] = None).
      { destruct (stepl []) as [n|] eqn:E; [|done].
        apply Hstepl in E. simpl in E. lia. }
      rewrite E. by rewrite app_nil_r.
    + intros i Hi. apply Hs. lia.
Qed.

Lemma re_sub_det : re_sub db fl s r rep = trocar rep stepl (S (length s)) s.
Proof using Hmatch Hstepl.
  unfold re_sub, re_sub_with, re_finditer.
  by rewrite (sub_go_det (length s)) by lia.
Qed.

End Substituicao.

Lemma hd_skipn_nth (s : str) (pos : nat) :
  nth_error s pos = match skipn pos s with c :: _ => Some c | [] => None end.
Proof.
  destruct (nth_error s pos) as [c|] eqn:E.
  - by rewrite (skipn_cons_nth s pos c E).
  - apply nth_error_None in E. by rewrite drop_ge.
Qed.

Lemma corrida_le (p : N -> bool) (l : str) : (corrida p l <= length l)%nat.
Proof. induction l as [|c t IH]; simpl; [lia|]. destruct (p c); lia. Qed.

Lemma colapsar_go_dentro (p : N -> bool) (rep l : str) :
  colapsar_go p rep true l = colapsar_go p rep false (skipn (corrida p l) l).
Proof.
  induction l as [|c t IH]; [done|]. simpl.
  destruct (p c) eqn:E; simpl; [exact IH | by rewrite E].
Qed.

(** *** One character of a set, and a greedy run of them *)

Section Conjuntos.
Variable db : unicode_db.
Variable fl : flags.
Variable neg : bool.
Variable items : list citem.

Local Abbreviation in_set := (set_match db fl neg items).

Local Abbreviation passo_um := (passo_um in_set).
Local Abbreviation passo_corrida := (passo_corrida in_set).

Lemma passo_um_limites l n :
  passo_um l = Some n -> (1 <= n <= length l)%nat.
Proof.
  destruct l as [|c t]; [done|]. simpl.
  destruct (in_set c); [|done]. intros [= <-]. lia.
Qed.

Lemma passo_corrida_limites l n :
  passo_corrida l = Some n -> (1 <= n <= length l)%nat.
Proof.
  unfold passo_corrida. pose proof (corrida_le in_set l).
  destruct (corrida in_set l); [done|]. intros [= <-]. lia.
Qed.

Lemma match_at_um (s : str) start adv :
  match_at db fl s (RSet neg items) start adv
  = option_map (fun n => {| m_start := start; m_end := start + n;
                            m_caps := [] |})
               (passo_um (skipn start s)).
Proof.
  rewrite match_at_set, hd_skipn_nth. unfold passo_um.
  destruct (skipn start s) as [|c t]; [done|].
  destruct (in_set c); [|done]. simpl. by rewrite Nat.add_1_r.
Qed.

Lemma trocar_um (rep : str) (l : str) :
  forall fuel, (length l < fuel)%nat ->
    trocar rep passo_um fuel l
    = flat_map (fun c => if in_set c then rep else [c]) l.
Proof.
  induction l as [|c t IH]; intros [|f] Hf; simpl in *; try lia; [done|].
  destruct (in_set c); simpl; f_equal; apply IH; lia.
Qed.

(** [re.sub] of a one-character set by any text. *)
Lemma re_sub_um (s rep : str) :
  re_sub db fl s (RSet neg items) rep
  = flat_map (fun c => if in_set c then rep else [c]) s.
Proof.
  rewrite (re_sub_det db fl s (RSet neg items) rep passo_um).
  - apply trocar_um. lia.
  - apply passo_um_limites.
  - intros start adv _. apply match_at_um.
Qed.

Lemma rep_loop_corrida (s : str) (start : nat) (adv : bool) :
  forall fuel cnt c,
    (length s - (start + cnt) < fuel)%nat ->
    rep_loop (exec db fl s (RSet neg items)) true 1 None
      (fun j c' => if adv && (j =? start)%nat then None else Some (j, c'))
      fuel cnt (start + cnt) c
    = if (1 <=? cnt + corrida in_set (skipn (start + cnt) s))%nat
      then Some (start + cnt + corrida in_set (skipn (start + cnt) s), c)%nat
      else None.
Proof.
  induction fuel as [|f IH]; intros cnt c Hf; [lia|].
  cbn [rep_loop below exec].
  rewrite hd_skipn_nth.
  destruct (skipn (start + cnt) s) as [|ch t] eqn:Es.
  - cbn [corrida]. rewrite !Nat.add_0_r.
    destruct cnt as [|cnt]; [done|].
    replace (start + S cnt =? start)%nat with false
      by (symmetry; apply Nat.eqb_neq; lia).
    by rewrite andb_false_r.
  - assert (Et : t = skipn (start + S cnt) s).
    { replace (start + S cnt)%nat with ((start + cnt) + 1)%nat by lia.
      by rewrite <- drop_drop, Es. }
    cbn [corrida]. destruct (in_set ch) eqn:Ein.
    + replace (start + cnt <? S (start + cnt))%nat with true
        by (symmetry; apply Nat.ltb_lt; lia).
      replace (S (start + cnt)) with (start + S cnt)%nat by lia.
      rewrite IH. 2: { assert (length (skipn (start + cnt) s) <> 0)%nat
                         by (by rewrite Es).
                       rewrite length_drop in *. lia. }
      rewrite <- Et.
      replace (1 <=? S cnt + corrida in_set t)%nat with true
        by (symmetry; apply Nat.leb_le; lia).
      replace (1 <=? cnt + S (corrida in_set t))%nat with true
        by (symmetry; apply Nat.leb_le; lia).
      do 2 f_equal. lia.
    + rewrite !Nat.add_0_r.
      destruct cnt as [|cnt]; [done|].
      replace (start + S cnt =? start)%nat with false
        by (symmetry; apply Nat.eqb_neq; lia).
      by rewrite andb_false_r.
Qed.

Lemma match_at_corrida (s : str) start adv :
  match_at db fl s (RRep true 1 None (RSet neg items)) start adv
  = option_map (fun n => {| m_start := start; m_end := start + n;
                            m_caps := [] |})
               (passo_corrida (skipn start s)).
Proof.
  unfold match_at.
  change (exec db fl s (RRep true 1 None (RSet neg items)) start [])
    with (fun k => rep_loop (exec db fl s (RSet neg items)) true 1 None k
                     (S (length s)) 0 start []).
  cbv beta.
  pose proof (rep_loop_corrida s start adv (S (length s)) 0 [] ltac:(lia)) as H.
  rewrite Nat.add_0_r in H. rewrite H. unfold passo_corrida.
  destruct (corrida in_set (skipn start s)); [done|]. reflexivity.
Qed.

Lemma trocar_corrida (rep : str) (k : nat) :
  forall l fuel, (length l <= k)%nat -> (length l < fuel)%nat ->
    trocar rep passo_corrida fuel l = colapsar in_set rep l.
Proof.
  induction k as [k IH] using lt_wf_ind. intros l [|f] Hk Hf; [lia|].
  cbn [trocar]. unfold passo_corrida, colapsar.
  destruct l as [|c t]; [done|]. cbn [corrida colapsar_go].
  destruct (in_set c) eqn:E.
  - f_equal. rewrite colapsar_go_dentro. cbn [skipn].
    pose proof (corrida_le in_set t).
    apply (IH (length (skipn (corrida in_set t) t)));
      rewrite ?length_drop; simpl in *; lia.
  - f_equal. apply (IH (length t)); simpl in *; lia.
Qed.

(** [re.sub] of a greedy run of one or more characters of a set. *)
Lemma re_sub_corrida (s rep : str) :
  re_sub db fl s (RRep true 1 None (RSet neg items)) rep
  = colapsar in_set rep s.
Proof.
  rewrite (re_sub_det db fl s _ rep passo_corrida).
  - by apply (trocar_corrida rep (length s)); lia.
  - apply passo_corrida_limites.
  - intros start adv _. apply match_at_corrida.
Qed.

End Conjuntos.

(** * The district of [parsear_endereco], stage by stage *)

Section BairroEtapas.
Variable db : unicode_db.

Lemma bairro_se_vazio_primeiro (c : list str) (v : str)
    (e : EnderecoEstruturado) :
  bairro (bairro_se_vazio c v e)
  = primeiro_nao_vazio [bairro e; match c with [] => [] | _ => v end].
Proof.
  unfold bairro_se_vazio. destruct c as [|x c], (bairro e) as [|b bs] eqn:E;
    cbn [primeiro_nao_vazio bairro set_bairro]; rewrite ?E;
    try reflexivity.
  by destruct v.
Qed.

Lemma group_de_grupo_certo (s : str) (m : re_match) (n : nat) (g : str) :
  group s m n = Ok g -> group_or_empty s m n = g.
Proof.
  unfold group, group_or_empty. destruct (m_group s m n); [|discriminate].
  by intros [= ->].
Qed.

(** The first stage: what it leaves and the district it writes. *)
Lemma etapa_cidade_bairro (e : EnderecoEstruturado) (original : str) :
  exists e1,
    etapa_cidade db e original = Ok (e1, resto_cidade db original)
    /\ bairro e1 = primeiro_nao_vazio [bairro e; bairro_da_cidade db original].
Proof.
  unfold etapa_cidade, resto_cidade, bairro_da_cidade, bairros_cid.
  destruct (re_search db IGNORECASE original PatEnd.CIDADE_UF) as [m|] eqn:E.
  - apply re_search_sound in E as [Hok _].
    destruct (group_sure _ _ _ _ m 1 Hok ltac:(sure_group)) as [g1 Hg1].
    destruct (group_sure _ _ _ _ m 2 Hok ltac:(sure_group)) as [g2 Hg2].
    rewrite Hg1, Hg2, !result_bind_ok.
    rewrite (group_de_grupo_certo _ _ _ _ Hg1). cbv zeta.
    eexists. split; [reflexivity|].
    rewrite bairro_se_vazio_primeiro. cbn [bairro set_uf set_municipio].
    by destruct (removelast _).
  - exists e. split; [reflexivity|].
    cbn [primeiro_nao_vazio]. by destruct (bairro e).
Qed.

(** The postal code stage. *)
Lemma etapa_cep_bairro (e : EnderecoEstruturado) (original : str) :
  exists e2,
    etapa_cep db e original = Ok (e2, resto_cep db original)
    /\ bairro e2 = primeiro_nao_vazio [bairro e; bairro_apos_cep db original].
Proof.
  unfold etapa_cep, resto_cep, bairro_apos_cep, bairro_pos.
  destruct (re_search db IGNORECASE original PatEnd.CEP) as [m|] eqn:E.
  - apply re_search_sound in E as [Hok _].
    destruct (group_sure _ _ _ _ m 1 Hok ltac:(sure_group)) as [g1 Hg1].
    rewrite Hg1, !result_bind_ok. cbv zeta.
    destruct (str_strip_chars (py " -,")
                (slice original (m_end m) (length original))) as [|c t].
    + eexists. split; [reflexivity|].
      cbn [bairro set_cep primeiro_nao_vazio]. by destruct (bairro e).
    + eexists. split; [reflexivity|].
      rewrite bairro_se_vazio_primeiro. cbn [bairro set_cep].
      by destruct (List.filter _ _).
  - exists e. split; [reflexivity|].
    cbn [primeiro_nao_vazio]. by destruct (bairro e).
Qed.

(** The hyphen stage. *)
Lemma etapa_logradouro_bairro (e : EnderecoEstruturado) (original : str) :
  bairro (etapa_logradouro db e original).1
  = primeiro_nao_vazio [bairro e; bairro_dos_hifens db original].
Proof.
  unfold etapa_logradouro, bairro_dos_hifens. cbn [fst].
  rewrite bairro_se_vazio_primeiro. by destruct (bairro_candidatos db original).
Qed.

Lemma primeiro_nao_vazio_cons (x : str) (l : list str) :
  primeiro_nao_vazio (primeiro_nao_vazio [x] :: l)
  = primeiro_nao_vazio (x :: l).
Proof. by destruct x. Qed.

Lemma primeiro_nao_vazio_app (a b : list str) :
  primeiro_nao_vazio (primeiro_nao_vazio a :: b) = primeiro_nao_vazio (a ++ b).
Proof.
  induction a as [|x a IH]; [reflexivity|].
  destruct x as [|c t]; [exact IH | reflexivity].
Qed.

End BairroEtapas.

(** * The alphabet of a pattern *)

Section Alfabeto.
Variable db : unicode_db.
Variable fl : flags.
Variable s : str.
Variable P : N -> Prop.

(** What a pattern matches is written in the alphabet of its classes. *)
Lemma rmatch_alfabeto (r : regex) :
  alfabeto db fl P r ->
  forall i j, rmatch db fl s r i j -> Forall P (slice s i j).
Proof.
  induction r as [ | neg items | | r1 IH1 r2 IH2 | r1 IH1 r2 IH2
                 | greedy lo hi r' IH | n r' IH | | | ];
    intros Ha i j Hm; simpl in Ha, Hm.
  - subst j. rewrite slice_nil. constructor.
  - destruct Hm as (ch & Hn & Hs & ->). rewrite (slice_one s i ch Hn).
    constructor; [by apply Ha | constructor].
  - destruct Hm as (ch & Hn & Hs & ->). rewrite (slice_one s i ch Hn).
    constructor; [by apply Ha | constructor].
  - destruct Ha as [Ha1 Ha2]. destruct Hm as (m & H1 & H2).
    pose proof (rmatch_bounds db fl s r1 i m H1) as [B1 _].
    pose proof (rmatch_bounds db fl s r2 m j H2) as [B2 _].
    rewrite (slice_split s i m j) by lia.
    apply Forall_app. split; [by apply IH1 | by apply IH2].
  - destruct Ha as [Ha1 Ha2]. destruct Hm as [Hm|Hm]; [by apply IH1 | by apply IH2].
  - destruct Hm as (n & l & Hit & _ & _).
    induction Hit as [i | n i j k l1 l2 Hm Hlt Hit IHit].
    + rewrite slice_nil. constructor.
    + pose proof (iter_count db fl s r' _ _ _ _ Hit) as [Hjk _].
      rewrite (slice_split s i j k) by lia.
      apply Forall_app. split; [by apply IH | exact IHit].
  - by apply IH.
  - destruct Hm as [_ ->]. rewrite slice_nil. constructor.
  - destruct Hm as [_ ->]. rewrite slice_nil. constructor.
  - destruct Hm as [_ ->]. rewrite slice_nil. constructor.
Qed.

End Alfabeto.

(** ** More on the stages of [parsear_endereco] *)

Section EnderecoCampos.
Variable db : unicode_db.

Lemma bairro_se_vazio_fixos c v e : mesmos_fixos e (bairro_se_vazio c v e).
Proof. unfold bairro_se_vazio. by destruct c, (bairro e). Qed.

Lemma bairro_se_vazio_numero c v e : numero (bairro_se_vazio c v e) = numero e.
Proof. unfold bairro_se_vazio. by destruct c, (bairro e). Qed.

Lemma etapa_cidade_campos e original :
  exists e1 o1,
    etapa_cidade db e original = Ok (e1, o1)
    /\ cep e1 = cep e /\ mesmos_fixos e e1.
Proof.
  unfold etapa_cidade.
  destruct (re_search db IGNORECASE original PatEnd.CIDADE_UF) as [m|] eqn:E.
  2: { eexists _, _. by repeat split. }
  apply re_search_sound in E as [Hok _].
  destruct (group_sure _ _ _ _ m 1 Hok ltac:(sure_group)) as [g1 ->].
  destruct (group_sure _ _ _ _ m 2 Hok ltac:(sure_group)) as [g2 ->].
  rewrite !result_bind_ok. eexists _, _. split; [reflexivity|].
  split; [by rewrite bairro_se_vazio_cep|].
  match goal with
  | |- mesmos_fixos _ (bairro_se_vazio ?c ?v ?x) =>
      destruct (bairro_se_vazio_fixos c v x) as [Hp Ho]
  end.
  split; [exact (eq_trans Hp eq_refl) | exact (eq_trans Ho eq_refl)].
Qed.

Lemma etapa_cep_campos e original :
  exists e2 o2,
    etapa_cep db e original = Ok (e2, o2)
    /\ mesmos_fixos e e2
    /\ (cep e2 = cep e
        \/ (length (cep e2) = 8%nat
            /\ Forall (fun c => isdecimal db c = true) (cep e2))).
Proof.
  pose proof (etapa_cep_spec db e original) as Hspec.
  destruct (re_search db IGNORECASE original PatEnd.CEP) as [m|] eqn:E.
  2: { eexists _, _. split; [exact Hspec|]. split; [by split | by left]. }
  destruct Hspec as (g & e2 & o2 & _ & H2 & _ & Hlen & Hdig).
  exists e2, o2. split; [exact H2|]. split; [|by right].
  unfold etapa_cep in H2. rewrite E in H2.
  destruct (group original m 1) as [g1|]; [|discriminate H2].
  rewrite result_bind_ok in H2.
  destruct (str_strip_chars _ _); injection H2 as <- _; [by split|].
  match goal with
  | |- mesmos_fixos _ (bairro_se_vazio ?c ?v ?x) =>
      destruct (bairro_se_vazio_fixos c v x) as [Hp Ho]
  end.
  split; [exact (eq_trans Hp eq_refl) | exact (eq_trans Ho eq_refl)].
Qed.

Lemma etapa_numero_campos e logradouro_bruto :
  exists e', etapa_numero db e logradouro_bruto = Ok e'
             /\ cep e' = cep e /\ mesmos_fixos e e' /\ numero e' <> [].
Proof.
  unfold etapa_numero.
  set (segmentos := map (str_strip db) _).
  set (seg0 := match segmentos with [] => [] | x :: _ => x end).
  assert (exists e1,
    match re_match_start db IGNORECASE seg0 PatEnd._RE_TIPO with
    | Some m_tipo =>
        g1 ← group seg0 m_tipo 1;
        Ok (set_logradouro
              (str_title db
                 (str_strip db (slice seg0 (m_end m_tipo) (length seg0))))
              (set_tipo_logradouro
                 (str_rstrip_chars (py ".") (str_upper db g1)) e))
    | None =>
        Ok (set_logradouro (str_title db (str_strip db seg0))
              (set_tipo_logradouro (py "RUA") e))
    end = Ok e1 /\ cep e1 = cep e /\ mesmos_fixos e e1) as (e1 & -> & Hc & Hf).
  { destruct (re_match_start db IGNORECASE seg0 PatEnd._RE_TIPO) as [m|] eqn:E.
    2: { eexists. by repeat split. }
    apply re_match_start_sound in E.
    destruct (group_sure _ _ _ _ m 1 E ltac:(sure_group)) as [g1 ->].
    rewrite result_bind_ok. eexists. by repeat split. }
  rewrite result_bind_ok.
  match goal with
  | |- exists e', Ok (match numero ?e2 with _ => _ end) = _ /\ _ =>
      assert (cep e2 = cep e /\ mesmos_fixos e e2) as [Hc2 [Hp2 Ho2]];
        [|destruct (numero e2) eqn:En; eexists; (split; [reflexivity|]);
          (split; [exact Hc2|]); (split; [by split|]);
          [vm_compute; discriminate | by rewrite En]]
  end.
  destruct Hf as [Hp Ho].
  destruct segmentos as [|? [|s1 resto]]; [by repeat split..|].
  destruct (re_match_start db IGNORECASE (str_strip db s1) PatEnd.NUMERO_CASA);
    [destruct resto|]; by repeat split.
Qed.

(** What every parsed address satisfies: the function returns, the number
    is not empty, the country and the normalised original text are those
    of the start, and the postal code is empty or made of eight decimal
    digits. *)
Lemma parsear_endereco_campos endereco_bruto :
  exists e,
    parsear_endereco db endereco_bruto = Ok e
    /\ numero e <> []
    /\ pais e = py "BR"
    /\ endereco_original e = normalizar_endereco db endereco_bruto
    /\ (cep e = []
        \/ (length (cep e) = 8%nat
            /\ Forall (fun c => isdecimal db c = true) (cep e))).
Proof.
  unfold parsear_endereco.
  set (original := normalizar_endereco db endereco_bruto).
  destruct (etapa_cidade_campos (endereco_novo original) original)
    as (e1 & o1 & -> & Hc1 & Hp1 & Ho1).
  rewrite result_bind_ok.
  destruct (etapa_cep_campos e1 o1) as (e2 & o2 & -> & [Hp2 Ho2] & Hc2).
  rewrite result_bind_ok.
  destruct (etapa_logradouro db e2 o2) as [e3 lb] eqn:H3.
  assert (cep e3 = cep e2 /\ mesmos_fixos e2 e3) as [Hc3 [Hp3 Ho3]].
  { unfold etapa_logradouro in H3. injection H3 as <- _.
    split; [apply bairro_se_vazio_cep | apply bairro_se_vazio_fixos]. }
  destruct (etapa_numero_campos e3 lb) as (e & -> & Hc & [Hp Ho] & Hn).
  exists e. split; [reflexivity|]. split; [exact Hn|].
  split; [by rewrite Hp, Hp3, Hp2, Hp1|].
  split; [by rewrite Ho, Ho3, Ho2, Ho1|].
  rewrite Hc, Hc3. destruct Hc2 as [->|H8]; [left; by rewrite Hc1 | by right].
Qed.

End EnderecoCampos.

Section Normalizacao.
Variable db : unicode_db.

Lemma colapsar_go_ext (p q : N -> bool) (rep l : str) :
  (forall c, p c = q c) ->
  forall dentro, colapsar_go p rep dentro l = colapsar_go q rep dentro l.
Proof.
  intros H. induction l as [|c t IH]; intros dentro; [done|].
  simpl. rewrite H. destruct (q c); by rewrite IH.
Qed.

Lemma espaco_e_isspace (fl : flags) (c : N) :
  set_match db fl false [CCat CatSpace] c = isspace db c.
Proof. unfold set_match. simpl. by rewrite orb_false_r. Qed.

(** [re.sub(r'\s+', ' ', s)] replaces each run of white space by one
    space. *)
Lemma re_sub_espacos (s : str) :
  re_sub db NOFLAGS s (RRep true 1 None (RSet false [CCat CatSpace])) [32]
  = colapsar (isspace db) [32] s.
Proof.
  rewrite re_sub_corrida. unfold colapsar.
  apply colapsar_go_ext. intros c. apply espaco_e_isspace.
Qed.

Lemma normalizar_endereco_colapsa (s : str) :
  normalizar_endereco db s = str_strip db (colapsar (isspace db) [32] s).
Proof.
  unfold normalizar_endereco.
  change PatEnd.ESPACOS with (RRep true 1 None (RSet false [CCat CatSpace])).
  change (py " ") with [32].
  by rewrite re_sub_espacos.
Qed.

Lemma colapsar_go_In (p : N -> bool) (rep l : str) (c : N) :
  forall dentro,
    In c (colapsar_go p rep dentro l) ->
    In c rep \/ (In c l /\ p c = false).
Proof.
  induction l as [|x t IH]; intros dentro; simpl; [done|].
  destruct (p x) eqn:E.
  - intros [H|H]%in_app_or.
    + destruct dentro; [done | by left].
    + destruct (IH true H) as [?|[? ?]]; [by left | right; by split; [right|]].
  - intros [<-|H].
    + right. split; [by left | exact E].
    + destruct (IH false H) as [?|[? ?]]; [by left | right; by split; [right|]].
Qed.

Lemma normalizar_endereco_em_branco (s : str) :
  str_strip db s = [] -> normalizar_endereco db s = [].
Proof.
  intros H. apply strip_by_nil in H.
  rewrite normalizar_endereco_colapsa. apply strip_by_nil.
  apply List.Forall_forall. intros c Hc.
  apply colapsar_go_In in Hc as [[<-|[]]|[Hin Hs]]; [reflexivity|].
  rewrite List.Forall_forall in H. rewrite (H c Hin) in Hs. discriminate Hs.
Qed.

Lemma normalizar_endereco_forma (s : str) :
  let o := normalizar_endereco db s in
  espacos_simples db o
  /\ (forall c t, o = c :: t -> isspace db c = false)
  /\ (forall t c, o = t ++ [c] -> isspace db c = false).
Proof.
  intros o. subst o. rewrite normalizar_endereco_colapsa.
  unfold str_strip.
  destruct (strip_by_spec (isspace db) (colapsar (isspace db) [32] s))
    as (a & b & Hl & _ & _ & Hf & Hu).
  split; [|by split].
  apply (espacos_simples_trecho db a _ b). rewrite <- Hl.
  apply colapsar_espacos_simples.
Qed.

End Normalizacao.

(** * The shape of what [extrair_dados_certidao] extracts *)

Lemma foldM_preserva_em {A S : Type} (f : S -> A -> result S)
    (I : S -> Prop) (Q : A -> Prop) (l : list A) :
  (forall st x st', Q x -> f st x = Ok st' -> I st -> I st') ->
  Forall Q l ->
  forall st st', foldM f l st = Ok st' -> I st -> I st'.
Proof.
  intros Hf Hl. induction Hl as [|x l Hx _ IH]; intros st st' H Hst;
    simpl in H.
  - by injection H as <-.
  - destruct (f st x) as [st1|] eqn:E; [|discriminate H].
    apply (IH st1 st' H). by apply (Hf st x).
Qed.

Section CertidaoFormas.
Variable db : unicode_db.

Lemma str_strip_Forall (P : N -> Prop) (l : str) :
  Forall P l -> Forall P (str_strip db l).
Proof.
  intros H. unfold str_strip.
  destruct (strip_by_spec (isspace db) l) as (a & b & Hl & _).
  rewrite Hl in H. apply Forall_app in H as [_ H].
  by apply Forall_app in H as [H _].
Qed.

Lemma set_digito (fl : flags) (c : N) :
  set_match db fl false [CCat CatDigit] c = true -> isdecimal db c = true.
Proof. unfold set_match. simpl. by rewrite orb_false_r. Qed.

Lemma set_barra (fl : flags) (c : N) :
  set_match db fl false [CLit 47] c = true -> c = 47.
Proof.
  unfold set_match. simpl. rewrite orb_false_r.
  replace (lit_match db fl 47 c) with (c =? 47) by (destruct fl as [[] ?]; reflexivity).
  apply N.eqb_eq.
Qed.

Lemma set_doc (fl : flags) (c : N) :
  set_match db fl false [CCat CatDigit; CLit 46; CLit 47; CLit 45] c = true ->
  char_doc db c.
Proof.
  unfold set_match, char_doc. simpl. rewrite orb_false_r.
  replace (lit_match db fl 46 c) with (c =? 46) by (destruct fl as [[] ?]; reflexivity).
  replace (lit_match db fl 47 c) with (c =? 47) by (destruct fl as [[] ?]; reflexivity).
  replace (lit_match db fl 45 c) with (c =? 45) by (destruct fl as [[] ?]; reflexivity).
  intros H. repeat (apply orb_prop in H as [H|H]); rewrite ?N.eqb_eq in H; auto.
Qed.

(** The third group of the patterns of the parties holds digits, dots,
    slashes and hyphens only. *)
Lemma grupo_doc (s : str) (pat : regex) (m : re_match) (g3 : str) :
  pat = Pat.padrao \/ pat = Pat.padrao_lista ->
  match_ok db IGNORECASE s pat m ->
  group s m 3 = Ok g3 ->
  Forall (char_doc db) g3.
Proof.
  intros Hpat Hok Hg.
  destruct (group_matches _ _ _ _ m 3 g3 Hok ltac:(done) Hg)
    as (r' & a & b & Hin & Hm & ->).
  assert (Hr' : r' = RRep true 1 None
                       (RSet false [CCat CatDigit; CLit 46; CLit 47; CLit 45])).
  { destruct Hpat as [-> | ->]; vm_compute in Hin;
      repeat destruct Hin as [[= <-]|Hin]; try reflexivity; by destruct Hin. }
  subst r'. apply rmatch_rep_set_slice in Hm as (_ & _ & Hf).
  eapply Forall_impl; [exact Hf|]. intros c. apply set_doc.
Qed.

(** A property of the entries that the three tiers append holds of every
    entry of the list. *)
Section ResponsaveisInvariante.
Variable I : Responsavel -> Prop.
Hypothesis I_entrada :
  forall texto_flat s pat m g3 ac nm td,
    pat = Pat.padrao \/ pat = Pat.padrao_lista ->
    match_ok db IGNORECASE s pat m ->
    group s m 3 = Ok g3 ->
    _buscar_acordao_por_doc db texto_flat (str_strip db g3) = Ok ac ->
    I {| nome := nm; tipo_doc := td; numero_doc := str_strip db g3;
         acordao := ac; excluido := false |}.

Lemma passo_primario_inv texto_flat trecho st m st' :
  match_ok db IGNORECASE trecho Pat.padrao m ->
  passo_primario db texto_flat trecho st m = Ok st' ->
  Forall I st.2 -> Forall I st'.2.
Proof using I_entrada.
  intros Hok H Hst. destruct st as [vistos resp]. unfold passo_primario in H.
  destruct (group trecho m 1) as [g1|]; [|discriminate H].
  rewrite result_bind_ok in H.
  destruct (group trecho m 2) as [g2|]; [|discriminate H].
  rewrite result_bind_ok in H.
  destruct (group trecho m 3) as [g3|] eqn:Hg3; [|discriminate H].
  rewrite result_bind_ok in H.
  case_bool_decide; [by injection H as <-|].
  destruct (_buscar_acordao_por_doc db texto_flat (str_strip db g3))
    as [ac|] eqn:Eac; [|discriminate H].
  rewrite result_bind_ok in H. injection H as <-. simpl.
  apply Forall_app. split; [exact Hst|]. constructor; [|constructor].
  apply (I_entrada texto_flat trecho Pat.padrao m g3 ac);
    [by left | exact Hok | exact Hg3 | exact Eac].
Qed.

Lemma passo_fallback_inv limpar texto_flat pat st m st' :
  pat = Pat.padrao \/ pat = Pat.padrao_lista ->
  match_ok db IGNORECASE texto_flat pat m ->
  passo_fallback db limpar texto_flat st m = Ok st' ->
  Forall I st.2 -> Forall I st'.2.
Proof using I_entrada.
  intros Hpat Hok H Hst. destruct st as [vistos resp].
  unfold passo_fallback in H.
  destruct (group texto_flat m 3) as [g3|] eqn:Hg3; [|discriminate H].
  rewrite result_bind_ok in H.
  case_bool_decide; [by injection H as <-|].
  destruct (excluido_apos db texto_flat m); [by injection H as <-|].
  destruct (group texto_flat m 1) as [g1|]; [|discriminate H].
  rewrite result_bind_ok in H.
  destruct (_buscar_acordao_por_doc db texto_flat (str_strip db g3))
    as [ac|] eqn:Eac; [|discriminate H].
  rewrite result_bind_ok in H.
  destruct (group texto_flat m 2) as [g2|]; [|discriminate H].
  rewrite result_bind_ok in H. injection H as <-. simpl.
  apply Forall_app. split; [exact Hst|]. constructor; [|constructor].
  apply (I_entrada texto_flat texto_flat pat m g3 ac);
    [exact Hpat | exact Hok | exact Hg3 | exact Eac].
Qed.

Lemma extrair_responsaveis_inv texto_flat rs :
  extrair_responsaveis db texto_flat = Ok rs -> Forall I rs.
Proof using I_entrada.
  unfold extrair_responsaveis. intros H.
  destruct (tier_primario db texto_flat) as [st1|] eqn:E1; [|discriminate H].
  rewrite result_bind_ok in H.
  destruct (tier_fallback_a db texto_flat st1) as [st2|] eqn:E2;
    [|discriminate H].
  rewrite result_bind_ok in H.
  destruct (tier_fallback_c db texto_flat st2) as [st3|] eqn:E3;
    [|discriminate H].
  rewrite result_bind_ok in H. injection H as <-.
  assert (H1 : Forall I st1.2).
  { unfold tier_primario in E1.
    destruct (trecho_responsaveis db texto_flat) as [trecho|];
      [|discriminate E1].
    rewrite result_bind_ok in E1.
    refine (foldM_preserva_em _ (fun st => Forall I st.2)
              (match_ok db IGNORECASE trecho Pat.padrao) _ _ _ _ _ E1 _).
    - intros st x st' Hx Hp.
      exact (passo_primario_inv texto_flat trecho st x st' Hx Hp).
    - apply re_finditer_ok.
    - constructor. }
  assert (H2 : Forall I st2.2).
  { unfold tier_fallback_a in E2.
    destruct st1 as [v1 [|r1 l1]]; cbn [snd] in E2; [|by injection E2 as <-].
    refine (foldM_preserva_em _ (fun st => Forall I st.2)
              (match_ok db IGNORECASE texto_flat Pat.padrao_geral)
              _ _ _ _ _ E2 H1).
    - intros st x st' Hx Hp.
      apply (passo_fallback_inv true texto_flat Pat.padrao_geral st x st');
        [by left | exact Hx | exact Hp].
    - apply re_finditer_ok. }
  unfold tier_fallback_c in E3.
  destruct st2 as [v2 [|r2 l2]]; cbn [snd] in E3; [|by injection E3 as <-].
  refine (foldM_preserva_em _ (fun st => Forall I st.2)
            (match_ok db IGNORECASE texto_flat Pat.padrao_lista)
            _ _ _ _ _ E3 H2).
  - intros st x st' Hx Hp.
    apply (passo_fallback_inv false texto_flat Pat.padrao_lista st x st');
      [by right | exact Hx | exact Hp].
  - apply re_finditer_ok.
Qed.

End ResponsaveisInvariante.

Lemma extrair_responsaveis_docs texto_flat rs :
  extrair_responsaveis db texto_flat = Ok rs ->
  Forall (doc_bem_formado db) rs.
Proof.
  apply extrair_responsaveis_inv.
  intros tf s pat m g3 ac nm td Hpat Hok Hg3 _.
  unfold doc_bem_formado. cbn [numero_doc]. apply str_strip_Forall.
  apply (grupo_doc s pat m g3); assumption.
Qed.

(** The fields of the result are the results of the five extractions. *)
Lemma extrair_dados_certidao_campos texto d :
  extrair_dados_certidao db texto = Ok d ->
  extrair_numero_processo db (achatar db texto) = Ok (numero_processo d)
  /\ extrair_data db (achatar db texto) Pat.DATAS = Ok (data_atualizacao d)
  /\ extrair_acordao_origem db (achatar db texto) = Ok (acordao_origem d)
  /\ extrair_responsaveis db (achatar db texto) = Ok (responsaveis d).
Proof.
  unfold extrair_dados_certidao. intros H.
  destruct (extrair_numero_processo db (achatar db texto)) as [np|];
    [|discriminate H].
  rewrite result_bind_ok in H.
  destruct (extrair_valor db (achatar db texto)) as [va|]; [|discriminate H].
  rewrite result_bind_ok in H.
  destruct (extrair_data db (achatar db texto) Pat.DATAS) as [da|];
    [|discriminate H].
  rewrite result_bind_ok in H.
  destruct (extrair_acordao_origem db (achatar db texto)) as [ao|];
    [|discriminate H].
  rewrite result_bind_ok in H.
  destruct (extrair_responsaveis db (achatar db texto)) as [rs|];
    [|discriminate H].
  rewrite result_bind_ok in H. injection H as <-. by repeat split.
Qed.

Lemma rep_exato (fl : flags) (s : str) (n : nat) (neg : bool)
    (items : list citem) (a b : nat) :
  rmatch db fl s (RRep true n (Some n) (RSet neg items)) a b ->
  length (slice s a b) = n
  /\ Forall (fun ch => set_match db fl neg items ch = true) (slice s a b).
Proof.
  intros H. apply rmatch_rep_set_slice in H as (Hlo & Hhi & Hf).
  simpl in Hhi. split; [lia | exact Hf].
Qed.

Lemma grupo_data (s : str) (a b : nat) :
  rmatch db NOFLAGS s
    (RSeq (RRep true 2 (Some 2%nat) (RSet false [CCat CatDigit]))
       (RSeq (RSet false [CLit 47])
          (RSeq (RRep true 2 (Some 2%nat) (RSet false [CCat CatDigit]))
             (RSeq (RSet false [CLit 47])
                (RRep true 4 (Some 4%nat) (RSet false [CCat CatDigit])))))) a b ->
  forma_de_data db (slice s a b).
Proof.
  intros H.
  apply rmatch_seq_slice in H as (m1 & H1 & H & ->).
  apply rmatch_seq_slice in H as (m2 & H2 & H & ->).
  apply rmatch_seq_slice in H as (m3 & H3 & H & ->).
  apply rmatch_seq_slice in H as (m4 & H4 & H5 & ->).
  apply rep_exato in H1 as [L1 F1]. apply rep_exato in H3 as [L3 F3].
  apply rep_exato in H5 as [L5 F5].
  apply rmatch_set_slice in H2 as (c2 & -> & ->%set_barra).
  apply rmatch_set_slice in H4 as (c4 & -> & ->%set_barra).
  exists (slice s a m1), (slice s m2 m3), (slice s m4 b).
  split; [reflexivity|]. split; [exact L1|]. split; [exact L3|].
  split; [exact L5|].
  repeat (apply Forall_app; split);
    (eapply Forall_impl; [eassumption|]); intros c; apply set_digito.
Qed.

Lemma extrair_data_forma (texto_flat g : str) :
  extrair_data db texto_flat Pat.DATAS = Ok (Some g) -> forma_de_data db g.
Proof.
  assert (Hg : forall pat m g,
            In pat Pat.DATAS ->
            match_ok db NOFLAGS texto_flat pat m ->
            group texto_flat m 1 = Ok g -> forma_de_data db g).
  { intros pat m g0 Hpat Hok Hgr.
    destruct (group_matches _ _ _ _ m 1 g0 Hok ltac:(done) Hgr)
      as (r' & a & b & Hin & Hm & ->).
    apply grupo_data.
    destruct Hpat as [<-|[<-|[]]]; vm_compute in Hin;
      destruct Hin as [[= <-]|[]]; exact Hm. }
  revert Hg. generalize Pat.DATAS. intros pats.
  induction pats as [|pat pats IH]; intros Hg H; simpl in H; [discriminate H|].
  destruct (re_search db NOFLAGS texto_flat pat) as [m|] eqn:E.
  - apply re_search_sound in E as [Hok _].
    destruct (group texto_flat m 1) as [g1|] eqn:Eg; [|discriminate H].
    rewrite result_bind_ok in H. injection H as <-.
    apply (Hg pat m g1); [by left | exact Hok | exact Eg].
  - apply IH; [|exact H]. intros p m g0 Hp. apply Hg. by right.
Qed.

(** The separators of the process number are read as slashes. *)
Lemma extrair_numero_processo_forma (texto_flat p : str) :
  extrair_numero_processo db texto_flat = Ok (Some p) ->
  length p = 14%nat /\ nth_error p 2 = Some 47 /\ nth_error p 9 = Some 47.
Proof.
  unfold extrair_numero_processo.
  destruct (re_search db IGNORECASE texto_flat Pat.PROCESSO) as [m|] eqn:E;
    [|discriminate].
  apply re_search_sound in E as [Hok _].
  destruct (group texto_flat m 1) as [g|] eqn:Eg; [|discriminate].
  rewrite result_bind_ok. intros [= <-].
  destruct (group_matches _ _ _ _ m 1 g Hok ltac:(done) Eg)
    as (r' & a & b & Hin & Hm & ->).
  vm_compute in Hin. destruct Hin as [[= <-]|[]].
  apply rmatch_seq_slice in Hm as (m1 & H1 & Hm & ->).
  apply rmatch_seq_slice in Hm as (m2 & H2 & Hm & ->).
  apply rmatch_seq_slice in Hm as (m3 & H3 & Hm & ->).
  apply rmatch_seq_slice in Hm as (m4 & H4 & Hm & ->).
  apply rmatch_seq_slice in Hm as (m5 & H5 & H6 & ->).
  apply rmatch_set_slice in H1 as (c1 & -> & _).
  apply rmatch_set_slice in H2 as (c2 & -> & _).
  apply rmatch_set_slice in H3 as (c3 & -> & S3).
  apply rmatch_set_slice in H5 as (c5 & -> & S5).
  apply rep_exato in H4 as [L4 _]. apply rep_exato in H6 as [L6 _].
  change Pat.ESPACO with (RSet false [CCat CatSpace]).
  change (py "/") with [47]. rewrite re_sub_um.
  set (f := fun c => if set_match db NOFLAGS false [CCat CatSpace] c
                     then 47 else c).
  assert (Hmap : forall l,
            flat_map (fun c => if set_match db NOFLAGS false [CCat CatSpace] c
                               then [47] else [c]) l = map f l).
  { induction l as [|x l IH]; [done|]. cbn [flat_map map]. rewrite IH.
    unfold f. by destruct (set_match db NOFLAGS false [CCat CatSpace] x). }
  rewrite Hmap.
  assert (Hsep : forall c,
            set_match db IGNORECASE false [CLit 47; CCat CatSpace] c = true ->
            f c = 47).
  { intros c Hc. unfold f. rewrite espaco_e_isspace.
    destruct (isspace db c) eqn:Es; [done|].
    unfold set_match in Hc. simpl in Hc. rewrite Es in Hc.
    replace (lit_match db IGNORECASE 47 c) with (c =? 47) in Hc
      by reflexivity.
    rewrite !orb_false_r in Hc. by apply N.eqb_eq in Hc. }
  destruct (slice texto_flat m3 m4) as [|x1 [|x2 [|x3 [|x4 [|x5 [|x6 [|]]]]]]];
    try discriminate L4.
  destruct (slice texto_flat m5 b) as [|y1 [|y2 [|y3 [|y4 [|]]]]];
    try discriminate L6.
  cbn [app map length nth_error].
  rewrite (Hsep c3 S3), (Hsep c5 S5). by repeat split.
Qed.

(** Without dots, slashes and hyphens a document number is made of decimal
    digits. *)
Lemma doc_limpo_digitos (num_doc : str) :
  Forall (char_doc db) num_doc ->
  Forall (fun c => isdecimal db c = true) (doc_limpo db num_doc).
Proof.
  intros H. unfold doc_limpo.
  change PatEnvio.PONTUACAO_DOC with (RSet false [CLit 46; CLit 45; CLit 47]).
  rewrite re_sub_set. apply List.Forall_forall. intros c Hc.
  apply filter_In in Hc as [Hin Hout].
  rewrite List.Forall_forall in H. specialize (H c Hin).
  unfold set_match in Hout. simpl in Hout.
  replace (lit_match db NOFLAGS 46 c) with (c =? 46) in Hout by reflexivity.
  replace (lit_match db NOFLAGS 45 c) with (c =? 45) in Hout by reflexivity.
  replace (lit_match db NOFLAGS 47 c) with (c =? 47) in Hout by reflexivity.
  rewrite !orb_false_r in Hout.
  destruct H as [H|[Hc|[Hc|Hc]]]; [exact H|..]; subst c; discriminate Hout.
Qed.

End CertidaoFormas.

(** * The amount of the certificate *)

Section ValorForma.
Variable db : unicode_db.

Lemma set_valor (fl : flags) (c : N) :
  set_match db fl false [CCat CatDigit; CLit 46; CLit 44] c = true ->
  char_valor db c.
Proof.
  unfold set_match, char_valor. simpl. rewrite orb_false_r.
  replace (lit_match db fl 46 c) with (c =? 46) by (destruct fl as [[] ?]; reflexivity).
  replace (lit_match db fl 44 c) with (c =? 44) by (destruct fl as [[] ?]; reflexivity).
  intros H. repeat (apply orb_prop in H as [H|H]); rewrite ?N.eqb_eq in H; auto.
Qed.

Lemma set_ponto (fl : flags) (c : N) :
  set_match db fl false [CLit 46] c = true -> char_valor db c.
Proof.
  unfold set_match, char_valor. simpl. rewrite orb_false_r.
  replace (lit_match db fl 46 c) with (c =? 46) by (destruct fl as [[] ?]; reflexivity).
  rewrite N.eqb_eq. auto.
Qed.

Lemma set_virgula (fl : flags) (c : N) :
  set_match db fl false [CLit 44] c = true -> char_valor db c.
Proof.
  unfold set_match, char_valor. simpl. rewrite orb_false_r.
  replace (lit_match db fl 44 c) with (c =? 44) by (destruct fl as [[] ?]; reflexivity).
  rewrite N.eqb_eq. auto.
Qed.

Lemma set_digito_valor (fl : flags) (c : N) :
  set_match db fl false [CCat CatDigit] c = true -> char_valor db c.
Proof. intros H. left. exact (set_digito db fl c H). Qed.

(** The group of the labelled amount. *)
Lemma grupo_valor_rotulado (s : str) (m : re_match) (g : str) :
  match_ok db IGNORECASE s Pat.VALOR_ROTULADO m ->
  group s m 1 = Ok g ->
  g <> [] /\ Forall (char_valor db) g.
Proof.
  intros Hok Hg.
  destruct (group_matches _ _ _ _ m 1 g Hok ltac:(done) Hg)
    as (r' & a & b & Hin & Hm & ->).
  vm_compute in Hin. destruct Hin as [[= <-]|[]].
  apply rmatch_rep_set_slice in Hm as (Hlo & _ & Hf).
  split.
  - destruct (slice s a b); [exfalso; simpl in Hlo; lia | discriminate].
  - eapply Forall_impl; [exact Hf|]. intros c. apply set_valor.
Qed.

(** The group of an amount in the Brazilian notation. *)
Lemma grupo_valor_monetario (s : str) (m : re_match) :
  match_ok db NOFLAGS s Pat.VALOR_MONETARIO m ->
  group_or_empty s m 1 <> [] /\ Forall (char_valor db) (group_or_empty s m 1).
Proof.
  intros Hok.
  destruct (group_sure _ _ _ _ m 1 Hok ltac:(sure_group)) as [g Hg].
  destruct (group_matches _ _ _ _ m 1 g Hok ltac:(done) Hg)
    as (r' & a & b & Hin & Hm & ->).
  assert (Eg : group_or_empty s m 1 = slice s a b).
  { unfold group in Hg. unfold group_or_empty.
    destruct (m_group s m 1); [by injection Hg as -> | discriminate Hg]. }
  rewrite Eg. clear Eg Hg.
  vm_compute in Hin. destruct Hin as [[= <-]|[]].
  split.
  - apply rmatch_seq_slice in Hm as (m1 & H1 & _ & ->).
    apply rmatch_rep_set_slice in H1 as (Hlo & _ & _).
    destruct (slice s a m1); [exfalso; simpl in Hlo; lia | discriminate].
  - revert Hm. apply rmatch_alfabeto. cbn [alfabeto].
    repeat split; intros c; first [apply set_digito_valor | apply set_ponto
                                  | apply set_virgula].
Qed.

Lemma last_Forall {A : Type} (Q : A -> Prop) (l : list A) (x : A) :
  Q x -> Forall Q l -> Q (List.last l x).
Proof.
  intros Hx Hl. revert x Hx. induction Hl as [|y l Hy Hl IH]; intros x Hx; [done|].
  destruct l as [|z l]; [exact Hy|]. change (Q (List.last (z :: l) x)).
  by apply IH.
Qed.

Lemma extrair_valor_forma (texto_flat v : str) :
  extrair_valor db texto_flat = Ok (Some v) ->
  exists g, v = py "R$ " ++ g /\ g <> [] /\ Forall (char_valor db) g.
Proof.
  unfold extrair_valor.
  destruct (re_search db IGNORECASE texto_flat Pat.VALOR_ROTULADO) as [m|] eqn:E.
  - apply re_search_sound in E as [Hok _].
    destruct (group texto_flat m 1) as [g|] eqn:Eg; [|discriminate].
    rewrite result_bind_ok. intros [= <-]. exists g.
    split; [reflexivity|]. exact (grupo_valor_rotulado _ _ _ Hok Eg).
  - unfold re_findall1.
    pose proof (re_finditer_ok db NOFLAGS texto_flat Pat.VALOR_MONETARIO) as Hall.
    destruct (re_finditer db NOFLAGS texto_flat Pat.VALOR_MONETARIO)
      as [|m ms]; [discriminate|].
    cbn [map]. intros [= <-].
    exists (List.last (map (fun m => group_or_empty texto_flat m 1) ms)
                      (group_or_empty texto_flat m 1)).
    split; [reflexivity|].
    apply (last_Forall (fun g => g <> [] /\ Forall (char_valor db) g)).
    + apply grupo_valor_monetario. by inversion Hall.
    + apply Forall_map. inversion Hall as [|? ? _ Hms]; subst.
      eapply Forall_impl; [exact Hms|]. intros m'. apply grupo_valor_monetario.
Qed.

Lemma extrair_dados_certidao_valor (texto : str) (d : Certidao) :
  extrair_dados_certidao db texto = Ok d ->
  extrair_valor db (achatar db texto) = Ok (valor_atualizado d).
Proof.
  unfold extrair_dados_certidao. intros H.
  destruct (extrair_numero_processo db (achatar db texto)) as [np|];
    [|discriminate H].
  rewrite result_bind_ok in H.
  destruct (extrair_valor db (achatar db texto)) as [va|]; [|discriminate H].
  rewrite result_bind_ok in H.
  destruct (extrair_data db (achatar db texto) Pat.DATAS) as [da|];
    [|discriminate H].
  rewrite result_bind_ok in H.
  destruct (extrair_acordao_origem db (achatar db texto)) as [ao|];
    [|discriminate H].
  rewrite result_bind_ok in H.
  destruct (extrair_responsaveis db (achatar db texto)) as [rs|];
    [|discriminate H].
  rewrite result_bind_ok in H. injection H as <-. reflexivity.
Qed.

End ValorForma.

(** * The judgment of each party *)

Lemma slice_Forall (P : N -> Prop) (s : str) (a b : nat) :
  Forall P s -> Forall P (slice s a b).
Proof. intros H. unfold slice. by apply Forall_take, Forall_drop. Qed.

Lemma sub_go_Forall (P : N -> Prop) (s : str) (repl : re_match -> str)
    (ms : list re_match) :
  Forall P s -> (forall m, Forall P (repl m)) ->
  forall pos, Forall P (sub_go s repl ms pos).
Proof.
  intros Hs Hr. induction ms as [|m ms IH]; intros pos; simpl.
  - by apply slice_Forall.
  - apply Forall_app. split; [by apply slice_Forall|].
    apply Forall_app. split; [apply Hr | apply IH].
Qed.

Lemma group_or_empty_Forall (P : N -> Prop) (s : str) (m : re_match)
    (n : nat) :
  Forall P s -> Forall P (group_or_empty s m n).
Proof.
  intros Hs. unfold group_or_empty, m_group.
  destruct n; [by apply slice_Forall|].
  destruct (cap_get (m_caps m) (S n)) as [[a b]|]; [|constructor].
  by apply slice_Forall.
Qed.

Section AcordaoForma.
Variable db : unicode_db.

(** [_normalizar_acordao] writes no character that its argument does not
    have. *)
Lemma _normalizar_acordao_Forall (P : N -> Prop) (s0 : str) :
  Forall P s0 -> Forall P (_normalizar_acordao db s0).
Proof.
  intros H. unfold _normalizar_acordao, re_sub_with.
  apply str_strip_Forall with (db := db) in H.
  apply sub_go_Forall; [exact H|].
  intros m. by apply group_or_empty_Forall.
Qed.

Lemma set_digito_acordao (fl : flags) (c : N) :
  set_match db fl false [CCat CatDigit] c = true -> char_acordao db c.
Proof. intros H. left. exact (set_digito db fl c H). Qed.

Lemma set_barra_acordao (fl : flags) (c : N) :
  set_match db fl false [CLit 47] c = true -> char_acordao db c.
Proof. intros H. right. exact (set_barra db fl c H). Qed.

Lemma lastindex_de_grupo_certo (m : re_match) (n : nat) :
  cap_get (m_caps m) n <> None -> lastindex m <> None.
Proof.
  unfold lastindex. destruct (m_caps m) as [|[k e] l]; [|done].
  intros H. by destruct n.
Qed.

Lemma _buscar_acordao_por_doc_forma (texto_flat num_doc a : str) :
  _buscar_acordao_por_doc db texto_flat num_doc = Ok (Some a) ->
  Forall (char_acordao db) a.
Proof.
  unfold _buscar_acordao_por_doc.
  destruct (re_search db NOFLAGS texto_flat (re_literal num_doc)) as [m_doc|];
    [|discriminate].
  cbv zeta. set (trecho := slice texto_flat _ _). clearbody trecho.
  destruct (re_search db IGNORECASE_DOTALL trecho Pat.ACORDAO_APOS_DOC)
    as [m|] eqn:E1.
  - apply re_search_sound in E1 as [Hok _].
    assert (Hl : lastindex m <> None).
    { apply (lastindex_de_grupo_certo m 1).
      destruct Hok as [_ [_ Hs]]. apply Hs. sure_group. }
    destruct (lastindex m) as [k|]; [|done].
    destruct (group trecho m 1) as [g|] eqn:Eg; [|discriminate].
    rewrite result_bind_ok. intros [= <-].
    apply _normalizar_acordao_Forall.
    destruct (group_matches _ _ _ _ m 1 g Hok ltac:(done) Eg)
      as (r' & i & j & Hin & Hm & ->).
    revert Hm. apply rmatch_alfabeto.
    vm_compute in Hin. destruct Hin as [[= <-]|[]].
    cbn [alfabeto]. repeat split; intros c;
      first [apply set_digito_acordao | apply set_barra_acordao].
  - destruct (re_search db NOFLAGS trecho Pat.NUMERO_ANO) as [m|] eqn:E2;
      [|discriminate].
    apply re_search_sound in E2 as [Hok _].
    assert (Hc : m_caps m = []).
    { destruct Hok as [_ [Hv _]]. destruct (m_caps m) as [|e l]; [done|].
      inversion Hv as [|? ? (r' & Hin & _) _]; subst.
      vm_compute in Hin. destruct Hin. }
    unfold lastindex. rewrite Hc.
    unfold group, m_group. rewrite result_bind_ok. intros [= <-].
    apply _normalizar_acordao_Forall.
    destruct Hok as [Hm _]. revert Hm. apply rmatch_alfabeto.
    cbn [alfabeto Pat.NUMERO_ANO]. vm_compute re_compile.
    cbn [alfabeto]. repeat split; intros c;
      first [apply set_digito_acordao | apply set_barra_acordao].
Qed.

Lemma extrair_responsaveis_acordaos (texto_flat : str)
    (rs : list Responsavel) :
  extrair_responsaveis db texto_flat = Ok rs ->
  Forall (acordao_bem_formado db) rs.
Proof.
  apply extrair_responsaveis_inv.
  intros tf s pat m g3 ac nm td _ _ _ Hac.
  unfold acordao_bem_formado. cbn [acordao].
  destruct ac as [a|]; [|exact I].
  exact (_buscar_acordao_por_doc_forma tf _ a Hac).
Qed.

End AcordaoForma.

(** * The labelled amount *)

Section Construir.
Variable db : unicode_db.
Variable fl : flags.
Variable s : str.




End Construir.

Section RotuloRestituir.
Variable db : unicode_db.

Lemma In_range_list (n : nat) :
  forall a c, (a <= c)%N -> (c < a + N.of_nat n)%N -> In c (range_list a n).
Proof.
  induction n as [|n IH]; intros a c Ha Hc; [lia|].
  destruct (N.eq_dec c a) as [->|Hne]; [by left|].
  right. apply IH; lia.
Qed.





End RotuloRestituir.


(** * Properties of [parsear_partes] *)

Section PartesFacts.
Variable db : unicode_db.

Lemma search_or_ok linha fa a fb b m :
  search_or db linha fa a fb b = Some m ->
  match_ok db fa linha a m \/ match_ok db fb linha b m.
Proof.
  unfold search_or.
  destruct (re_search db fa linha a) as [m'|] eqn:E.
  - intros [= <-]. left. by apply re_search_sound in E as [? _].
  - intros E'. right. by apply re_search_sound in E' as [? _].
Qed.

Lemma _extrair_doc_total linha :
  exists doc tdoc, _extrair_doc db linha = Ok (doc, tdoc).
Proof.
  unfold _extrair_doc.
  destruct (search_or db linha IGNORECASE PatPartes.re_cpf_fmt
              NOFLAGS PatPartes.re_cpf_raw) as [m|] eqn:E1.
  { apply search_or_ok in E1 as [Hok|Hok];
      destruct (group_sure _ _ _ _ m 1 Hok ltac:(sure_group)) as [g ->];
      rewrite result_bind_ok; eauto. }
  destruct (search_or db linha IGNORECASE PatPartes.re_cnpj_fmt
              NOFLAGS PatPartes.re_cnpj_raw) as [m|] eqn:E2; [|eauto].
  apply search_or_ok in E2 as [Hok|Hok];
    destruct (group_sure _ _ _ _ m 1 Hok ltac:(sure_group)) as [g ->];
    rewrite result_bind_ok; eauto.
Qed.

(** A line that is nothing but a CPF or CNPJ only ever touches the document
    number and type of the entry being read. *)
Lemma passo_linha_so_documento (st : Acc.t) (linha : str) :
  str_strip db linha <> [] ->
  _e_linha_doc db (str_strip db linha) = true ->
  exists doc tdoc,
    _extrair_doc db (str_strip db linha) = Ok (doc, tdoc)
    /\ passo_linha db st linha = Ok (adotar_doc doc tdoc st).
Proof.
  intros Hne Hdoc. unfold passo_linha.
  destruct (_extrair_doc_total (str_strip db linha)) as (doc & tdoc & Hex).
  exists doc, tdoc. split; [exact Hex|].
  destruct (str_strip db linha) as [|c l] eqn:E; [by destruct Hne|].
  rewrite Hex, result_bind_ok. cbn beta iota. by rewrite Hdoc.
Qed.

Lemma adotar_doc_campos doc tdoc (st : Acc.t) :
  Acc.partes (adotar_doc doc tdoc st) = Acc.partes st
  /\ Acc.num_atual (adotar_doc doc tdoc st) = Acc.num_atual st
  /\ Acc.nome_linhas (adotar_doc doc tdoc st) = Acc.nome_linhas st
  /\ Acc.email_atual (adotar_doc doc tdoc st) = Acc.email_atual st.
Proof. unfold adotar_doc. by destruct doc, (Acc.doc_atual st). Qed.

Lemma adotar_doc_ocupado doc tdoc (st : Acc.t) :
  Acc.doc_atual st <> [] -> adotar_doc doc tdoc st = st.
Proof.
  intros H. unfold adotar_doc. destruct doc; [done|].
  destruct (Acc.doc_atual st); [by destruct H | done].
Qed.

Lemma adotar_doc_livre doc tdoc (st : Acc.t) :
  Acc.doc_atual st = [] -> doc <> [] ->
  Acc.doc_atual (adotar_doc doc tdoc st) = doc
  /\ Acc.tipo_doc (adotar_doc doc tdoc st) = tdoc.
Proof.
  intros H Hd. unfold adotar_doc. destruct doc; [by destruct Hd|].
  by rewrite H.
Qed.

End PartesFacts.

(** * Properties of [parsear_enderecos_coluna] and of the loop of
    [parsear_partes] over blank lines *)

Section ColunaFacts.
Variable db : unicode_db.

Lemma foldM_inerte {A S : Type} (f : S -> A -> result S) (l : list A) (st : S) :
  Forall (fun x => forall st, f st x = Ok st) l -> foldM f l st = Ok st.
Proof. induction 1 as [|x l Hx _ IH]; simpl; [done|]. by rewrite Hx. Qed.

Lemma passo_linha_coluna_em_branco (st : Coluna.t) (linha : str) :
  str_strip db linha = [] -> Coluna.passo_linha db st linha = Ok st.
Proof. intros H. unfold Coluna.passo_linha. by rewrite H. Qed.

Lemma passo_linha_partes_em_branco (st : Acc.t) (linha : str) :
  str_strip db linha = [] -> passo_linha db st linha = Ok st.
Proof. intros H. unfold passo_linha. by rewrite H. Qed.

Lemma passo_linha_coluna_cheio (st st' : Coluna.t) (linha : str) :
  Coluna.passo_linha db st linha = Ok st' ->
  (cheio st \/ str_strip db linha <> []) -> cheio st'.
Proof.
  unfold Coluna.passo_linha.
  destruct (str_strip db linha) as [|c t] eqn:El.
  { intros [= <-] [H|H]; [exact H | by destruct H]. }
  intros H _.
  destruct (re_match_start db IGNORECASE (c :: t) Coluna.re_num) as [m|].
  - destruct (match m_group (c :: t) m 1 with
              | Some g1 => py_int db g1
              | None => Raise TypeError
              end) as [n|]; [|discriminate H].
    rewrite result_bind_ok in H.
    destruct (group (c :: t) m 2) as [g2|]; [|discriminate H].
    rewrite result_bind_ok in H. injection H as <-. by split.
  - destruct (Coluna.num_atual st) eqn:En; injection H as <-; split; simpl;
      try done.
    by destruct (Coluna.acumulo st).
Qed.

Lemma foldM_coluna_cheio (l : list str) :
  forall st st',
    foldM (Coluna.passo_linha db) l st = Ok st' ->
    (cheio st \/ exists linha, In linha l /\ str_strip db linha <> []) ->
    cheio st'.
Proof.
  induction l as [|x l IH]; intros st st' H Hc; simpl in H.
  - injection H as <-. destruct Hc as [?|(? & [] & _)]. done.
  - destruct (Coluna.passo_linha db st x) as [st1|] eqn:E1; [|discriminate H].
    apply (IH st1 st' H).
    destruct Hc as [Hc|(linha & [<-|Hin] & Hne)].
    + left. apply (passo_linha_coluna_cheio st st1 x E1). by left.
    + left. apply (passo_linha_coluna_cheio st st1 x E1). by right.
    + right. by exists linha.
Qed.

Lemma _salvar_cheio (st : Coluna.t) : cheio st -> Coluna._salvar st <> ∅.
Proof.
  intros [Hn Ha]. unfold Coluna._salvar.
  destruct (Coluna.num_atual st) as [n|]; [|done].
  destruct (Coluna.acumulo st) as [|x t]; [done|].
  apply insert_non_empty.
Qed.

(** A line that [re_num] matches starts with a decimal digit. *)
Lemma re_num_exige_digito (linha : str) (m : re_match) :
  re_match_start db IGNORECASE linha Coluna.re_num = Some m ->
  exists c t, linha = c :: t /\ isdecimal db c = true.
Proof.
  intros H. apply match_at_sound in H as [H0 [Hm _]]. rewrite H0 in Hm.
  assert (E : exists resto,
             Coluna.re_num
             = RSeq RBol
                 (RSeq (RGroup 1 (RRep true 1 None (RSet false [CCat CatDigit])))
                    resto))
    by (eexists; vm_compute; reflexivity).
  destruct E as [resto E]. rewrite E in Hm.
  destruct Hm as (m1 & [_ ->] & m2 & (n & l & Hit & Hn & _) & _).
  inversion Hit as [|n' i j k l1 l2 Hpasso _ _]; subst; [lia|].
  destruct Hpasso as (ch & Hch & Hs & _).
  destruct linha as [|c t]; [discriminate Hch|]. injection Hch as ->.
  exists ch, t. split; [done|].
  unfold set_match in Hs. simpl in Hs. by rewrite orb_false_r in Hs.
Qed.

Lemma passo_linha_sem_numero (acc : list str) (linha : str) :
  match str_strip db linha with
  | c :: _ => isdecimal db c = false
  | [] => True
  end ->
  Coluna.passo_linha db
    {| Coluna.mapa := ∅;
       Coluna.num_atual := match acc with [] => None | _ => Some 1%Z end;
       Coluna.acumulo := acc |} linha
  = Ok (let acc' := acc ++ List.filter nao_vazio [str_strip db linha] in
        {| Coluna.mapa := ∅;
           Coluna.num_atual := match acc' with [] => None | _ => Some 1%Z end;
           Coluna.acumulo := acc' |}).
Proof.
  intros H. unfold Coluna.passo_linha.
  destruct (str_strip db linha) as [|c t] eqn:El.
  { simpl. by rewrite app_nil_r. }
  destruct (re_match_start db IGNORECASE (c :: t) Coluna.re_num) as [m|] eqn:Em.
  { apply re_num_exige_digito in Em as (c' & t' & [= <- <-] & Hd). congruence. }
  cbn [List.filter nao_vazio].
  destruct acc as [|a acc]; [reflexivity|]. cbn [Coluna.num_atual].
  cbn [Coluna.mapa Coluna.acumulo]. reflexivity.
Qed.

Lemma foldM_sem_numero (l : list str) :
  forall acc,
    Forall (fun linha => match str_strip db linha with
                         | c :: _ => isdecimal db c = false
                         | [] => True
                         end) l ->
    foldM (Coluna.passo_linha db) l
      {| Coluna.mapa := ∅;
         Coluna.num_atual := match acc with [] => None | _ => Some 1%Z end;
         Coluna.acumulo := acc |}
    = Ok (let acc' :=
            acc ++ List.filter nao_vazio (map (str_strip db) l) in
          {| Coluna.mapa := ∅;
             Coluna.num_atual := match acc' with [] => None | _ => Some 1%Z end;
             Coluna.acumulo := acc' |}).
Proof.
  induction l as [|x l IH]; intros acc Hl.
  - simpl. by rewrite app_nil_r.
  - inversion Hl as [|? ? Hx Hl']; subst. cbn [foldM].
    rewrite (passo_linha_sem_numero acc x Hx). cbv zeta.
    rewrite (IH _ Hl'). cbv zeta. f_equal.
    assert (E : (acc ++ List.filter nao_vazio [str_strip db x])
                ++ List.filter nao_vazio (map (str_strip db) l)
                = acc ++ List.filter nao_vazio (map (str_strip db) (x :: l))).
    { rewrite <- app_assoc. f_equal. simpl.
      by destruct (nao_vazio (str_strip db x)). }
    by rewrite E.
Qed.

End ColunaFacts.

(** ** The documents of the parts *)

Lemma foldM_preserva {A S : Type} (f : S -> A -> result S) (I : S -> Prop)
    (l : list A) :
  (forall st x st', f st x = Ok st' -> I st -> I st') ->
  forall st st', foldM f l st = Ok st' -> I st -> I st'.
Proof.
  intros Hf. induction l as [|x l IH]; intros st st' H Hst; simpl in H.
  - by injection H as <-.
  - destruct (f st x) as [st1|] eqn:E; [|discriminate H].
    apply (IH st1 st' H). by apply (Hf st x).
Qed.

(** A property of the pairs that [_extrair_doc] returns, and of the empty
    pair, holds of every part. *)
Section PartesInvariante.
Variable db : unicode_db.
Variable Q : str -> str -> Prop.
Hypothesis Q_vazio : Q [] [].
Hypothesis Q_extrair :
  forall linha doc tdoc, _extrair_doc db linha = Ok (doc, tdoc) -> Q doc tdoc.

Lemma adotar_doc_inv (doc tdoc : str) (st : Acc.t) :
  Q doc tdoc -> acc_inv Q st -> acc_inv Q (adotar_doc doc tdoc st).
Proof.
  intros Hp [Hd Hl]. unfold adotar_doc.
  destruct doc as [|c t]; [by split|].
  destruct (Acc.doc_atual st) eqn:E; split; simpl; rewrite ?E; assumption.
Qed.

Lemma adotar_email_inv (linha : str) (m : option re_match) (st : Acc.t) :
  acc_inv Q st -> acc_inv Q (adotar_email linha m st).
Proof.
  intros [Hd Hl]. unfold adotar_email.
  destruct m; [|by split].
  destruct (Acc.email_atual st); split; simpl; assumption.
Qed.

Lemma acrescentar_nome_inv (l : str) (st : Acc.t) :
  acc_inv Q st -> acc_inv Q (acrescentar_nome l st).
Proof.
  intros [Hd Hl]. unfold acrescentar_nome.
  destruct l; split; simpl; assumption.
Qed.

Lemma _salvar_inv (st : Acc.t) :
  acc_inv Q st ->
  Forall (fun p => Q (Parte.cpf_cnpj p) (Parte.tipo_doc p)) (_salvar db st).
Proof.
  intros [Hd Hl]. unfold _salvar. destruct (Acc.num_atual st); [|exact Hl].
  apply Forall_app. split; [exact Hl|]. constructor; [exact Hd | constructor].
Qed.

Lemma passo_linha_inv (st st' : Acc.t) (linha : str) :
  passo_linha db st linha = Ok st' -> acc_inv Q st -> acc_inv Q st'.
Proof using Q_extrair.
  unfold passo_linha. intros H Hst.
  destruct (str_strip db linha) as [|c t]; [by injection H as <-|].
  destruct (_extrair_doc db (c :: t)) as [[doc tdoc]|] eqn:Ed; [|discriminate H].
  apply Q_extrair in Ed. rewrite result_bind_ok in H.
  cbn beta iota in H.
  destruct (_e_linha_doc db (c :: t)).
  { injection H as <-. by apply adotar_doc_inv. }
  destruct (re_match_start db IGNORECASE (c :: t) PatPartes.re_inicio) as [m|].
  - destruct (group (c :: t) m 1) as [g1|]; [|discriminate H].
    rewrite result_bind_ok in H.
    destruct (py_int db g1) as [n|]; [|discriminate H].
    rewrite result_bind_ok in H.
    destruct (group (c :: t) m 2) as [g2|]; [|discriminate H].
    rewrite result_bind_ok in H. injection H as <-.
    split; [exact Ed | by apply _salvar_inv].
  - set (st1 := adotar_email (c :: t) _ (adotar_doc doc tdoc st)) in *.
    assert (H1 : acc_inv Q st1) by (by apply adotar_email_inv, adotar_doc_inv).
    clearbody st1.
    repeat match type of H with
      | context [acrescentar_nome ?x _] =>
          tryif is_var x then fail
          else (let la := fresh "la" in set (la := x) in H; clearbody la)
      end.
    match type of H with
    | context [email_de ?a ?b] =>
        let em := fresh "em" in set (em := email_de a b) in H; clearbody em
    end.
    destruct (Acc.num_atual st1); injection H as <-.
    + by apply acrescentar_nome_inv.
    + apply acrescentar_nome_inv. split; [exact Ed | apply H1].
Qed.

Lemma parsear_partes_inv (partes_texto : str) (ps : list Parte.t) :
  parsear_partes db partes_texto = Ok ps ->
  Forall (fun p => Q (Parte.cpf_cnpj p) (Parte.tipo_doc p)) ps.
Proof using Q_vazio Q_extrair.
  unfold parsear_partes. intros H.
  destruct (foldM (passo_linha db) (str_splitlines partes_texto) Acc.inicial)
    as [st|] eqn:E; [|discriminate H].
  rewrite result_bind_ok in H. injection H as <-.
  apply _salvar_inv.
  apply (foldM_preserva (passo_linha db) (acc_inv Q) _
           (fun st x st' => passo_linha_inv st st' x) _ _ E).
  split; [exact Q_vazio | constructor].
Qed.

End PartesInvariante.

Section PartesTipo.
Variable db : unicode_db.

Lemma _extrair_doc_par (linha doc tdoc : str) :
  _extrair_doc db linha = Ok (doc, tdoc) -> par_doc_ok doc tdoc.
Proof.
  unfold _extrair_doc, par_doc_ok.
  destruct (search_or db linha IGNORECASE PatPartes.re_cpf_fmt
              NOFLAGS PatPartes.re_cpf_raw) as [m|].
  { destruct (group linha m 1) as [g|]; [|discriminate].
    rewrite result_bind_ok. intros [= <- <-]. by left. }
  destruct (search_or db linha IGNORECASE PatPartes.re_cnpj_fmt
              NOFLAGS PatPartes.re_cnpj_raw) as [m|].
  { destruct (group linha m 1) as [g|]; [|discriminate].
    rewrite result_bind_ok. intros [= <- <-]. right. by left. }
  intros [= <- <-]. right. right. by split.
Qed.

Lemma parsear_partes_ok (partes_texto : str) (ps : list Parte.t) :
  parsear_partes db partes_texto = Ok ps -> Forall parte_ok ps.
Proof.
  apply (parsear_partes_inv db par_doc_ok).
  - right. right. by split.
  - apply _extrair_doc_par.
Qed.

(** *** The characters of the document number *)

Lemma sem_espacos_filtro (g : str) :
  sem_espacos db g = List.filter (fun c => negb (isspace db c)) g.
Proof.
  unfold sem_espacos.
  change PatPartes.ESPACO with (RSet false [CCat CatSpace]).
  rewrite re_sub_set. apply List.filter_ext. intros c.
  by rewrite espaco_e_isspace.
Qed.

Lemma set_digito_ou_espaco (fl : flags) (c : N) :
  set_match db fl false [CCat CatDigit] c = true ->
  char_doc db c \/ isspace db c = true.
Proof. intros H. left. left. exact (set_digito db fl c H). Qed.

Lemma set_sep_ou_espaco (fl : flags) (sep c : N) :
  sep = 46 \/ sep = 47 \/ sep = 45 ->
  set_match db fl false [CLit sep; CCat CatSpace] c = true ->
  char_doc db c \/ isspace db c = true.
Proof.
  intros Hsep. unfold set_match. simpl. rewrite orb_false_r.
  replace (lit_match db fl sep c) with (c =? sep)
    by (destruct Hsep as [->|[->| ->]]; destruct fl as [[] ?]; reflexivity).
  intros H. apply orb_prop in H as [H|H]; [|by right].
  apply N.eqb_eq in H. subst c. left. unfold char_doc.
  destruct Hsep as [->|[->| ->]]; auto.
Qed.

Lemma set_sep (fl : flags) (sep c : N) :
  sep = 46 \/ sep = 47 \/ sep = 45 ->
  set_match db fl false [CLit sep] c = true ->
  char_doc db c \/ isspace db c = true.
Proof.
  intros Hsep. unfold set_match. simpl. rewrite orb_false_r.
  replace (lit_match db fl sep c) with (c =? sep)
    by (destruct Hsep as [->|[->| ->]]; destruct fl as [[] ?]; reflexivity).
  intros H. apply N.eqb_eq in H. subst c. left. unfold char_doc.
  destruct Hsep as [->|[->| ->]]; auto.
Qed.

Ltac classes_do_documento :=
  cbn [alfabeto]; repeat split; intros c;
  first [ apply set_digito_ou_espaco
        | apply set_sep_ou_espaco; auto
        | apply set_sep; auto ].

(** The group of each of the four patterns of the tax numbers. *)
Lemma grupo_documento (fl : flags) (linha : str) (pat : regex)
    (m : re_match) (g : str) :
  In pat [PatPartes.re_cpf_fmt; PatPartes.re_cpf_raw;
          PatPartes.re_cnpj_fmt; PatPartes.re_cnpj_raw] ->
  match_ok db fl linha pat m ->
  group linha m 1 = Ok g ->
  Forall (fun c => char_doc db c \/ isspace db c = true) g.
Proof.
  intros Hpat Hok Hg.
  destruct (group_matches _ _ _ _ m 1 g Hok ltac:(done) Hg)
    as (r' & a & b & Hin & Hm & ->).
  revert Hm. apply rmatch_alfabeto.
  destruct Hpat as [<-|[<-|[<-|[<-|[]]]]];
    vm_compute in Hin; destruct Hin as [[= <-]|[]];
    classes_do_documento.
Qed.

Lemma sem_espacos_documento (g : str) :
  Forall (fun c => char_doc db c \/ isspace db c = true) g ->
  doc_sem_espacos db (sem_espacos db g).
Proof.
  intros H. rewrite sem_espacos_filtro. unfold doc_sem_espacos.
  apply List.Forall_forall. intros c Hc.
  apply filter_In in Hc as [Hc Hs]. apply negb_true_iff in Hs.
  rewrite List.Forall_forall in H. destruct (H c Hc) as [Hd|He]; [|congruence].
  split; [exact Hd | exact Hs].
Qed.

Lemma search_or_match_ok (linha : str) (fa fb : flags) (a b : regex)
    (m : re_match) :
  search_or db linha fa a fb b = Some m ->
  match_ok db fa linha a m \/ match_ok db fb linha b m.
Proof.
  unfold search_or.
  destruct (re_search db fa linha a) as [m1|] eqn:E1.
  - intros [= <-]. left. by apply re_search_sound in E1 as [? _].
  - intros E2. right. by apply re_search_sound in E2 as [? _].
Qed.

Lemma _extrair_doc_forma (linha doc tdoc : str) :
  _extrair_doc db linha = Ok (doc, tdoc) -> doc_sem_espacos db doc.
Proof.
  unfold _extrair_doc.
  destruct (search_or db linha IGNORECASE PatPartes.re_cpf_fmt
              NOFLAGS PatPartes.re_cpf_raw) as [m|] eqn:E1.
  { destruct (group linha m 1) as [g|] eqn:Eg; [|discriminate].
    rewrite result_bind_ok. intros [= <- <-].
    apply sem_espacos_documento.
    apply search_or_match_ok in E1 as [Hok|Hok].
    - apply (grupo_documento IGNORECASE linha PatPartes.re_cpf_fmt m g);
        [left; reflexivity | exact Hok | exact Eg].
    - apply (grupo_documento NOFLAGS linha PatPartes.re_cpf_raw m g);
        [right; left; reflexivity | exact Hok | exact Eg]. }
  destruct (search_or db linha IGNORECASE PatPartes.re_cnpj_fmt
              NOFLAGS PatPartes.re_cnpj_raw) as [m|] eqn:E2.
  { destruct (group linha m 1) as [g|] eqn:Eg; [|discriminate].
    rewrite result_bind_ok. intros [= <- <-].
    apply sem_espacos_documento.
    apply search_or_match_ok in E2 as [Hok|Hok].
    - apply (grupo_documento IGNORECASE linha PatPartes.re_cnpj_fmt m g);
        [right; right; left; reflexivity | exact Hok | exact Eg].
    - apply (grupo_documento NOFLAGS linha PatPartes.re_cnpj_raw m g);
        [right; right; right; left; reflexivity | exact Hok | exact Eg]. }
  intros [= <- <-]. constructor.
Qed.

Lemma parsear_partes_documentos (partes_texto : str) (ps : list Parte.t) :
  parsear_partes db partes_texto = Ok ps ->
  Forall (fun p => doc_sem_espacos db (Parte.cpf_cnpj p)) ps.
Proof.
  apply (parsear_partes_inv db (fun doc _ => doc_sem_espacos db doc)).
  - constructor.
  - apply _extrair_doc_forma.
Qed.

End PartesTipo.

(** * Properties of [_normalizar_processo] *)

Section ProcessoFacts.
Variable db : unicode_db.

(** [re.sub(r'\s', '', txt)] removes the white space. *)
Lemma sem_espacos_filtra (txt : str) :
  re_sub db NOFLAGS txt PatProcesso.ESPACO []
  = List.filter (fun c => negb (isspace db c)) txt.
Proof.
  change PatProcesso.ESPACO with (RSet false [CCat CatSpace]).
  rewrite re_sub_set. apply List.filter_ext. intros c.
  by rewrite espaco_e_isspace.
Qed.

Lemma filtrado_sem_espacos (txt : str) :
  Forall (fun c => isspace db c = false)
         (List.filter (fun c => negb (isspace db c)) txt).
Proof.
  apply List.Forall_forall. intros c Hc. apply filter_In in Hc as [_ Hc].
  by apply negb_true_iff in Hc.
Qed.

Lemma grupos_do_processo (t : str) (m : re_match) :
  match_ok db IGNORECASE t PatProcesso.TC m ->
  exists d6 d4,
    m_group t m 1 = Some d6 /\ m_group t m 2 = Some d4
    /\ length d6 = 6%nat /\ length d4 = 4%nat
    /\ Forall (fun c => isdecimal db c = true) (d6 ++ d4).
Proof.
  intros Hok.
  destruct (group_sure _ _ _ _ m 1 Hok ltac:(sure_group)) as [d6 H1].
  destruct (group_sure _ _ _ _ m 2 Hok ltac:(sure_group)) as [d4 H2].
  destruct (group_matches _ _ _ _ m 1 d6 Hok ltac:(done) H1)
    as (r1 & a1 & b1 & Hin1 & Hm1 & E1).
  destruct (group_matches _ _ _ _ m 2 d4 Hok ltac:(done) H2)
    as (r2 & a2 & b2 & Hin2 & Hm2 & E2).
  vm_compute in Hin1. destruct Hin1 as [[= <-]|[[=]|[]]].
  vm_compute in Hin2. destruct Hin2 as [[=]|[[= <-]|[]]].
  apply rep_exato in Hm1 as [L1 F1]. apply rep_exato in Hm2 as [L2 F2].
  exists d6, d4.
  unfold group in H1, H2.
  destruct (m_group t m 1) as [g1|]; [|discriminate H1].
  destruct (m_group t m 2) as [g2|]; [|discriminate H2].
  injection H1 as ->. injection H2 as ->. subst d6 d4.
  repeat split; try assumption.
  apply Forall_app. split;
    (eapply Forall_impl; [eassumption|]); intros c; apply set_digito.
Qed.

End ProcessoFacts.


(** * Properties of the floating-point model

    What [gerar_valor_extenso] needs to know about binary64 arithmetic:
    the number read from a string is a canonical float, and for a canonical
    finite [n] the expression [round((n - int(n)) * 100)] is computed
    without overflow and is a small integer. *)

Module FloatFacts.
Local Open Scope Z_scope.

Local Abbreviation prec := Float.prec.
Local Abbreviation emax := Float.emax.
Local Abbreviation fexp := (SpecFloat.fexp prec emax).
Local Abbreviation D := Zdigits2.

Lemma fexp_eq (x : Z) : fexp x = Z.max (x - 53) (-1074).
Proof. reflexivity. Qed.

(** *** The number of binary digits *)

Lemma digits2_size (p : positive) : digits2_pos p = Pos.size p.
Proof. induction p; simpl; congruence. Qed.

Lemma D_pos (m : Z) : 0 < m -> 0 < D m.
Proof. destruct m; simpl; lia. Qed.

Lemma D_nonneg (m : Z) : 0 <= D m.
Proof. destruct m; simpl; lia. Qed.

Lemma D_bounds (m : Z) : 0 < m -> 2 ^ (D m - 1) <= m < 2 ^ D m.
Proof.
  destruct m as [|p|p]; try lia. intros _.
  change (D (Z.pos p)) with (Z.pos (digits2_pos p)). rewrite digits2_size.
  pose proof (Pos.size_gt p) as Hgt. pose proof (Pos.size_le p) as Hle.
  apply Pos2Z.pos_lt_pos in Hgt. apply Pos2Z.pos_le_pos in Hle.
  rewrite Pos2Z.inj_pow in Hgt, Hle.
  replace (Z.pos (Pos.size p)) with (Z.succ (Z.pos (Pos.size p) - 1)) in Hle
    by lia.
  rewrite Z.pow_succ_r in Hle by lia. lia.
Qed.

Lemma D_unique (m d : Z) : 0 < m -> 2 ^ (d - 1) <= m < 2 ^ d -> D m = d.
Proof.
  intros Hm [Hlo Hhi]. pose proof (D_bounds m Hm) as [Hlo' Hhi'].
  pose proof (D_pos m Hm).
  assert (Hd : 0 < d).
  { destruct (Z_lt_le_dec 0 d); [done|]. exfalso.
    destruct (Z.eq_dec d 0) as [->|]; [simpl in Hhi; lia|].
    rewrite Z.pow_neg_r in Hhi by lia. lia. }
  destruct (Z_lt_le_dec (D m) d) as [Hlt|Hge].
  - assert (2 ^ D m <= 2 ^ (d - 1)) by (apply Z.pow_le_mono_r; lia). lia.
  - destruct (Z_lt_le_dec d (D m)) as [Hlt|Hle]; [|lia].
    assert (2 ^ d <= 2 ^ (D m - 1)) by (apply Z.pow_le_mono_r; lia). lia.
Qed.

Lemma D_lt_pow (m B : Z) : 0 <= m -> 0 <= B -> (D m <= B <-> m < 2 ^ B).
Proof.
  intros Hm HB. destruct (Z.eq_dec m 0) as [->|].
  { simpl. pose proof (Z.pow_pos_nonneg 2 B). lia. }
  pose proof (D_bounds m ltac:(lia)) as [Hlo Hhi]. split.
  - intros Hle. assert (2 ^ D m <= 2 ^ B) by (apply Z.pow_le_mono_r; lia). lia.
  - intros Hlt. destruct (Z_lt_le_dec B (D m)); [|lia].
    assert (2 ^ B <= 2 ^ (D m - 1)) by (apply Z.pow_le_mono_r; lia). lia.
Qed.

Lemma D_mul_pow2 (m k : Z) : 0 < m -> 0 <= k -> D (m * 2 ^ k) = D m + k.
Proof.
  intros Hm Hk. pose proof (D_bounds m Hm) as [Hlo Hhi].
  pose proof (D_pos m Hm). pose proof (Z.pow_pos_nonneg 2 k).
  apply D_unique; [nia|].
  replace (D m + k - 1) with ((D m - 1) + k) by lia.
  rewrite !Z.pow_add_r by lia. nia.
Qed.

Lemma D_div_pow2 (m k : Z) :
  0 < m -> 0 <= k -> 2 ^ k <= m -> D (m / 2 ^ k) = D m - k.
Proof.
  intros Hm Hk Hle. pose proof (D_bounds m Hm) as [Hlo Hhi].
  pose proof (Z.pow_pos_nonneg 2 k ltac:(lia) Hk) as Hp.
  assert (Hq : 0 < m / 2 ^ k) by (apply Z.div_str_pos; lia).
  assert (HDk : k < D m).
  { destruct (Z_lt_le_dec k (D m)); [done|].
    assert (2 ^ D m <= 2 ^ k) by (apply Z.pow_le_mono_r; lia). lia. }
  apply D_unique; [done|]. split.
  - apply Z.div_le_lower_bound; [lia|].
    rewrite <- Z.pow_add_r by lia. by replace (k + (D m - k - 1)) with (D m - 1) by lia.
  - apply Z.div_lt_upper_bound; [lia|].
    rewrite <- Z.pow_add_r by lia. by replace (k + (D m - k)) with (D m) by lia.
Qed.

Lemma D_mono (a b : Z) : 0 <= a <= b -> D a <= D b.
Proof.
  intros [Ha Hab]. destruct (Z.eq_dec a 0) as [->|]; [apply D_nonneg|].
  pose proof (D_bounds b ltac:(lia)) as [_ Hb].
  apply D_lt_pow; [lia | apply D_nonneg | lia].
Qed.

Lemma D_succ (m : Z) : 0 <= m -> D (m + 1) <= D m + 1.
Proof.
  intros Hm. destruct (Z.eq_dec m 0) as [->|]; [done|].
  pose proof (D_bounds m ltac:(lia)) as [_ Hhi]. pose proof (D_nonneg m).
  apply D_lt_pow; [lia..|]. rewrite Z.pow_add_r by lia. simpl (2 ^ 1). lia.
Qed.

Lemma D_mul (a b : Z) : 0 < a -> 0 < b -> D (a * b) <= D a + D b.
Proof.
  intros Ha Hb. pose proof (D_bounds a Ha) as [_ Ha'].
  pose proof (D_bounds b Hb) as [_ Hb']. pose proof (D_nonneg a).
  pose proof (D_nonneg b).
  apply D_lt_pow; [nia | lia |]. rewrite Z.pow_add_r by lia. nia.
Qed.

(** *** Shifting right and rounding *)

Lemma fexp_mono (a b : Z) : a <= b -> fexp a <= fexp b.
Proof. rewrite !fexp_eq. lia. Qed.

Lemma shr_1_m (mrs : shr_record) :
  0 <= shr_m mrs -> shr_m (shr_1 mrs) = shr_m mrs / 2.
Proof.
  destruct mrs as [m r s]. simpl. intros Hm.
  destruct m as [|[p|p|]|p]; simpl; try lia; try reflexivity.
  - apply Z.div_unique with (r := 1); lia.
  - apply Z.div_unique with (r := 0); lia.
Qed.

Lemma iter_shr_m (p : positive) :
  forall mrs, 0 <= shr_m mrs ->
              shr_m (SpecFloat.iter_pos shr_1 p mrs) = shr_m mrs / 2 ^ Z.pos p.
Proof.
  assert (Hnn : forall mrs, 0 <= shr_m mrs -> 0 <= shr_m (shr_1 mrs)).
  { intros mrs H. rewrite shr_1_m by done. by apply Z.div_pos. }
  induction p as [p IH|p IH|]; intros mrs Hm; simpl SpecFloat.iter_pos.
  - pose proof (Z.pow_pos_nonneg 2 (Z.pos p) ltac:(lia) ltac:(lia)).
    rewrite IH, IH, shr_1_m; try done.
    + rewrite !Z.div_div by lia. f_equal.
      replace (Z.pos p~1) with (1 + Z.pos p + Z.pos p) by lia.
      rewrite !Z.pow_add_r by lia. change (2 ^ 1) with 2. lia.
    + by apply Hnn.
    + rewrite IH by (by apply Hnn). apply Z.div_pos; [by apply Hnn | lia].
  - pose proof (Z.pow_pos_nonneg 2 (Z.pos p) ltac:(lia) ltac:(lia)).
    rewrite IH, IH; try done.
    + rewrite !Z.div_div by lia. f_equal.
      replace (Z.pos p~0) with (Z.pos p + Z.pos p) by lia.
      by rewrite Z.pow_add_r by lia.
    + rewrite IH by done. apply Z.div_pos; [done | lia].
  - by rewrite shr_1_m.
Qed.

Lemma shr_m_of_loc (m : Z) (l : location) : shr_m (shr_record_of_loc m l) = m.
Proof. by destruct l as [|[]]. Qed.

(** [shr_fexp] divides the mantissa by a power of two chosen so that the
    exponent becomes at least [fexp] of the magnitude. *)
Lemma shr_fexp_spec (m e : Z) (l : location) :
  0 <= m ->
  exists mrs,
    shr_fexp prec emax m e l = (mrs, e + Z.max (fexp (D m + e) - e) 0)
    /\ shr_m mrs = m / 2 ^ Z.max (fexp (D m + e) - e) 0.
Proof.
  intros Hm. unfold shr_fexp, shr.
  destruct (fexp (D m + e) - e) as [|p|p] eqn:E.
  - eexists. rewrite Z.add_0_r. split; [reflexivity|].
    rewrite shr_m_of_loc. simpl. by rewrite Z.div_1_r.
  - eexists. split; [reflexivity|].
    rewrite iter_shr_m by (by rewrite shr_m_of_loc). by rewrite shr_m_of_loc.
  - eexists. rewrite Z.add_0_r. split; [reflexivity|].
    rewrite shr_m_of_loc. simpl. by rewrite Z.div_1_r.
Qed.

Lemma round_nearest_even_bounds (m : Z) (l : location) :
  m <= round_nearest_even m l <= m + 1.
Proof. destruct l as [|[]]; simpl; try destruct (Z.even m); lia. Qed.

(** The mantissa after a shift, with its number of digits. *)
Lemma D_shift (m k : Z) :
  0 <= m -> 0 <= k ->
  (2 ^ k <= m /\ D (m / 2 ^ k) = D m - k) \/ (m / 2 ^ k = 0 /\ D m <= k).
Proof.
  intros Hm Hk. pose proof (Z.pow_pos_nonneg 2 k ltac:(lia) Hk).
  destruct (Z_lt_le_dec m (2 ^ k)) as [Hlt|Hle].
  - right. split; [by apply Z.div_small | by apply D_lt_pow].
  - left. split; [done | apply D_div_pow2; lia].
Qed.

(** What [binary_round_aux] computes: two shifts with a rounding between
    them, then the choice between zero, a finite number and infinity. *)
Lemma binary_round_aux_spec (sx : bool) (mx ex : Z) (lx : location) :
  0 <= mx ->
  exists m1 m2 e1 e2,
    mx / 2 ^ Z.max (fexp (D mx + ex) - ex) 0 <= m1
      <= mx / 2 ^ Z.max (fexp (D mx + ex) - ex) 0 + 1
    /\ e1 = ex + Z.max (fexp (D mx + ex) - ex) 0
    /\ m2 = m1 / 2 ^ Z.max (fexp (D m1 + e1) - e1) 0
    /\ e2 = e1 + Z.max (fexp (D m1 + e1) - e1) 0
    /\ binary_round_aux prec emax sx mx ex lx =
       match m2 with
       | Z0 => S754_zero sx
       | Zpos m => if e2 <=? 971 then S754_finite sx m e2 else S754_infinity sx
       | Zneg _ => S754_nan
       end.
Proof.
  intros Hmx. unfold binary_round_aux.
  destruct (shr_fexp_spec mx ex lx Hmx) as (mrs1 & E1 & Hm1).
  rewrite E1.
  pose proof (round_nearest_even_bounds (shr_m mrs1) (loc_of_shr_record mrs1))
    as Hb.
  set (m1 := round_nearest_even (shr_m mrs1) (loc_of_shr_record mrs1)) in *.
  set (e1 := ex + Z.max (fexp (D mx + ex) - ex) 0) in *.
  assert (Hm1nn : 0 <= m1).
  { rewrite Hm1 in Hb.
    pose proof (Z.div_pos mx (2 ^ Z.max (fexp (D mx + ex) - ex) 0) Hmx
                  ltac:(apply Z.pow_pos_nonneg; lia)). lia. }
  destruct (shr_fexp_spec m1 e1 loc_Exact Hm1nn) as (mrs2 & E2 & Hm2).
  rewrite E2.
  exists m1, (shr_m mrs2), e1, (e1 + Z.max (fexp (D m1 + e1) - e1) 0).
  rewrite <- Hm1. repeat split; try done; lia.
Qed.

(** The magnitude of the result: rounding adds at most one binary digit. *)
Lemma binary_round_aux_magnitude (sx : bool) (mx ex : Z) (lx : location) (B : Z) :
  0 <= mx -> D mx + ex <= B -> -1074 <= B <= 1023 -> ex <= 971 ->
  match binary_round_aux prec emax sx mx ex lx with
  | S754_zero _ => True
  | S754_finite _ m e => D (Z.pos m) + e <= B + 1
  | _ => False
  end.
Proof.
  intros Hmx HB HBr Hex.
  destruct (binary_round_aux_spec sx mx ex lx Hmx)
    as (m1 & m2 & e1 & e2 & Hm1 & He1 & Hm2 & He2 & ->).
  set (k1 := Z.max (fexp (D mx + ex) - ex) 0) in *.
  set (k2 := Z.max (fexp (D m1 + e1) - e1) 0) in *.
  assert (Hk1 : 0 <= k1) by lia. assert (Hk2 : 0 <= k2) by lia.
  pose proof (fexp_eq (D mx + ex)) as F1.
  pose proof (fexp_eq (D m1 + e1)) as F2.
  assert (Hq : 0 <= mx / 2 ^ k1)
    by (apply Z.div_pos; [done | apply Z.pow_pos_nonneg; lia]).
  pose proof (D_shift mx k1 Hmx Hk1) as Hsh.
  set (q := mx / 2 ^ k1) in *.
  assert (Hm1nn : 0 <= m1) by lia.
  assert (H1 : D m1 + e1 <= B + 1).
  { pose proof (D_mono m1 (q + 1) ltac:(lia)) as Hd.
    pose proof (D_succ q Hq) as Hs.
    destruct Hsh as [[_ Hd1]|[Hz Hd1]].
    - lia.
    - rewrite Hz in Hs, Hd. change (D 0) with 0 in Hs.
      pose proof (D_nonneg mx). lia. }
  assert (He2b : e2 <= 971) by lia.
  pose proof (D_shift m1 k2 Hm1nn Hk2) as Hsh2.
  pose proof (Z.div_pos m1 (2 ^ k2) Hm1nn
                ltac:(apply Z.pow_pos_nonneg; lia)) as Hq2.
  rewrite <- Hm2 in Hsh2, Hq2.
  destruct m2 as [|p|p] eqn:Em2; [done| |lia].
  apply Z.leb_le in He2b. rewrite He2b.
  destruct Hsh2 as [[_ Hd2]|[Hz _]]; [lia | done].
Qed.

(** On an input whose exponent does not exceed the canonical one, the
    result is a valid binary64 number. *)
Lemma binary_round_aux_valid (sx : bool) (mx ex : Z) (lx : location) :
  0 <= mx -> ex <= fexp (D mx + ex) ->
  valid_binary prec emax (binary_round_aux prec emax sx mx ex lx) = true.
Proof.
  intros Hmx Hal.
  destruct (binary_round_aux_spec sx mx ex lx Hmx)
    as (m1 & m2 & e1 & e2 & Hm1 & He1 & Hm2 & He2 & ->).
  set (k1 := Z.max (fexp (D mx + ex) - ex) 0) in *.
  set (k2 := Z.max (fexp (D m1 + e1) - e1) 0) in *.
  assert (Hk1 : 0 <= k1) by lia. assert (Hk2 : 0 <= k2) by lia.
  assert (Hq : 0 <= mx / 2 ^ k1)
    by (apply Z.div_pos; [done | apply Z.pow_pos_nonneg; lia]).
  pose proof (D_shift mx k1 Hmx Hk1) as Hsh.
  set (q := mx / 2 ^ k1) in *.
  assert (Hm1nn : 0 <= m1) by lia.
  pose proof (D_shift m1 k2 Hm1nn Hk2) as Hsh2.
  assert (Hpos2 : 0 < m1 / 2 ^ k2 -> 0 < m1).
  { destruct (Z.eq_dec m1 0) as [->|]; [|lia].
    rewrite Z.div_0_l; [lia|].
    pose proof (Z.pow_pos_nonneg 2 k2 ltac:(lia) Hk2). lia. }
  rewrite <- Hm2 in Hsh2, Hpos2.
  destruct m2 as [|p|p] eqn:Em2; [done| |done].
  destruct (Z.leb_spec e2 971) as [Hle|Hgt]; [|done].
  simpl. unfold bounded, canonical_mantissa.
  apply andb_true_intro. split; [|by apply Z.leb_le].
  apply Z.eqb_eq.
  change (Z.pos (digits2_pos p)) with (D (Z.pos p)).
  destruct Hsh2 as [[_ Hd2]|[Hz _]]; [|done].
  replace (D (Z.pos p) + e2) with (D m1 + e1) by lia.
  destruct (Z_lt_le_dec 0 (fexp (D m1 + e1) - e1)) as [Hpos|Hnp]; [lia|].
  assert (fexp (D mx + ex) <= fexp (D m1 + e1)); [|lia].
  apply fexp_mono.
  destruct Hsh as [[_ Hd1]|[Hz Hd1]].
  - pose proof (D_mono q m1 ltac:(lia)). lia.
  - pose proof (D_pos m1 ltac:(lia)). lia.
Qed.

(** *** Exact cases *)

Lemma shr_1_exact (m : Z) :
  0 <= m ->
  shr_1 (Build_shr_record (2 * m) false false) = Build_shr_record m false false.
Proof. destruct m as [|p|p]; [reflexivity | reflexivity | lia]. Qed.

Lemma iter_shr_exact (p : positive) :
  forall m, 0 <= m ->
            SpecFloat.iter_pos shr_1 p (Build_shr_record (m * 2 ^ Z.pos p) false false)
            = Build_shr_record m false false.
Proof.
  induction p as [p IH|p IH|]; intros m Hm; cbn [SpecFloat.iter_pos].
  - pose proof (Z.pow_pos_nonneg 2 (Z.pos p) ltac:(lia) ltac:(lia)).
    replace (m * 2 ^ Z.pos p~1) with (2 * (m * 2 ^ Z.pos p * 2 ^ Z.pos p)).
    + rewrite shr_1_exact by nia. rewrite IH by nia. by apply IH.
    + replace (Z.pos p~1) with (Z.pos p + Z.pos p + 1) by lia.
      rewrite !Z.pow_add_r by lia. change (2 ^ 1) with 2. lia.
  - pose proof (Z.pow_pos_nonneg 2 (Z.pos p) ltac:(lia) ltac:(lia)).
    replace (m * 2 ^ Z.pos p~0) with (m * 2 ^ Z.pos p * 2 ^ Z.pos p).
    + rewrite IH by nia. by apply IH.
    + replace (Z.pos p~0) with (Z.pos p + Z.pos p) by lia.
      rewrite !Z.pow_add_r by lia. lia.
  - change (2 ^ 1) with 2. rewrite Z.mul_comm. by apply shr_1_exact.
Qed.

Lemma shr_exact (m e k : Z) :
  0 <= m -> 0 <= k ->
  shr (Build_shr_record (m * 2 ^ k) false false) e k
  = (Build_shr_record m false false, e + k).
Proof.
  intros Hm Hk. destruct k as [|p|p]; [| |lia].
  - simpl. by rewrite Z.mul_1_r, Z.add_0_r.
  - unfold shr. by rewrite iter_shr_exact.
Qed.

(** A mantissa that is a canonical one times a power of two is rounded to
    the canonical one, exactly. *)
Lemma binary_round_aux_exact (sx : bool) (M : positive) (E k : Z) :
  0 <= k -> fexp (D (Z.pos M) + E) = E -> E <= 971 ->
  binary_round_aux prec emax sx (Z.pos M * 2 ^ k) (E - k) loc_Exact
  = S754_finite sx M E.
Proof.
  intros Hk Hc HE. unfold binary_round_aux, shr_fexp.
  rewrite D_mul_pow2 by lia.
  replace (D (Z.pos M) + k + (E - k)) with (D (Z.pos M) + E) by lia.
  rewrite Hc. replace (E - (E - k)) with k by lia.
  change (shr_record_of_loc (Z.pos M * 2 ^ k) loc_Exact)
    with (Build_shr_record (Z.pos M * 2 ^ k) false false).
  rewrite shr_exact by lia.
  replace (E - k + k) with E by lia.
  cbn [shr_m loc_of_shr_record round_nearest_even].
  rewrite Hc, Z.sub_diag. cbn [shr shr_record_of_loc shr_m].
  apply Z.leb_le in HE. change (emax - prec) with 971. by rewrite HE.
Qed.

Lemma shl_align_spec (mx : positive) (ex ex' : Z) :
  Z.pos (fst (shl_align mx ex ex')) = Z.pos mx * 2 ^ Z.max (ex - ex') 0
  /\ snd (shl_align mx ex ex') = ex - Z.max (ex - ex') 0.
Proof.
  unfold shl_align. destruct (ex' - ex) as [|d|d] eqn:E; cbn [fst snd].
  - replace (Z.max (ex - ex') 0) with 0 by lia. lia.
  - replace (Z.max (ex - ex') 0) with 0 by lia. lia.
  - replace (Z.max (ex - ex') 0) with (Z.pos d) by lia. split; [|lia].
    pose proof (Zpower.shift_pos_correct d mx) as Hs.
    unfold Zpower.shift_pos in Hs. rewrite Hs.
    change (Z.pow_pos 2 d) with (2 ^ Z.pos d). lia.
Qed.

(** *** [binary_round] and the conversions from integers *)

Lemma binary_round_unfold (sx : bool) (mx : positive) (ex : Z) :
  exists mz ez,
    binary_round prec emax sx mx ex
    = binary_round_aux prec emax sx (Z.pos mz) ez loc_Exact
    /\ Z.pos mz = Z.pos mx * 2 ^ Z.max (ex - fexp (D (Z.pos mx) + ex)) 0
    /\ ez = ex - Z.max (ex - fexp (D (Z.pos mx) + ex)) 0.
Proof.
  unfold binary_round.
  pose proof (shl_align_spec mx ex (fexp (D (Z.pos mx) + ex))) as [H1 H2].
  change (Z.pos (digits2_pos mx)) with (D (Z.pos mx)).
  destruct (shl_align mx ex (fexp (D (Z.pos mx) + ex))) as [mz ez].
  exists mz, ez. by split.
Qed.

Lemma binary_round_valid (sx : bool) (mx : positive) (ex : Z) :
  valid_binary prec emax (binary_round prec emax sx mx ex) = true.
Proof.
  destruct (binary_round_unfold sx mx ex) as (mz & ez & -> & Hm & He).
  apply binary_round_aux_valid; [lia|].
  rewrite Hm, D_mul_pow2 by lia.
  replace (D (Z.pos mx) + Z.max (ex - fexp (D (Z.pos mx) + ex)) 0 + ez)
    with (D (Z.pos mx) + ex) by lia.
  lia.
Qed.

Lemma binary_round_magnitude (sx : bool) (mx : positive) (ex B : Z) :
  D (Z.pos mx) + ex <= B -> -1074 <= B <= 1023 -> ex <= 971 ->
  magnitude_le (B + 1) (binary_round prec emax sx mx ex).
Proof.
  intros HB HBr Hex.
  destruct (binary_round_unfold sx mx ex) as (mz & ez & -> & Hm & He).
  apply binary_round_aux_magnitude; [lia| |done|lia].
  rewrite Hm, D_mul_pow2 by lia. lia.
Qed.

(** A number that has a canonical representation is rounded to it. *)
Lemma binary_round_exact (sx : bool) (mx M : positive) (ex E : Z) :
  fexp (D (Z.pos M) + E) = E -> E <= 971 ->
  Z.pos mx * 2 ^ Z.max (ex - E) 0 = Z.pos M * 2 ^ Z.max (E - ex) 0 ->
  binary_round prec emax sx mx ex = S754_finite sx M E.
Proof.
  intros Hc HE Hv.
  destruct (binary_round_unfold sx mx ex) as (mz & ez & -> & Hm & He).
  assert (Hd : D (Z.pos mx) + ex = D (Z.pos M) + E).
  { apply (f_equal D) in Hv. rewrite !D_mul_pow2 in Hv by lia. lia. }
  rewrite Hd, Hc in Hm, He.
  rewrite Hv in Hm. rewrite Hm.
  replace ez with (E - Z.max (E - ex) 0) by lia.
  apply binary_round_aux_exact; [lia | done | done].
Qed.

Lemma binary_normalize_valid (m e : Z) (s : bool) :
  valid_binary prec emax (binary_normalize prec emax m e s) = true.
Proof. destruct m; [done | apply binary_round_valid ..]. Qed.

Lemma of_Z_signed (sg : bool) (p : positive) :
  Float.of_Z (if sg then - Z.pos p else Z.pos p)
  = binary_round prec emax sg p 0.
Proof. by destruct sg. Qed.

(** [float(i)] is exact when [i] is the value of a canonical double. *)
Lemma of_Z_multiple (sg : bool) (m : positive) (e : Z) :
  0 <= e <= 971 -> fexp (D (Z.pos m) + e) = e ->
  Float.of_Z (if sg then - (Z.pos m * 2 ^ e) else Z.pos m * 2 ^ e)
  = S754_finite sg m e.
Proof.
  intros He Hc.
  pose proof (Z.pow_pos_nonneg 2 e ltac:(lia) ltac:(lia)).
  destruct (Z.pos m * 2 ^ e) as [|p|p] eqn:Ep; [lia| |lia].
  rewrite of_Z_signed. apply binary_round_exact; [done | lia |].
  replace (Z.max (0 - e) 0) with 0 by lia.
  replace (Z.max (e - 0) 0) with e by lia. lia.
Qed.

(** [float(v)] is exact below [2 ^ 53]. *)
Lemma of_Z_small (sg : bool) (v : positive) :
  D (Z.pos v) <= 53 ->
  exists M,
    Float.of_Z (if sg then - Z.pos v else Z.pos v)
    = S754_finite sg M (D (Z.pos v) - 53)
    /\ Z.pos M = Z.pos v * 2 ^ (53 - D (Z.pos v)).
Proof.
  intros Hd. pose proof (D_pos (Z.pos v) ltac:(lia)) as Hp.
  pose proof (Z.pow_pos_nonneg 2 (53 - D (Z.pos v)) ltac:(lia) ltac:(lia)).
  destruct (Z.pos v * 2 ^ (53 - D (Z.pos v))) as [|M|M] eqn:EM; [lia| |lia].
  exists M. split; [|done].
  rewrite of_Z_signed. apply binary_round_exact.
  - rewrite <- EM, D_mul_pow2 by lia. rewrite fexp_eq. lia.
  - lia.
  - replace (Z.max (0 - (D (Z.pos v) - 53)) 0) with (53 - D (Z.pos v)) by lia.
    replace (Z.max (D (Z.pos v) - 53 - 0) 0) with 0 by lia. lia.
Qed.

(** *** Rounding to an integer *)

Lemma round_bound (s : bool) (m : positive) (e B : Z) :
  D (Z.pos m) + e <= B -> 0 <= B ->
  exists c, Float.round (S754_finite s m e) = Ok c /\ - 2 ^ B <= c <= 2 ^ B.
Proof.
  intros HB HB0. unfold Float.round. eexists. split; [reflexivity|].
  pose proof (D_bounds (Z.pos m) ltac:(lia)) as [_ Hhi].
  pose proof (D_pos (Z.pos m) ltac:(lia)) as Hdp.
  match goal with |- _ <= (if s then - ?x else ?x) <= _ => set (v := x) end.
  assert (Hv : 0 <= v <= 2 ^ B); [|destruct s; lia].
  subst v. destruct (Z.leb_spec 0 e) as [He|He].
  - pose proof (Z.pow_pos_nonneg 2 e ltac:(lia) He).
    split; [nia|].
    assert (Z.pos m * 2 ^ e < 2 ^ (D (Z.pos m) + e)).
    { rewrite Z.pow_add_r by lia. nia. }
    pose proof (Z.pow_le_mono_r 2 (D (Z.pos m) + e) B ltac:(lia) HB). lia.
  - pose proof (Z.pow_pos_nonneg 2 (- e) ltac:(lia) ltac:(lia)) as Hd.
    set (d := 2 ^ (- e)) in *.
    pose proof (Z.div_pos (Z.pos m) d ltac:(lia) Hd) as Hq.
    assert (Hq1 : Z.pos m / d + 1 <= 2 ^ B).
    { destruct (Z_lt_le_dec (D (Z.pos m) + e) 0) as [Hneg|Hnn].
      - pose proof (Z.pow_le_mono_r 2 (D (Z.pos m)) (- e) ltac:(lia) ltac:(lia)).
        rewrite Z.div_small by (subst d; lia).
        pose proof (Z.pow_pos_nonneg 2 B ltac:(lia) HB0). lia.
      - assert (Z.pos m / d < 2 ^ (D (Z.pos m) + e)).
        { apply Z.div_lt_upper_bound; [done|].
          subst d. rewrite <- Z.pow_add_r by lia.
          by replace (- e + (D (Z.pos m) + e)) with (D (Z.pos m)) by lia. }
        pose proof (Z.pow_le_mono_r 2 (D (Z.pos m) + e) B ltac:(lia) HB). lia. }
    destruct (2 * (Z.pos m mod d) ?= d); [destruct (Z.even _) | |]; lia.
Qed.

Lemma round_magnitude (x : spec_float) (B : Z) :
  magnitude_le B x -> 0 <= B ->
  exists c, Float.round x = Ok c /\ - 2 ^ B <= c <= 2 ^ B.
Proof.
  intros Hx HB. destruct x as [s|s| |s m e]; try done.
  - exists 0. split; [done|].
    pose proof (Z.pow_pos_nonneg 2 B ltac:(lia) HB). lia.
  - by apply round_bound.
Qed.

(** *** The fractional part and the cents *)

Lemma of_Z_100 : Float.of_Z 100 = S754_finite false 7036874417766400 (-46).
Proof. vm_compute. reflexivity. Qed.

Lemma mul_100_bound (y : spec_float) :
  magnitude_le 1 y ->
  exists c, Float.round (Float.mul y (Float.of_Z 100)) = Ok c
            /\ -512 <= c <= 512.
Proof.
  intros Hy. rewrite of_Z_100.
  apply (round_magnitude _ 9); [|lia].
  destruct y as [s|s| |s m e]; try done.
  unfold Float.mul, SFmul. change (D (Z.pos m) + e <= 1) in Hy.
  apply (binary_round_aux_magnitude _ _ _ _ 8); [lia| |lia|].
  - pose proof (D_mul (Z.pos m) 7036874417766400 ltac:(lia) ltac:(lia)) as Hd.
    change (D 7036874417766400) with 53 in Hd.
    change (Z.pos (m * 7036874417766400))
      with (Z.pos m * 7036874417766400). lia.
  - pose proof (D_pos (Z.pos m) ltac:(lia)). lia.
Qed.

(** The difference of two doubles of the same sign, the second one below
    the first by less than one unit of [2 ^ 0]. *)
Lemma sub_aligned (sg : bool) (m M : positive) (e E : Z) :
  E <= e -> E <= 0 ->
  0 <= Z.pos m * 2 ^ (e - E) - Z.pos M < 2 ^ (- E) ->
  magnitude_le 1 (Float.sub (S754_finite sg m e) (S754_finite sg M E)).
Proof.
  intros HEe HE Hd. unfold Float.sub, SFsub.
  rewrite Z.min_r by lia.
  destruct (shl_align_spec m e E) as [HA _].
  destruct (shl_align_spec M E E) as [HM _].
  rewrite Z.max_l in HA by lia.
  rewrite Z.sub_diag in HM. change (2 ^ Z.max 0 0) with 1 in HM.
  set (A := fst (shl_align m e E)) in *.
  set (M' := fst (shl_align M E E)) in *.
  assert (Hc : cond_Zopp sg (Z.pos A) - cond_Zopp sg (Z.pos M')
               = cond_Zopp sg (Z.pos A - Z.pos M'))
    by (unfold cond_Zopp; destruct sg; lia).
  rewrite Hc.
  destruct (Z.pos A - Z.pos M') as [|q|q] eqn:Eq; [by destruct sg| |lia].
  assert (magnitude_le (0 + 1) (binary_round prec emax sg q E)) as Hq.
  { apply binary_round_magnitude; [|lia|lia].
    assert (D (Z.pos q) <= - E); [|lia].
    apply D_lt_pow; lia. }
  by destruct sg.
Qed.

(** The fractional part [x - float(int(x))] of a valid double is below
    one in absolute value. *)
Lemma fraction_small (x : spec_float) (i : Z) :
  valid_binary prec emax x = true -> Float.to_int x = Ok i ->
  magnitude_le 1 (Float.sub x (Float.of_Z i)).
Proof.
  intros Hval Hint. destruct x as [s|s| |sg m e]; try done.
  - injection Hint as <-. by destruct s.
  - simpl in Hval. unfold bounded, canonical_mantissa in Hval.
    apply andb_prop in Hval as [Hc He].
    apply Z.eqb_eq in Hc. apply Z.leb_le in He.
    change (Z.pos (digits2_pos m)) with (D (Z.pos m)) in Hc.
    change (emax - prec) with 971 in He.
    pose proof (fexp_eq (D (Z.pos m) + e)) as Hf.
    unfold Float.to_int in Hint. injection Hint as <-.
    destruct (Z.leb_spec 0 e) as [Hnn|Hneg].
    + rewrite of_Z_multiple by (done || lia).
      unfold Float.sub, SFsub. rewrite Z.min_id.
      unfold shl_align. rewrite ?Z.sub_diag. cbn [fst]. by rewrite ?Z.sub_diag.
    + pose proof (Z.pow_pos_nonneg 2 (- e) ltac:(lia) ltac:(lia)) as Hd.
      pose proof (Z.div_pos (Z.pos m) (2 ^ (- e)) ltac:(lia) Hd) as Hq.
      pose proof (Z.div_mod (Z.pos m) (2 ^ (- e)) ltac:(lia)) as Hdm.
      pose proof (Z.mod_pos_bound (Z.pos m) (2 ^ (- e)) Hd) as Hr.
      destruct (Z.pos m / 2 ^ (- e)) as [|P|P] eqn:EP; [| |lia].
      * replace (Float.of_Z (if sg then - 0 else 0)) with (S754_zero false)
          by (by destruct sg).
        change (D (Z.pos m) + e <= 1). assert (D (Z.pos m) <= - e); [|lia].
        apply D_lt_pow; lia.
      * assert (HDP : D (Z.pos P) = D (Z.pos m) - - e).
        { rewrite <- EP. apply D_div_pow2; [lia | lia |].
          rewrite Hdm. nia. }
        destruct (of_Z_small sg P ltac:(lia)) as (M & -> & HM).
        apply sub_aligned; [lia | lia |].
        rewrite HM.
        replace (53 - D (Z.pos P))
          with (- e + (e - (D (Z.pos P) - 53))) by lia.
        replace (- (D (Z.pos P) - 53))
          with (- e + (e - (D (Z.pos P) - 53))) by lia.
        rewrite Z.pow_add_r by lia.
        pose proof (Z.pow_pos_nonneg 2 (e - (D (Z.pos P) - 53))
                      ltac:(lia) ltac:(lia)) as Hk.
        set (k := 2 ^ (e - (D (Z.pos P) - 53))) in *.
        set (d := 2 ^ (- e)) in *.
        set (r := Z.pos m mod d) in *.
        rewrite Hdm at 1.
        replace ((d * Z.pos P + r) * k - Z.pos P * (d * k)) with (r * k) by lia.
        nia.
Qed.

(** [round((x - int(x)) * 100)] returns, and the cents are small. *)
Lemma centavos_total (x : spec_float) (i : Z) :
  valid_binary prec emax x = true -> Float.to_int x = Ok i ->
  exists c,
    Float.round (Float.mul (Float.sub x (Float.of_Z i)) (Float.of_Z 100)) = Ok c
    /\ -512 <= c <= 512.
Proof. intros Hval Hint. apply mul_100_bound. by apply fraction_small. Qed.

(** *** The doubles that [float(s)] returns *)

Lemma D_div (a b : Z) : 0 < a -> 0 < b -> D a - D b <= D (a / b).
Proof.
  intros Ha Hb. pose proof (D_bounds b Hb) as [_ Hhi].
  pose proof (D_nonneg b) as Hdb.
  pose proof (Z.pow_pos_nonneg 2 (D b) ltac:(lia) Hdb) as Hp.
  destruct (Z_lt_le_dec a (2 ^ D b)) as [Hlt|Hle].
  - apply D_lt_pow in Hlt; [|lia|done].
    pose proof (D_nonneg (a / b)). lia.
  - rewrite <- (D_div_pow2 a (D b)) by lia.
    apply D_mono. split.
    + apply Z.div_pos; lia.
    + apply Z.div_le_compat_l; lia.
Qed.

Lemma SFdiv_valid (sx sy : bool) (mx my : positive) (ex ey : Z) :
  valid_binary prec emax
    (SFdiv prec emax (S754_finite sx mx ex) (S754_finite sy my ey)) = true.
Proof.
  unfold SFdiv, SFdiv_core_binary. cbv zeta.
  set (e' := Z.min (fexp (D (Z.pos mx) + ex - (D (Z.pos my) + ey))) (ex - ey)).
  set (s := ex - ey - e').
  assert (Hs : 0 <= s) by lia.
  set (m' := match s with
             | 0 => Z.pos mx
             | Z.pos _ => Z.shiftl (Z.pos mx) s
             | Z.neg _ => 0
             end).
  assert (Hm' : m' = Z.pos mx * 2 ^ s).
  { subst m'. destruct s as [|p|p] eqn:Es; [lia| |lia].
    by rewrite Z.shiftl_mul_pow2 by lia. }
  pose proof (Z.pow_pos_nonneg 2 s ltac:(lia) Hs) as Hp.
  destruct (Z.div_eucl m' (Z.pos my)) as [q r] eqn:Ed.
  assert (Hq : q = m' / Z.pos my) by (unfold Z.div; by rewrite Ed).
  apply binary_round_aux_valid.
  - rewrite Hq. apply Z.div_pos; nia.
  - pose proof (D_div m' (Z.pos my) ltac:(nia) ltac:(lia)) as Hd.
    rewrite <- Hq, Hm', D_mul_pow2 in Hd by lia.
    pose proof (fexp_mono (D (Z.pos mx) + ex - (D (Z.pos my) + ey)) (D q + e')
                  ltac:(lia)).
    lia.
Qed.

Lemma of_decimal_valid (sg : bool) (m e : Z) :
  valid_binary prec emax (Float.of_decimal sg m e) = true.
Proof.
  unfold Float.of_decimal. destruct m as [|p|p]; [done| |done].
  destruct (0 <=? e); [apply binary_normalize_valid | apply SFdiv_valid].
Qed.

Lemma py_float_valid (db : unicode_db) (s : str) (x : spec_float) :
  py_float db s = Ok x -> valid_binary prec emax x = true.
Proof.
  unfold py_float. intros H.
  repeat case_match; try discriminate H; injection H as <-;
    try reflexivity; apply of_decimal_valid.
Qed.

(** *** Signs *)

Lemma binary_round_aux_sinal (sx : bool) (mx ex : Z) (lx : location) :
  0 <= mx -> sinal_de sx (binary_round_aux prec emax sx mx ex lx).
Proof.
  intros Hmx.
  destruct (binary_round_aux_spec sx mx ex lx Hmx)
    as (m1 & m2 & e1 & e2 & _ & _ & _ & _ & ->).
  destruct m2 as [|p|p]; [done| |done]. by destruct (e2 <=? 971).
Qed.

Lemma binary_round_sinal (sx : bool) (mx : positive) (ex : Z) :
  sinal_de sx (binary_round prec emax sx mx ex).
Proof.
  destruct (binary_round_unfold sx mx ex) as (mz & ez & -> & _ & _).
  apply binary_round_aux_sinal. lia.
Qed.

Lemma mul_100_sinal (sg : bool) (y : spec_float) :
  sinal_de sg y -> sinal_de sg (Float.mul y (Float.of_Z 100)).
Proof.
  rewrite of_Z_100. destruct y as [s|s| |s m e]; try done.
  intros <-. unfold Float.mul, SFmul.
  replace (xorb s false) with s by (by destruct s).
  apply binary_round_aux_sinal. lia.
Qed.

Lemma sub_aligned_sinal (sg : bool) (m M : positive) (e E : Z) :
  0 <= Z.pos m * 2 ^ (e - E) - Z.pos M -> E <= e ->
  sinal_de sg (Float.sub (S754_finite sg m e) (S754_finite sg M E)).
Proof.
  intros Hd HEe. unfold Float.sub, SFsub.
  rewrite Z.min_r by lia.
  destruct (shl_align_spec m e E) as [HA _].
  destruct (shl_align_spec M E E) as [HM _].
  rewrite Z.max_l in HA by lia.
  rewrite Z.sub_diag in HM. change (2 ^ Z.max 0 0) with 1 in HM.
  set (A := fst (shl_align m e E)) in *.
  set (M' := fst (shl_align M E E)) in *.
  assert (Hc : cond_Zopp sg (Z.pos A) - cond_Zopp sg (Z.pos M')
               = cond_Zopp sg (Z.pos A - Z.pos M'))
    by (unfold cond_Zopp; destruct sg; lia).
  rewrite Hc.
  destruct (Z.pos A - Z.pos M') as [|q|q] eqn:Eq; [by destruct sg| |lia].
  pose proof (binary_round_sinal sg q E) as Hq.
  by destruct sg.
Qed.

(** The fractional part has the sign of the number. *)
Lemma fraction_sinal (sg : bool) (m : positive) (e i : Z) :
  valid_binary prec emax (S754_finite sg m e) = true ->
  Float.to_int (S754_finite sg m e) = Ok i ->
  sinal_de sg (Float.sub (S754_finite sg m e) (Float.of_Z i)).
Proof.
  intros Hval Hint.
  simpl in Hval. unfold bounded, canonical_mantissa in Hval.
  apply andb_prop in Hval as [Hc He].
  apply Z.eqb_eq in Hc. apply Z.leb_le in He.
  change (Z.pos (digits2_pos m)) with (D (Z.pos m)) in Hc.
  change (emax - prec) with 971 in He.
  pose proof (fexp_eq (D (Z.pos m) + e)) as Hf.
  unfold Float.to_int in Hint. injection Hint as <-.
  destruct (Z.leb_spec 0 e) as [Hnn|Hneg].
  - rewrite of_Z_multiple by (done || lia).
    unfold Float.sub, SFsub. rewrite Z.min_id.
    unfold shl_align. rewrite ?Z.sub_diag. cbn [fst]. by rewrite ?Z.sub_diag.
  - pose proof (Z.pow_pos_nonneg 2 (- e) ltac:(lia) ltac:(lia)) as Hd.
    pose proof (Z.div_pos (Z.pos m) (2 ^ (- e)) ltac:(lia) Hd) as Hq.
    pose proof (Z.div_mod (Z.pos m) (2 ^ (- e)) ltac:(lia)) as Hdm.
    pose proof (Z.mod_pos_bound (Z.pos m) (2 ^ (- e)) Hd) as Hr.
    destruct (Z.pos m / 2 ^ (- e)) as [|P|P] eqn:EP; [| |lia].
    + replace (Float.of_Z (if sg then - 0 else 0)) with (S754_zero false)
        by (by destruct sg).
      reflexivity.
    + assert (HDP : D (Z.pos P) = D (Z.pos m) - - e).
      { rewrite <- EP. apply D_div_pow2; [lia | lia |].
        rewrite Hdm. nia. }
      destruct (of_Z_small sg P ltac:(lia)) as (M & -> & HM).
      apply sub_aligned_sinal; [|lia].
      rewrite HM.
      replace (53 - D (Z.pos P))
        with (- e + (e - (D (Z.pos P) - 53))) by lia.
      rewrite Z.pow_add_r by lia.
      pose proof (Z.pow_pos_nonneg 2 (e - (D (Z.pos P) - 53))
                    ltac:(lia) ltac:(lia)) as Hk.
      set (k := 2 ^ (e - (D (Z.pos P) - 53))) in *.
      set (d := 2 ^ (- e)) in *.
      set (r := Z.pos m mod d) in *.
      rewrite Hdm at 1.
      replace ((d * Z.pos P + r) * k - Z.pos P * (d * k)) with (r * k) by lia.
      nia.
Qed.

Lemma round_sinal_negativo (y : spec_float) (c : Z) :
  sinal_de true y -> Float.round y = Ok c -> c <= 0.
Proof.
  destruct y as [s|s| |s m e]; try done.
  - intros _ [= <-]. lia.
  - intros -> [= <-].
    match goal with |- - ?v <= 0 => assert (0 <= v); [|lia] end.
    destruct (Z.leb_spec 0 e) as [He|He].
    + pose proof (Z.pow_nonneg 2 e ltac:(lia)). nia.
    + pose proof (Z.pow_pos_nonneg 2 (- e) ltac:(lia) ltac:(lia)) as Hd.
      pose proof (Z.div_pos (Z.pos m) (2 ^ (- e)) ltac:(lia) Hd).
      destruct (2 * (Z.pos m mod 2 ^ (- e)) ?= 2 ^ (- e));
        [destruct (Z.even _)| |]; lia.
Qed.

(** For a negative number both the integer part and the cents are at most
    zero. *)
Lemma negativo_sem_partes (m : positive) (e i : Z) :
  valid_binary prec emax (S754_finite true m e) = true ->
  Float.to_int (S754_finite true m e) = Ok i ->
  i <= 0
  /\ exists c,
       Float.round (Float.mul (Float.sub (S754_finite true m e) (Float.of_Z i))
                      (Float.of_Z 100)) = Ok c
       /\ c <= 0.
Proof.
  intros Hval Hint. split.
  - unfold Float.to_int in Hint. injection Hint as <-.
    match goal with |- - ?v <= 0 => assert (0 <= v); [|lia] end.
    destruct (Z.leb_spec 0 e) as [He|He].
    + pose proof (Z.pow_nonneg 2 e ltac:(lia)). nia.
    + apply Z.div_pos; [lia|]. apply Z.pow_pos_nonneg; lia.
  - destruct (centavos_total _ i Hval Hint) as (c & Hc & _).
    exists c. split; [exact Hc|].
    refine (round_sinal_negativo _ c _ Hc).
    apply mul_100_sinal. by apply fraction_sinal.
Qed.

End FloatFacts.

(** * Lines that are a tax number and nothing else *)

Section LinhaDocumento.
Variable db : unicode_db.

Lemma mesma_classe_refl (fl : flags) (r : regex) (c : N) :
  mesma_classe db fl r c c = true.
Proof.
  induction r; cbn [mesma_classe]; rewrite ?Bool.eqb_reflx;
    try reflexivity; try assumption.
  - by rewrite IHr1, IHr2.
  - by rewrite IHr1, IHr2.
Qed.

Lemma algarismo_em_lista (d : N) : algarismo d -> In d (range_list 48 10).
Proof. intros [H1 H2]. apply In_range_list; lia. Qed.

(** A pattern that cannot tell the ten digits from "0" cannot tell a digit
    from "0". *)
Lemma algarismo_mesma_classe (fl : flags) (r : regex) (d : N) :
  forallb (fun d => mesma_classe db fl r d 48) (range_list 48 10) = true ->
  algarismo d -> mesma_classe db fl r d 48 = true.
Proof.
  intros H Hd. rewrite forallb_forall in H. by apply H, algarismo_em_lista.
Qed.

Lemma algarismo_nao_e_espaco (d : N) : algarismo d -> isspace db d = false.
Proof.
  intros Hd.
  assert (H : forallb (fun d => negb (isspace db d)) (range_list 48 10) = true)
    by (vm_compute; reflexivity).
  rewrite forallb_forall in H. apply negb_true_iff.
  by apply H, algarismo_em_lista.
Qed.

Ltac lista_de_comprimento l :=
  repeat match goal with
    | H : length l = S _ |- _ =>
        let x := fresh "x" in
        destruct l as [|x l]; [discriminate H|];
        cbn [length] in H; apply Nat.succ_inj in H
    | H : length l = O |- _ =>
        destruct l; [clear H | discriminate H]
    end.

Ltac algarismos_de H :=
  repeat match type of H with
    | Forall _ (_ :: _) =>
        let Hd := fresh "Hd" in
        apply List.Forall_cons_iff in H as [Hd H]
    end.

(** A text of the form of a CPF is matched as "000.000.000-00" is. *)
Lemma forma_cpf_zeros (fl : flags) (r : regex) (l : str) :
  forallb (fun d => mesma_classe db fl r d 48) (range_list 48 10) = true ->
  forma_cpf l ->
  Forall2 (fun c c' => mesma_classe db fl r c c' = true) l cpf_zeros.
Proof.
  intros Hr (a & b & c & d & -> & La & Lb & Lc & Ld & Hall).
  lista_de_comprimento a. lista_de_comprimento b.
  lista_de_comprimento c. lista_de_comprimento d.
  cbn [app] in Hall. algarismos_de Hall.
  change cpf_zeros with [48; 48; 48; 46; 48; 48; 48; 46; 48; 48; 48; 45; 48; 48].
  change (py ".") with [46]. change (py "-") with [45]. cbn [app].
  repeat (apply List.Forall2_cons;
          [first [ by apply algarismo_mesma_classe
                 | apply mesma_classe_refl ]|]).
  constructor.
Qed.

Lemma forma_cnpj_zeros (fl : flags) (r : regex) (l : str) :
  forallb (fun d => mesma_classe db fl r d 48) (range_list 48 10) = true ->
  forma_cnpj l ->
  Forall2 (fun c c' => mesma_classe db fl r c c' = true) l cnpj_zeros.
Proof.
  intros Hr (a & b & c & d & e & -> & La & Lb & Lc & Ld & Le & Hall).
  lista_de_comprimento a. lista_de_comprimento b.
  lista_de_comprimento c. lista_de_comprimento d. lista_de_comprimento e.
  cbn [app] in Hall. algarismos_de Hall.
  change cnpj_zeros
    with [48; 48; 46; 48; 48; 48; 46; 48; 48; 48; 47; 48; 48; 48; 48; 45; 48; 48].
  change (py ".") with [46]. change (py "-") with [45].
  change (py "/") with [47]. cbn [app].
  repeat (apply List.Forall2_cons;
          [first [ by apply algarismo_mesma_classe
                 | apply mesma_classe_refl ]|]).
  constructor.
Qed.

Lemma filter_todos {A : Type} (p : A -> bool) (l : list A) :
  Forall (fun x => p x = true) l -> List.filter p l = l.
Proof.
  induction 1 as [|x l Hx _ IH]; [reflexivity|].
  cbn [List.filter]. by rewrite Hx, IH.
Qed.

Lemma pontuacao_nao_e_espaco (c : N) :
  c = 46 \/ c = 45 \/ c = 47 -> negb (isspace db c) = true.
Proof. intros [->|[->| ->]]; reflexivity. Qed.

Lemma algarismo_fica (d : N) : algarismo d -> negb (isspace db d) = true.
Proof. intros H. by rewrite algarismo_nao_e_espaco. Qed.

Ltac sem_espaco_em_cada :=
  repeat (apply List.Forall_cons;
          [first [ by apply algarismo_fica
                 | apply pontuacao_nao_e_espaco; auto ]|]);
  apply List.Forall_nil.

(** Such a text has no white space, so that [sem_espacos] keeps it. *)
Lemma forma_cpf_sem_espacos (l : str) :
  forma_cpf l -> sem_espacos db l = l /\ length l = 14%nat.
Proof.
  intros (a & b & c & d & -> & La & Lb & Lc & Ld & Hall).
  lista_de_comprimento a. lista_de_comprimento b.
  lista_de_comprimento c. lista_de_comprimento d.
  cbn [app] in Hall. algarismos_de Hall.
  split; [|reflexivity].
  rewrite sem_espacos_filtro.
  change (py ".") with [46]. change (py "-") with [45]. cbn [app].
  apply filter_todos. sem_espaco_em_cada.
Qed.

Lemma forma_cnpj_sem_espacos (l : str) :
  forma_cnpj l -> sem_espacos db l = l /\ length l = 18%nat.
Proof.
  intros (a & b & c & d & e & -> & La & Lb & Lc & Ld & Le & Hall).
  lista_de_comprimento a. lista_de_comprimento b.
  lista_de_comprimento c. lista_de_comprimento d. lista_de_comprimento e.
  cbn [app] in Hall. algarismos_de Hall.
  split; [|reflexivity].
  rewrite sem_espacos_filtro.
  change (py ".") with [46]. change (py "-") with [45].
  change (py "/") with [47]. cbn [app].
  apply filter_todos. sem_espaco_em_cada.
Qed.

Lemma slice_inteiro (l : str) (n : nat) : length l = n -> slice l 0 n = l.
Proof. intros <-. unfold slice. rewrite Nat.sub_0_r. apply firstn_all. Qed.

(** None of the patterns of [parsear_partes] for tax numbers tells one
    digit from another. *)
Lemma indistintos_linha_so_cpf :
  forallb (fun d => mesma_classe db NOFLAGS PatPartes.re_linha_so_cpf d 48)
          (range_list 48 10) = true.
Proof. vm_compute. reflexivity. Qed.

Lemma indistintos_linha_so_cnpj :
  forallb (fun d => mesma_classe db NOFLAGS PatPartes.re_linha_so_cnpj d 48)
          (range_list 48 10) = true.
Proof. vm_compute. reflexivity. Qed.

Lemma indistintos_cpf_fmt :
  forallb (fun d => mesma_classe db IGNORECASE PatPartes.re_cpf_fmt d 48)
          (range_list 48 10) = true.
Proof. vm_compute. reflexivity. Qed.

Lemma indistintos_cpf_raw :
  forallb (fun d => mesma_classe db NOFLAGS PatPartes.re_cpf_raw d 48)
          (range_list 48 10) = true.
Proof. vm_compute. reflexivity. Qed.

Lemma indistintos_cnpj_fmt :
  forallb (fun d => mesma_classe db IGNORECASE PatPartes.re_cnpj_fmt d 48)
          (range_list 48 10) = true.
Proof. vm_compute. reflexivity. Qed.

Lemma indistintos_cnpj_raw :
  forallb (fun d => mesma_classe db NOFLAGS PatPartes.re_cnpj_raw d 48)
          (range_list 48 10) = true.
Proof. vm_compute. reflexivity. Qed.

(** What the patterns find in a text of the form of a CPF. *)
Lemma cpf_linha_so_cpf (l : str) :
  forma_cpf l ->
  re_match_start db NOFLAGS l PatPartes.re_linha_so_cpf
  = Some {| m_start := 0; m_end := 14; m_caps := [] |}.
Proof.
  intros Hl. etransitivity.
  - apply re_match_start_mesma_classe.
    exact (forma_cpf_zeros _ _ l indistintos_linha_so_cpf Hl).
  - vm_compute. reflexivity.
Qed.

Lemma cpf_cpf_fmt (l : str) :
  forma_cpf l -> re_search db IGNORECASE l PatPartes.re_cpf_fmt = None.
Proof.
  intros Hl. etransitivity.
  - apply re_search_mesma_classe.
    exact (forma_cpf_zeros _ _ l indistintos_cpf_fmt Hl).
  - vm_compute. reflexivity.
Qed.

Lemma cpf_cpf_raw (l : str) :
  forma_cpf l ->
  re_search db NOFLAGS l PatPartes.re_cpf_raw
  = Some {| m_start := 0; m_end := 14; m_caps := [(1, (0, 14))]%nat |}.
Proof.
  intros Hl. etransitivity.
  - apply re_search_mesma_classe.
    exact (forma_cpf_zeros _ _ l indistintos_cpf_raw Hl).
  - vm_compute. reflexivity.
Qed.

(** What they find in a text of the form of a CNPJ. *)
Lemma cnpj_linha_so_cpf (l : str) :
  forma_cnpj l ->
  re_match_start db NOFLAGS l PatPartes.re_linha_so_cpf = None.
Proof.
  intros Hl. etransitivity.
  - apply re_match_start_mesma_classe.
    exact (forma_cnpj_zeros _ _ l indistintos_linha_so_cpf Hl).
  - vm_compute. reflexivity.
Qed.

Lemma cnpj_linha_so_cnpj (l : str) :
  forma_cnpj l ->
  re_match_start db NOFLAGS l PatPartes.re_linha_so_cnpj
  = Some {| m_start := 0; m_end := 18; m_caps := [] |}.
Proof.
  intros Hl. etransitivity.
  - apply re_match_start_mesma_classe.
    exact (forma_cnpj_zeros _ _ l indistintos_linha_so_cnpj Hl).
  - vm_compute. reflexivity.
Qed.

Lemma cnpj_cpf_fmt (l : str) :
  forma_cnpj l -> re_search db IGNORECASE l PatPartes.re_cpf_fmt = None.
Proof.
  intros Hl. etransitivity.
  - apply re_search_mesma_classe.
    exact (forma_cnpj_zeros _ _ l indistintos_cpf_fmt Hl).
  - vm_compute. reflexivity.
Qed.

Lemma cnpj_cpf_raw (l : str) :
  forma_cnpj l -> re_search db NOFLAGS l PatPartes.re_cpf_raw = None.
Proof.
  intros Hl. etransitivity.
  - apply re_search_mesma_classe.
    exact (forma_cnpj_zeros _ _ l indistintos_cpf_raw Hl).
  - vm_compute. reflexivity.
Qed.

Lemma cnpj_cnpj_fmt (l : str) :
  forma_cnpj l -> re_search db IGNORECASE l PatPartes.re_cnpj_fmt = None.
Proof.
  intros Hl. etransitivity.
  - apply re_search_mesma_classe.
    exact (forma_cnpj_zeros _ _ l indistintos_cnpj_fmt Hl).
  - vm_compute. reflexivity.
Qed.

Lemma cnpj_cnpj_raw (l : str) :
  forma_cnpj l ->
  re_search db NOFLAGS l PatPartes.re_cnpj_raw
  = Some {| m_start := 0; m_end := 18; m_caps := [(1, (0, 18))]%nat |}.
Proof.
  intros Hl. etransitivity.
  - apply re_search_mesma_classe.
    exact (forma_cnpj_zeros _ _ l indistintos_cnpj_raw Hl).
  - vm_compute. reflexivity.
Qed.

(** A line of the form of a CPF is a document line, and its document is
    the line itself, of type "CPF". *)
Lemma linha_cpf (l : str) :
  forma_cpf l ->
  _e_linha_doc db l = true /\ _extrair_doc db l = Ok (l, py "CPF").
Proof.
  intros Hl. destruct (forma_cpf_sem_espacos l Hl) as [Hsem Hlen]. split.
  - unfold _e_linha_doc. rewrite (cpf_linha_so_cpf l Hl). reflexivity.
  - unfold _extrair_doc, search_or.
    rewrite (cpf_cpf_fmt l Hl), (cpf_cpf_raw l Hl).
    unfold group, m_group. cbn [m_caps cap_get Nat.eqb].
    rewrite (slice_inteiro l 14 Hlen), result_bind_ok, Hsem. reflexivity.
Qed.

Lemma linha_cnpj (l : str) :
  forma_cnpj l ->
  _e_linha_doc db l = true /\ _extrair_doc db l = Ok (l, py "CNPJ").
Proof.
  intros Hl. destruct (forma_cnpj_sem_espacos l Hl) as [Hsem Hlen]. split.
  - unfold _e_linha_doc.
    rewrite (cnpj_linha_so_cpf l Hl), (cnpj_linha_so_cnpj l Hl). reflexivity.
  - unfold _extrair_doc, search_or.
    rewrite (cnpj_cpf_fmt l Hl), (cnpj_cpf_raw l Hl).
    rewrite (cnpj_cnpj_fmt l Hl), (cnpj_cnpj_raw l Hl).
    unfold group, m_group. cbn [m_caps cap_get Nat.eqb].
    rewrite (slice_inteiro l 18 Hlen), result_bind_ok, Hsem. reflexivity.
Qed.

End LinhaDocumento.


(** * Properties of [gerar_valor_extenso] *)

Section ExtensoFacts.
Import Extenso.
Local Open Scope Z_scope.

Lemma sem_algarismos_app (a b : str) :
  sem_algarismos (a ++ b) = sem_algarismos a && sem_algarismos b.
Proof. apply forallb_app. Qed.

Lemma item_sem_algarismos (table : list str) (n : Z) :
  forallb sem_algarismos table = true -> sem_algarismos (item table n) = true.
Proof.
  intros H. unfold item.
  destruct (nth_in_or_default (Z.to_nat n) table []) as [Hin| ->]; [|done].
  rewrite forallb_forall in H. by apply H.
Qed.

(** Splits a spelled-out number into its pieces: literals and table
    entries have no digit, the rest is left to the caller. *)
Ltac sem_algarismos_pecas :=
  repeat (rewrite sem_algarismos_app; apply andb_true_intro; split);
  try reflexivity;
  try (apply item_sem_algarismos; reflexivity).

(** Case analysis along the tests of [_extenso], outermost first. *)
Ltac casos_extenso n :=
  rewrite (_extenso_equation_1 n); cbv zeta;
  destruct (Z.eqb_spec n 0); [try lia|
  destruct (Z.eqb_spec n 100); [try lia|
  destruct (Z.ltb_spec n 20); [try lia|
  destruct (Z_lt_dec n 100); [try lia|
  destruct (Z_lt_dec n 1000); [try lia|
  destruct (Z_lt_dec n 1000000); [try lia|
  destruct (Z_lt_dec n 1000000000); try lia]]]]]].

Ltac casos_internos :=
  repeat match goal with
    | |- context [(?a =? ?b)%Z] => destruct (Z.eqb_spec a b)
    | |- context [(?a <? ?b)%Z] => destruct (Z.ltb_spec a b)
    end; cbn [andb].


Lemma tier_resto (n d : Z) :
  0 <= n -> 100 <= n -> (d = 100 \/ d = 1000 \/ d = 1000000) -> d <= n ->
  n < 1000 * d \/ (d = 100 /\ n < 1000) ->
  (tier (n mod d) < tier n)%nat.
Proof.
  intros H0 H100 Hd Hdn Hn.
  pose proof (Z.mod_pos_bound n d ltac:(lia)).
  unfold tier.
  repeat match goal with
    | |- context [(?a <? ?b)%Z] => destruct (Z.ltb_spec a b)
    end; lia.
Qed.

Lemma tier_quociente (n d : Z) :
  (d = 1000 \/ d = 1000000) -> d <= n -> n < 1000 * d ->
  (tier (n / d) < tier n)%nat /\ 0 < n / d.
Proof.
  intros Hd Hdn Hn.
  assert (n / d < 1000) by (apply Z.div_lt_upper_bound; lia).
  assert (0 < n / d) by (apply Z.div_str_pos; lia).
  split; [|done]. unfold tier.
  repeat match goal with
    | |- context [(?a <? ?b)%Z] => destruct (Z.ltb_spec a b)
    end; lia.
Qed.

Lemma _extenso_em_palavras_aux (k : nat) :
  forall n, (tier n < k)%nat -> (k <= 4)%nat -> 0 <= n ->
            sem_algarismos (_extenso n) = true.
Proof.
  induction k as [|k IH]; intros n Hk Hk4 Hn; [lia|].
  assert (Hrec : forall r, 0 <= r -> (tier r < tier n)%nat ->
                           sem_algarismos (_extenso r) = true).
  { intros r Hr Ht. apply IH; lia. }
  casos_extenso n; casos_internos; sem_algarismos_pecas;
    try (apply Hrec; [apply Z.mod_pos_bound; lia | apply tier_resto; lia]);
    try (apply Hrec; [apply Z.div_pos; lia | apply tier_quociente; lia]).
  unfold tier in Hk.
  repeat match goal with
    | H : context [(?a <? ?b)%Z] |- _ => destruct (Z.ltb_spec a b)
    end; lia.
Qed.

(** Below one billion, [_extenso] uses words only. *)
Lemma _extenso_em_palavras (n : Z) :
  0 <= n < 1000000000 -> sem_algarismos (_extenso n) = true.
Proof.
  intros [H0 H1]. apply (_extenso_em_palavras_aux 4); [|lia|lia].
  unfold tier.
  repeat match goal with
    | |- context [(?a <? ?b)%Z] => destruct (Z.ltb_spec a b)
    end; lia.
Qed.

Lemma com_unidade_em_palavras (n : Z) (singular plural : string) :
  0 <= n < 1000000000 ->
  sem_algarismos (py singular) = true -> sem_algarismos (py plural) = true ->
  sem_algarismos (com_unidade n singular plural) = true.
Proof.
  intros Hn Hs Hp. unfold com_unidade.
  rewrite sem_algarismos_app, _extenso_em_palavras by done.
  by destruct (n =? 1).
Qed.

(** Once [float] and [int] have returned, the function returns: the cents
    are computed without an error and are small, and the text is put
    together from the two parts. *)
Lemma gerar_valor_extenso_partes (db : unicode_db) (valor_str : str)
    (n : spec_float) (inteiros : Z) :
  py_float db (limpar_valor db valor_str) = Ok n ->
  Float.to_int n = Ok inteiros ->
  exists centavos,
    -512 <= centavos <= 512
    /\ gerar_valor_extenso db valor_str
       = Ok (match montar_partes inteiros centavos with
             | [] => py "zero reais"
             | partes => str_join (py " e ") partes
             end).
Proof.
  intros Hn Hi.
  destruct (FloatFacts.centavos_total n inteiros
              (FloatFacts.py_float_valid db _ n Hn) Hi) as (c & Hc & Hb).
  exists c. split; [exact Hb|].
  unfold gerar_valor_extenso. rewrite Hn, Hi, result_bind_ok, Hc.
  rewrite result_bind_ok. cbv zeta.
  by destruct (montar_partes inteiros c).
Qed.

(** [float] raises nothing but ValueError. *)
Lemma py_float_so_ValueError (db : unicode_db) (s : str) (e : exn) :
  py_float db s = Raise e -> e = ValueError.
Proof.
  unfold py_float. intros H.
  repeat case_match; try discriminate H; by injection H as <-.
Qed.

Lemma montar_partes_sem_partes (inteiros centavos : Z) :
  inteiros <= 0 -> centavos <= 0 -> montar_partes inteiros centavos = [].
Proof.
  intros Hi Hc. unfold montar_partes.
  destruct (Z.ltb_spec 0 inteiros); [lia|].
  destruct (Z.ltb_spec 0 centavos); [lia|]. reflexivity.
Qed.

End ExtensoFacts.

(** * [_extenso] read back *)

Section NumeralFacts.
Import Extenso Numeral.
Local Open Scope Z_scope.










End NumeralFacts.

(** * Properties of enviador_peticao.py *)

Section EscFacts.

Lemma flat_map_flat_map {A B C : Type} (f : A -> list B) (g : B -> list C)
    (l : list A) :
  flat_map g (flat_map f l) = flat_map (fun x => flat_map g (f x)) l.
Proof.
  induction l as [|x l IH]; [done|].
  simpl. by rewrite flat_map_app, IH.
Qed.

(** The four replacements in a row act as one substitution, character by
    character: the ampersands that the later replacements write are not
    escaped again. *)
Lemma _esc_por_caractere (s : str) : _esc (Some s) = flat_map esc_char s.
Proof.
  unfold _esc, str_replace.
  replace (ou (Some s) []) with s by (by destruct s).
  rewrite !flat_map_flat_map. apply flat_map_ext. intros c.
  unfold esc_char.
  destruct (N.eqb_spec c 38) as [->|H38]; [vm_compute; reflexivity|].
  destruct (N.eqb_spec c 60) as [->|H60]; [vm_compute; reflexivity|].
  destruct (N.eqb_spec c 62) as [->|H62]; [vm_compute; reflexivity|].
  destruct (N.eqb_spec c 34) as [->|H34]; [vm_compute; reflexivity|].
  apply N.eqb_neq in H38, H60, H62, H34.
  do 4 (cbn [flat_map app]; rewrite ?H38, ?H60, ?H62, ?H34).
  reflexivity.
Qed.

Lemma _esc_None : _esc None = [].
Proof. reflexivity. Qed.

Lemma esc_char_livre (c x : N) :
  In x (esc_char c) -> x <> 60 /\ x <> 62 /\ x <> 34.
Proof.
  unfold esc_char.
  destruct (N.eqb_spec c 38) as [->|H38].
  { vm_compute. intros H. repeat destruct H as [<-|H]; try done. }
  destruct (N.eqb_spec c 60) as [->|H60].
  { vm_compute. intros H. repeat destruct H as [<-|H]; try done. }
  destruct (N.eqb_spec c 62) as [->|H62].
  { vm_compute. intros H. repeat destruct H as [<-|H]; try done. }
  destruct (N.eqb_spec c 34) as [->|H34].
  { vm_compute. intros H. repeat destruct H as [<-|H]; try done. }
  intros [<-|[]]. done.
Qed.

Lemma esc_char_cabeca (c : N) :
  (c = 38 /\ esc_char c = [38; 97; 109; 112; 59])
  \/ (c = 60 /\ esc_char c = [38; 108; 116; 59])
  \/ (c = 62 /\ esc_char c = [38; 103; 116; 59])
  \/ (c = 34 /\ esc_char c = [38; 113; 117; 111; 116; 59])
  \/ (c <> 38 /\ esc_char c = [c]).
Proof.
  unfold esc_char.
  destruct (N.eqb_spec c 38) as [->|H38]; [by left|].
  destruct (N.eqb_spec c 60) as [->|H60]; [by right; left|].
  destruct (N.eqb_spec c 62) as [->|H62]; [by right; right; left|].
  destruct (N.eqb_spec c 34) as [->|H34]; [by right; right; right; left|].
  by right; right; right; right.
Qed.

Lemma flat_map_esc_char_inj (a : str) :
  forall b, flat_map esc_char a = flat_map esc_char b -> a = b.
Proof.
  induction a as [|c1 t1 IH]; intros [|c2 t2] H; simpl in H.
  - done.
  - destruct (esc_char_cabeca c2) as [[_ E]|[[_ E]|[[_ E]|[[_ E]|[_ E]]]]];
      rewrite E in H; discriminate H.
  - destruct (esc_char_cabeca c1) as [[_ E]|[[_ E]|[[_ E]|[[_ E]|[_ E]]]]];
      rewrite E in H; discriminate H.
  - destruct (esc_char_cabeca c1) as [[-> E1]|[[-> E1]|[[-> E1]|[[-> E1]|[N1 E1]]]]];
      destruct (esc_char_cabeca c2) as [[-> E2]|[[-> E2]|[[-> E2]|[[-> E2]|[N2 E2]]]]];
      rewrite ?E1, ?E2 in H; simpl in H;
      try discriminate H;
      try (injection H as H; f_equal; by apply IH);
      try (injection H as Hc H; congruence).
    injection H as -> H. f_equal. by apply IH.
Qed.

End EscFacts.

Section BuscarEnderecoFacts.
Variable db : unicode_db.

Lemma ou_nao_vazio (x : option str) (d : str) : d <> [] -> ou x d <> [].
Proof. intros Hd. by destruct x as [[|c t]|]. Qed.

Lemma ou_de_nao_vazio (s d : str) : s <> [] -> ou (Some s) d = s.
Proof. intros Hs. by destruct s. Qed.

Lemma sem_hifen_nem_espaco_digitos (g : str) :
  Forall (fun c => isdecimal db c = true) g -> sem_hifen_nem_espaco g = g.
Proof.
  unfold sem_hifen_nem_espaco, str_replace.
  induction 1 as [|c g Hc _ IH]; [done|].
  assert (H45 : (c =? 45) = false).
  { destruct (N.eqb_spec c 45) as [->|]; [by vm_compute in Hc | done]. }
  assert (H32 : (c =? 32) = false).
  { destruct (N.eqb_spec c 32) as [->|]; [by vm_compute in Hc | done]. }
  cbn [flat_map app]. rewrite H45. cbn [flat_map app]. rewrite H32.
  cbn [app]. by rewrite IH.
Qed.

Lemma oito_zeros :
  length (py "00000000") = 8%nat
  /\ Forall (fun c => isdecimal db c = true) (py "00000000").
Proof. split; [reflexivity|]. repeat constructor. Qed.

(** The postal code that the free-text half returns. *)
Lemma endereco_por_texto_cep (endereco_texto : str) :
  length (EndPJe.cep (endereco_por_texto db endereco_texto)) = 8%nat
  /\ Forall (fun c => isdecimal db c = true)
            (EndPJe.cep (endereco_por_texto db endereco_texto)).
Proof.
  unfold endereco_por_texto.
  destruct (nao_vazio endereco_texto && nao_vazio (str_strip db endereco_texto));
    [|apply oito_zeros].
  destruct (parsear_endereco_campos db endereco_texto)
    as (e & -> & _ & _ & _ & Hcep).
  cbn [endereco_do_texto EndPJe.cep].
  destruct Hcep as [->|[Hlen Hdig]]; [apply oito_zeros|].
  assert (Hne : cep e <> []) by (by destruct (cep e)).
  rewrite (ou_de_nao_vazio (cep e)) by exact Hne.
  rewrite sem_hifen_nem_espaco_digitos by exact Hdig.
  rewrite ou_de_nao_vazio by exact Hne. by split.
Qed.

Lemma endereco_por_texto_campos (endereco_texto : str) :
  let r := endereco_por_texto db endereco_texto in
  EndPJe.cep r <> [] /\ EndPJe.numero r <> []
  /\ EndPJe.uf r <> [] /\ EndPJe.pais r <> [].
Proof.
  intros r.
  split.
  { destruct (endereco_por_texto_cep endereco_texto) as [Hl _].
    fold r in Hl. by destruct (EndPJe.cep r). }
  subst r. unfold endereco_por_texto.
  destruct (nao_vazio endereco_texto && nao_vazio (str_strip db endereco_texto));
    [|by repeat split].
  destruct (parsear_endereco db endereco_texto) as [e|]; [|by repeat split].
  cbn [endereco_do_texto EndPJe.numero EndPJe.uf EndPJe.pais].
  repeat split; by apply ou_nao_vazio.
Qed.

Lemma sem_linha_util_texto (conn : Connection) (numero_doc texto : str) :
  sem_linha_util conn numero_doc ->
  _buscar_endereco db conn numero_doc texto = endereco_por_texto db texto.
Proof.
  intros H. unfold _buscar_endereco. destruct numero_doc as [|c t]; [done|].
  destruct (endereco_por_doc conn (c :: t)) as [row|] eqn:E; [|done].
  by rewrite (H row E).
Qed.

End BuscarEnderecoFacts.

(** * Theorems about enviador_peticao.py *)

(** X1: whatever it is given, also [None], [_esc] returns a text without
    the characters <, > and double quote. *)
Theorem _esc_sem_caracteres_reservados (s : option str) (x : N) :
  In x (_esc s) -> x <> 60 /\ x <> 62 /\ x <> 34.
Proof.
  destruct s as [s|]; [|by rewrite _esc_None].
  rewrite _esc_por_caractere, in_flat_map.
  intros (c & _ & Hx). by apply esc_char_livre in Hx.
Qed.

Lemma _esc_sem_caracteres_reservados_witness :
  _esc (Some (py "A<B")) = py "A&lt;B"
  /\ (59 <> 60 /\ 59 <> 62 /\ 59 <> 34).
Proof.
  split; [vm_compute; reflexivity|].
  apply (_esc_sem_caracteres_reservados (Some (py "A<B")) 59).
  vm_compute. right; right; right; right; left. reflexivity.
Defined.

(** X2: [_esc] loses nothing: two strings with the same escaped form are
    the same string. *)
Theorem _esc_injetiva (a b : str) : _esc (Some a) = _esc (Some b) -> a = b.
Proof. rewrite !_esc_por_caractere. apply flat_map_esc_char_inj. Qed.

Lemma _esc_injetiva_witness :
  _esc (Some (py "A<B")) = _esc (Some (py "A<B")) /\ py "A<B" = py "A<B".
Proof.
  split; [reflexivity|].
  apply (_esc_injetiva (py "A<B") (py "A<B")). reflexivity.
Defined.

(** X3: whatever the table and the arguments, [_buscar_endereco] returns an
    address whose postal code, number, state and country are not empty. *)
Theorem _buscar_endereco_campos_obrigatorios (db : unicode_db)
    (conn : Connection) (numero_doc endereco_texto : str) :
  let r := _buscar_endereco db conn numero_doc endereco_texto in
  EndPJe.cep r <> [] /\ EndPJe.numero r <> []
  /\ EndPJe.uf r <> [] /\ EndPJe.pais r <> [].
Proof.
  intros r. subst r. unfold _buscar_endereco.
  destruct numero_doc as [|c t]; [apply endereco_por_texto_campos|].
  destruct (endereco_por_doc conn (c :: t)) as [row|];
    [|apply endereco_por_texto_campos].
  destruct (nao_vazio (ou (Linha.logradouro row) []));
    [|apply endereco_por_texto_campos].
  cbn [endereco_da_linha EndPJe.cep EndPJe.numero EndPJe.uf EndPJe.pais].
  repeat split; by apply ou_nao_vazio.
Qed.

(** X4: when the table has no usable row for the document (no row, or a
    row without street), the postal code that [_buscar_endereco] returns
    is made of exactly eight decimal digits: the code that
    [parsear_endereco] found in the free text, or eight zeros. *)
Theorem _buscar_endereco_cep_do_texto (db : unicode_db) (conn : Connection)
    (numero_doc endereco_texto : str) :
  sem_linha_util conn numero_doc ->
  let r := _buscar_endereco db conn numero_doc endereco_texto in
  length (EndPJe.cep r) = 8%nat
  /\ Forall (fun c => isdecimal db c = true) (EndPJe.cep r).
Proof.
  intros H r. subst r. rewrite sem_linha_util_texto by exact H.
  apply endereco_por_texto_cep.
Qed.

Lemma _buscar_endereco_cep_do_texto_witness :
  EndPJe.cep (_buscar_endereco plain_db Cenarios.sem_banco
                (py "123.456.789-00") Cenarios.mucuna) = py "64790000"
  /\ length (EndPJe.cep (_buscar_endereco plain_db Cenarios.sem_banco
                           (py "123.456.789-00") Cenarios.sem_cep)) = 8%nat.
Proof.
  split; [vm_compute; reflexivity|].
  apply (_buscar_endereco_cep_do_texto plain_db Cenarios.sem_banco
           (py "123.456.789-00") Cenarios.sem_cep).
  intros row Hrow. vm_compute in Hrow. discriminate Hrow.
Defined.

(** X5: when the table has no usable row and the free text is not blank,
    the address is the one [parsear_endereco] reads from the text: the
    parser returns, so the handler of the [try] is never reached and the
    placeholder "ENDERECO NAO INFORMADO" is not used; the number is the
    parsed one, which is never empty. *)
Theorem _buscar_endereco_usa_o_texto (db : unicode_db) (conn : Connection)
    (numero_doc endereco_texto : str) :
  sem_linha_util conn numero_doc ->
  str_strip db endereco_texto <> [] ->
  exists e,
    parsear_endereco db endereco_texto = Ok e
    /\ _buscar_endereco db conn numero_doc endereco_texto
       = endereco_do_texto db e
    /\ EndPJe.numero (_buscar_endereco db conn numero_doc endereco_texto)
       = numero e
    /\ EndPJe.logradouro (_buscar_endereco db conn numero_doc endereco_texto)
       = str_strip db (tipo_logradouro e ++ py " " ++ logradouro e)
    /\ EndPJe.pais (_buscar_endereco db conn numero_doc endereco_texto)
       = py "BR".
Proof.
  intros H Hne. rewrite sem_linha_util_texto by exact H.
  unfold endereco_por_texto.
  assert (Ht : endereco_texto <> []).
  { intros ->. by apply Hne. }
  destruct endereco_texto as [|c t]; [done|].
  destruct (str_strip db (c :: t)) as [|c' t'] eqn:Es; [done|].
  cbn [nao_vazio andb].
  destruct (parsear_endereco_campos db (c :: t)) as (e & -> & Hn & Hp & _).
  exists e. split; [reflexivity|]. split; [reflexivity|].
  cbn [endereco_do_texto EndPJe.numero EndPJe.logradouro EndPJe.pais].
  split; [by apply ou_de_nao_vazio|]. split; [reflexivity|].
  rewrite Hp. reflexivity.
Qed.

Lemma _buscar_endereco_usa_o_texto_witness :
  exists e,
    parsear_endereco plain_db Cenarios.sem_cep = Ok e
    /\ EndPJe.numero (_buscar_endereco plain_db Cenarios.sem_banco []
                        Cenarios.sem_cep) = numero e.
Proof.
  destruct (_buscar_endereco_usa_o_texto plain_db Cenarios.sem_banco []
              Cenarios.sem_cep) as (e & He & _ & Hn & _).
  - intros row Hrow. vm_compute in Hrow. discriminate Hrow.
  - vm_compute. discriminate.
  - exists e. split; [exact He | exact Hn].
Defined.

(** X6: [valor_float] never raises: it returns a binary64 value (the only
    exception of [float], ValueError, is handled), and for [None] and for
    the empty string, read as "0", that value is 0.0. *)
Theorem valor_float_nunca_falha (db : unicode_db) (valor_str : option str) :
  exists x,
    valor_float db valor_str = Ok x
    /\ valid_binary Float.prec Float.emax x = true
    /\ (valor_str = None \/ valor_str = Some [] -> x = S754_zero false).
Proof.
  unfold valor_float.
  destruct (py_float db (limpar_valor db (ou valor_str (py "0"))))
    as [n|e] eqn:E.
  - exists n. split; [reflexivity|].
    split; [exact (FloatFacts.py_float_valid db _ n E)|].
    intros [-> | ->]; vm_compute in E; by injection E as <-.
  - apply py_float_so_ValueError in E as Hv. subst e.
    exists (S754_zero false). by repeat split.
Qed.

Lemma valor_float_nunca_falha_witness :
  valor_float plain_db (Some (py "R$ abc")) = Ok (S754_zero false)
  /\ exists x, valor_float plain_db None = Ok x /\ x = S754_zero false.
Proof.
  split; [vm_compute; reflexivity|].
  destruct (valor_float_nunca_falha plain_db None) as (x & Hx & _ & H0).
  exists x. split; [exact Hx|]. apply H0. left. reflexivity.
Defined.

(** * The claims about main.py *)

(** C1, counterexample: the party of [certidao_com_exclusao] is matched in
    the "CERTIFICO, ainda" paragraph, the words "excluído do rol" follow it
    at once, and the party is in the returned list all the same: the
    primary tier does not look for exclusion phrases. *)
Lemma camada_primaria_nao_filtra_exclusao :
  ~ exclusao_vale_em_todas_as_camadas plain_db Exemplos.certidao_com_exclusao.
Proof.
  intros H.
  destruct (extrair_dados_certidao plain_db Exemplos.certidao_com_exclusao)
    as [d|] eqn:E; [|by vm_compute in E].
  refine (H d {| m_start := 18; m_end := 53;
                 m_caps := [(3, (38, 52)); (2, (33, 36)); (1, (18, 31))]%nat |}
            (py "123.456.789-00") E _ _ _ _).
  - vm_compute. by left.
  - by vm_compute.
  - by vm_compute.
  - vm_compute in E. injection E as <-. vm_compute. by left.
Qed.

(** C1, amended: when the "CERTIFICO, ainda" tier yields no entry, the
    function returns, and every entry of the list it returns comes from a
    match of one of the two fallback patterns in the flattened text whose
    following window of 700 characters holds no exclusion phrase. *)
Theorem camadas_de_fallback_filtram_exclusao
    (db : unicode_db) (texto : str) (vistos : gset str) :
  tier_primario db (achatar db texto) = Ok (vistos, []) ->
  exists d,
    extrair_dados_certidao db texto = Ok d
    /\ Forall
         (fun r =>
            origem db (achatar db texto)
              (re_finditer db IGNORECASE (achatar db texto) Pat.padrao_geral) r
            \/ origem db (achatar db texto)
                 (re_finditer db IGNORECASE (achatar db texto) Pat.padrao_lista) r)
         (responsaveis d).
Proof.
  intros Hprim.
  destruct (extrair_dados_certidao_total db texto) as (d & Hd & _ & Hrs).
  exists d. split; [done|]. revert Hrs.
  set (tf := achatar db texto) in *.
  unfold extrair_responsaveis. rewrite Hprim, result_bind_ok.
  destruct (tier_fallback_ok db true tf Pat.padrao_geral (vistos, []))
    as (st2 & Ha & Hst2 & Hor2);
    [sure_group .. | apply sem_repeticao_vazio | done |].
  unfold tier_fallback_a at 1. simpl snd. rewrite Ha, result_bind_ok.
  unfold tier_fallback_c. destruct (snd st2) eqn:E2.
  - destruct (tier_fallback_ok db false tf Pat.padrao_lista st2)
      as (st3 & Hc & _ & Hor3); [sure_group .. | done | done |].
    rewrite Hc, !result_bind_ok. intros [= <-].
    eapply Forall_impl; [exact Hor3|]. intros x ?. by right.
  - rewrite !result_bind_ok. intros [= <-]. rewrite E2.
    eapply Forall_impl; [exact Hor2|]. intros x ?. by left.
Qed.

Lemma camadas_de_fallback_filtram_exclusao_witness :
  exists d,
    extrair_dados_certidao plain_db Exemplos.certidao_sem_nomes = Ok d
    /\ Forall
         (fun r =>
            origem plain_db (achatar plain_db Exemplos.certidao_sem_nomes)
              (re_finditer plain_db IGNORECASE
                 (achatar plain_db Exemplos.certidao_sem_nomes) Pat.padrao_geral) r
            \/ origem plain_db (achatar plain_db Exemplos.certidao_sem_nomes)
                 (re_finditer plain_db IGNORECASE
                    (achatar plain_db Exemplos.certidao_sem_nomes) Pat.padrao_lista) r)
         (responsaveis d).
Proof.
  apply (camadas_de_fallback_filtram_exclusao plain_db
           Exemplos.certidao_sem_nomes ∅).
  vm_compute. reflexivity.
Defined.

(** C2: [extrair_dados_certidao] returns for every text, and no two entries
    of the list of responsible parties it returns have the same document
    number. *)
Theorem responsaveis_sem_documento_repetido (db : unicode_db) (texto : str) :
  exists d,
    extrair_dados_certidao db texto = Ok d
    /\ NoDup (map numero_doc (responsaveis d)).
Proof.
  destruct (extrair_dados_certidao_total db texto) as (d & Hd & _ & Hrs).
  destruct (extrair_responsaveis_ok db (achatar db texto)) as (rs & Hrs' & Hnd).
  exists d. split; [done|]. congruence.
Qed.





(** * The claims about [gerar_valor_extenso] *)

(** C4, counterexample: the code joins "mil" and the hundreds with " e ",
    so the text of the claim, which has no "e" after "mil", is not what
    [gerar_valor_extenso] returns for "R$ 1.234,56". *)
Lemma mil_duzentos_sem_conjuncao_nao_e_gerado :
  gerar_valor_extenso plain_db (py "R$ 1.234,56")
  <> Ok (py "mil duzentos e trinta e quatro reais e cinquenta e seis centavos").
Proof. vm_compute. discriminate. Qed.

(** C4, amended: for "R$ 1.234,56" [gerar_valor_extenso] returns "mil e
    duzentos e trinta e quatro reais e cinquenta e seis centavos". *)
Theorem mil_e_duzentos_com_conjuncao (db : unicode_db) :
  gerar_valor_extenso db (py "R$ 1.234,56")
  = Ok (py "mil e duzentos e trinta e quatro reais e cinquenta e seis centavos").
Proof. vm_compute. reflexivity. Qed.

(** The example of the docstring of [gerar_valor_extenso]: there too the
    thousands and the hundreds are joined by " e ". *)
Lemma exemplo_da_docstring (db : unicode_db) :
  gerar_valor_extenso db (py "R$ 167.406,32")
  = Ok (py "cento e sessenta e sete mil e quatrocentos e seis reais e trinta e dois centavos").
Proof. vm_compute. reflexivity. Qed.

(** C9, counterexample: [float] refuses "zeroreais", what is left of
    "zero reais", and the input comes back as it was given: the phrase
    "zero reais" itself. *)
Lemma zero_reais_devolvido_como_entrada :
  ~ recusado_nunca_e_zero_reais plain_db.
Proof.
  intros H.
  destruct (H (py "zero reais") ValueError ltac:(vm_compute; reflexivity))
    as [_ Hz].
  apply Hz. vm_compute. reflexivity.
Qed.

(** C9, amended: when [float] refuses what is left of the string, whatever
    the exception, [gerar_valor_extenso] raises nothing and returns the
    string as it was given; what it returns is the phrase "zero reais"
    exactly when that phrase is the input. *)
Theorem valor_nao_numerico_devolvido (db : unicode_db) (valor_str : str)
    (e : exn) :
  py_float db (limpar_valor db valor_str) = Raise e ->
  gerar_valor_extenso db valor_str = Ok valor_str
  /\ (gerar_valor_extenso db valor_str = Ok (py "zero reais")
      <-> valor_str = py "zero reais").
Proof.
  intros H. apply py_float_so_ValueError in H as He. subst e.
  assert (Hr : gerar_valor_extenso db valor_str = Ok valor_str).
  { unfold gerar_valor_extenso. rewrite H. reflexivity. }
  split; [exact Hr|]. rewrite Hr. split.
  - intros [= ->]. reflexivity.
  - intros ->. reflexivity.
Qed.

Lemma valor_nao_numerico_devolvido_witness :
  py_float plain_db (limpar_valor plain_db (py "a combinar")) = Raise ValueError
  /\ gerar_valor_extenso plain_db (py "a combinar") = Ok (py "a combinar")
  /\ gerar_valor_extenso plain_db (py "a combinar") <> Ok (py "zero reais").
Proof.
  split; [vm_compute; reflexivity|].
  destruct (valor_nao_numerico_devolvido plain_db (py "a combinar") ValueError)
    as [Hr Hz].
  - vm_compute. reflexivity.
  - split; [exact Hr|]. intros Hc. apply Hz in Hc. vm_compute in Hc.
    discriminate Hc.
Defined.




(** * The claims about gestor_enderecos.py *)

(** C3, counterexample: "MUCUNA" is one of [_TIPOS_LOGRADOURO], so the
    parser takes it for the street type and leaves the street name empty. *)
Lemma mucuna_nao_e_rua : ~ mucuna_como_rua plain_db.
Proof.
  intros (e & He & Ht & _). vm_compute in He. injection He as <-.
  vm_compute in Ht. discriminate Ht.
Qed.

(** C3, amended: the input of the scenario yields street type "MUCUNA", an
    empty street name, number "S/N", district "Centro", postal code
    "64790000", municipality "Dom Inocencio" and state "PI". *)
Theorem mucuna_e_tipo_de_logradouro (db : unicode_db) :
  parsear_endereco db Cenarios.mucuna =
  Ok {| tipo_logradouro := py "MUCUNA"; logradouro := []; numero := py "S/N";
        complemento := []; bairro := py "Centro"; cep := py "64790000";
        municipio := py "Dom Inocencio"; uf := py "PI"; pais := py "BR";
        endereco_original := Cenarios.mucuna |}.
Proof. vm_compute. reflexivity. Qed.

(** C5, counterexample: "RUA A, 10" has no labelled code and its postal code
    field is the empty string of the dataclass default. *)
Lemma cep_ausente_fica_vazio : ~ cep_ausente_vira_zeros plain_db Cenarios.sem_cep.
Proof.
  intros H.
  pose (e := ok_ou (endereco_novo [])
               (parsear_endereco plain_db Cenarios.sem_cep)).
  specialize (H e ltac:(vm_compute; reflexivity)).
  assert (Hc : cep e = []) by (vm_compute; reflexivity).
  rewrite Hc in H.
  assert (Hno : ~ has_match plain_db IGNORECASE
                  (normalizar_endereco plain_db Cenarios.sem_cep) PatEnd.CEP).
  { rewrite re_search_has_match. intros Hs. apply Hs. vm_compute. reflexivity. }
  specialize (H Hno). vm_compute in H. discriminate H.
Qed.

(** C5, amended: [parsear_endereco] returns for every input; its postal
    code field is empty when the text left by the city stage has no
    labelled code, and otherwise it is the group of the leftmost labelled
    code without its hyphen or dot: exactly eight decimal digits. *)
Theorem cep_oito_digitos_ou_vazio (db : unicode_db) (endereco_bruto : str) :
  let original := normalizar_endereco db endereco_bruto in
  exists e1 o1 e,
    etapa_cidade db (endereco_novo original) original = Ok (e1, o1)
    /\ parsear_endereco db endereco_bruto = Ok e
    /\ (~ has_match db IGNORECASE o1 PatEnd.CEP -> cep e = [])
    /\ (has_match db IGNORECASE o1 PatEnd.CEP ->
        exists m g,
          re_search db IGNORECASE o1 PatEnd.CEP = Some m
          /\ m_group o1 m 1 = Some g
          /\ cep e = sem_pontuacao g
          /\ length (cep e) = 8%nat
          /\ Forall (fun c => isdecimal db c = true) (cep e)).
Proof.
  intros original.
  destruct (parsear_endereco_etapas db endereco_bruto)
    as (e1 & o1 & e2 & o2 & e & H1 & H2 & He & Hc1 & Hc & _).
  fold original in H1. exists e1, o1, e.
  split; [exact H1|]. split; [exact He|].
  pose proof (etapa_cep_spec db e1 o1) as Hspec.
  pose proof (re_search_has_match db IGNORECASE o1 PatEnd.CEP) as Hhas.
  destruct (re_search db IGNORECASE o1 PatEnd.CEP) as [m|].
  - destruct Hspec as (g & e2' & o2' & Hg & H2' & Hcep & Hlen & Hdig).
    rewrite H2 in H2'. injection H2' as <- <-. split.
    + intros Hno. exfalso. apply Hno, Hhas. discriminate.
    + intros _. exists m, g. rewrite Hc. auto.
  - rewrite H2 in Hspec. injection Hspec as <- <-. split.
    + intros _. by rewrite Hc.
    + intros Hh%Hhas. by destruct Hh.
Qed.

(** C6, counterexample: in "... - CENTRO - CEP 64000-000 - JOQUEI -
    TERESINA/PI" the hyphen stage finds the candidate "CENTRO", but the
    district is "Joquei", taken from the city suffix by the first stage. *)
Lemma bairro_da_cidade_prevalece :
  ~ bairro_posterior_prevalece plain_db Cenarios.dois_bairros.
Proof.
  unfold bairro_posterior_prevalece. cbv zeta. intros H.
  pose (vazio := endereco_novo []).
  pose (r1 := ok_ou (vazio, [])
                (etapa_cidade plain_db
                   (endereco_novo
                      (normalizar_endereco plain_db Cenarios.dois_bairros))
                   (normalizar_endereco plain_db Cenarios.dois_bairros))).
  pose (r2 := ok_ou (vazio, []) (etapa_cep plain_db r1.1 r1.2)).
  pose (e := ok_ou vazio (parsear_endereco plain_db Cenarios.dois_bairros)).
  specialize (H r1.1 r1.2 r2.1 r2.2 e).
  assert (Hb : bairro e = py "Joquei") by (vm_compute; reflexivity).
  rewrite Hb in H.
  assert (Hc : bairro_candidatos plain_db r2.2 = [py "CENTRO"])
    by (vm_compute; reflexivity).
  rewrite Hc in H.
  specialize (H ltac:(vm_compute; reflexivity) ltac:(vm_compute; reflexivity)
                ltac:(vm_compute; reflexivity) ltac:(discriminate)).
  vm_compute in H. discriminate H.
Qed.

(** C6, amended: the stages fill the district in their order and only
    while it is empty, so the district is the first value that is not
    empty among: the segments that precede the municipality in the city
    suffix, each in title case, joined by " / "; the segments without a
    slash that follow the postal code, joined by " / " and put in title
    case; the segments after the first of the hyphen split, without their
    "BAIRRO" label, each in title case, joined by " / ".  The candidates of
    the city suffix, when there are any, therefore prevail over the later
    ones. *)
Theorem bairro_do_primeiro_estagio (db : unicode_db) (endereco_bruto : str) :
  let original := normalizar_endereco db endereco_bruto in
  let o1 := resto_cidade db original in
  let o2 := resto_cep db o1 in
  exists e1 e2 e,
    etapa_cidade db (endereco_novo original) original = Ok (e1, o1)
    /\ etapa_cep db e1 o1 = Ok (e2, o2)
    /\ parsear_endereco db endereco_bruto = Ok e
    /\ bairro e1 = bairro_da_cidade db original
    /\ bairro e2
       = primeiro_nao_vazio [bairro_da_cidade db original;
                             bairro_apos_cep db o1]
    /\ bairro e
       = primeiro_nao_vazio [bairro_da_cidade db original;
                             bairro_apos_cep db o1;
                             bairro_dos_hifens db o2].
Proof.
  intros original o1 o2.
  destruct (etapa_cidade_bairro db (endereco_novo original) original)
    as (e1 & H1 & Hb1).
  destruct (etapa_cep_bairro db e1 o1) as (e2 & H2 & Hb2).
  destruct (etapa_logradouro db e2 o2) as [e3 lb] eqn:H3.
  destruct (etapa_numero_preserva db e3 lb) as (e & He & _ & Hb).
  pose proof (etapa_logradouro_bairro db e2 o2) as Hb3.
  rewrite H3 in Hb3. cbn [fst] in Hb3.
  cbn [bairro endereco_novo primeiro_nao_vazio] in Hb1.
  assert (E1 : bairro e1 = bairro_da_cidade db original).
  { rewrite Hb1. by destruct (bairro_da_cidade db original). }
  exists e1, e2, e.
  split; [exact H1|]. split; [exact H2|]. split.
  { unfold parsear_endereco. fold original.
    rewrite H1, result_bind_ok. fold o1. rewrite H2, result_bind_ok.
    fold o2. rewrite H3. exact He. }
  split; [exact E1|]. rewrite <- E1. split; [exact Hb2|].
  rewrite Hb, Hb3, Hb2.
  exact (primeiro_nao_vazio_app [bairro e1; bairro_apos_cep db o1]
           [bairro_dos_hifens db o2]).
Qed.

(** C7: a line that is nothing but a CPF or CNPJ leaves the list of
    entries, the number of the current entry, its name fragments and its
    e-mail as they are; it sets the document number and type only when the
    current entry has none.  For a line that, without the white space
    around it, is written ddd.ddd.ddd-dd or dd.ddd.ddd/dddd-dd with ASCII
    digits, the document set is the line itself and the type is "CPF" or
    "CNPJ".  The parties text of the scenario yields two entries, and the
    document number of the first is 123.456.789-00; a party without a
    document followed by such a line gets the number of the line. *)
Theorem linha_so_com_documento (db : unicode_db) :
  (forall st linha,
     str_strip db linha <> [] ->
     _e_linha_doc db (str_strip db linha) = true ->
     exists st' doc tdoc,
       passo_linha db st linha = Ok st'
       /\ _extrair_doc db (str_strip db linha) = Ok (doc, tdoc)
       /\ Acc.partes st' = Acc.partes st
       /\ Acc.num_atual st' = Acc.num_atual st
       /\ Acc.nome_linhas st' = Acc.nome_linhas st
       /\ Acc.email_atual st' = Acc.email_atual st
       /\ (Acc.doc_atual st <> [] -> st' = st)
       /\ (Acc.doc_atual st = [] -> doc <> [] ->
           Acc.doc_atual st' = doc /\ Acc.tipo_doc st' = tdoc))
  /\ (forall st linha tdoc,
        (forma_cpf (str_strip db linha) /\ tdoc = py "CPF")
        \/ (forma_cnpj (str_strip db linha) /\ tdoc = py "CNPJ") ->
        _e_linha_doc db (str_strip db linha) = true
        /\ exists st',
             passo_linha db st linha = Ok st'
             /\ Acc.partes st' = Acc.partes st
             /\ Acc.num_atual st' = Acc.num_atual st
             /\ Acc.nome_linhas st' = Acc.nome_linhas st
             /\ Acc.email_atual st' = Acc.email_atual st
             /\ (Acc.doc_atual st <> [] -> st' = st)
             /\ (Acc.doc_atual st = [] ->
                 Acc.doc_atual st' = str_strip db linha
                 /\ Acc.tipo_doc st' = tdoc))
  /\ (exists p1 p2,
        parsear_partes db Cenarios.partes = Ok [p1; p2]
        /\ Parte.numero_parte p1 = 1%Z
        /\ Parte.cpf_cnpj p1 = py "123.456.789-00"
        /\ Parte.numero_parte p2 = 2%Z)
  /\ (exists p1,
        parsear_partes db Cenarios.parte_e_documento = Ok [p1]
        /\ Parte.numero_parte p1 = 1%Z
        /\ Parte.nome p1 = py "Joao Da Silva"
        /\ Parte.cpf_cnpj p1 = py "152.308.643-20"
        /\ Parte.tipo_doc p1 = py "CPF").
Proof.
  split; [|split; [|split]].
  - intros st linha Hne Hdoc.
    destruct (passo_linha_so_documento db st linha Hne Hdoc)
      as (doc & tdoc & Hex & Hp).
    exists (adotar_doc doc tdoc st), doc, tdoc.
    destruct (adotar_doc_campos doc tdoc st) as (? & ? & ? & ?).
    repeat split; try assumption.
    + apply adotar_doc_ocupado.
    + by apply adotar_doc_livre.
    + by apply adotar_doc_livre.
  - intros st linha tdoc Hforma.
    assert (Hl : _e_linha_doc db (str_strip db linha) = true
                 /\ _extrair_doc db (str_strip db linha)
                    = Ok (str_strip db linha, tdoc)
                 /\ str_strip db linha <> []).
    { destruct Hforma as [[Hf ->]|[Hf ->]].
      - destruct (linha_cpf db _ Hf) as [He Hx].
        destruct (forma_cpf_sem_espacos db _ Hf) as [_ Hlen].
        split; [exact He|]. split; [exact Hx|].
        intros Hnil. rewrite Hnil in Hlen. discriminate Hlen.
      - destruct (linha_cnpj db _ Hf) as [He Hx].
        destruct (forma_cnpj_sem_espacos db _ Hf) as [_ Hlen].
        split; [exact He|]. split; [exact Hx|].
        intros Hnil. rewrite Hnil in Hlen. discriminate Hlen. }
    destruct Hl as (He & Hx & Hne). split; [exact He|].
    destruct (passo_linha_so_documento db st linha Hne He)
      as (doc & tdoc' & Hex & Hp).
    rewrite Hx in Hex. injection Hex as <- <-.
    exists (adotar_doc (str_strip db linha) tdoc st).
    destruct (adotar_doc_campos (str_strip db linha) tdoc st)
      as (? & ? & ? & ?).
    repeat split; try assumption.
    + apply adotar_doc_ocupado.
    + by apply adotar_doc_livre.
    + by apply adotar_doc_livre.
  - eexists _, _. vm_compute. repeat split; reflexivity.
  - eexists. vm_compute. repeat split; reflexivity.
Qed.

Lemma linha_so_com_documento_witness :
  exists st',
    passo_linha plain_db
      {| Acc.partes := []; Acc.num_atual := Some 1%Z;
         Acc.nome_linhas := [py "JOAO DA SILVA"];
         Acc.doc_atual := []; Acc.tipo_doc := []; Acc.email_atual := [] |}
      (py "  152.308.643-20 ") = Ok st'
    /\ Acc.nome_linhas st' = [py "JOAO DA SILVA"]
    /\ Acc.num_atual st' = Some 1%Z
    /\ Acc.doc_atual st' = py "152.308.643-20"
    /\ Acc.tipo_doc st' = py "CPF".
Proof.
  destruct (proj1 (proj2 (linha_so_com_documento plain_db))
              {| Acc.partes := []; Acc.num_atual := Some 1%Z;
                 Acc.nome_linhas := [py "JOAO DA SILVA"];
                 Acc.doc_atual := []; Acc.tipo_doc := []; Acc.email_atual := [] |}
              (py "  152.308.643-20 ") (py "CPF"))
    as (_ & st' & Hp & _ & Hn & Hl & _ & _ & Hd).
  - left. split; [|reflexivity].
    exists (py "152"), (py "308"), (py "643"), (py "20").
    split; [vm_compute; reflexivity|].
    repeat (split; [reflexivity|]).
    repeat (apply List.Forall_cons; [unfold algarismo; vm_compute; split; discriminate|]).
    apply List.Forall_nil.
  - exists st'. split; [exact Hp|]. split; [exact Hl|]. split; [exact Hn|].
    exact (Hd eq_refl).
Defined.
(** * Theorems about gestor_enderecos.py *)

(** X8: [parsear_endereco] returns for every text, and the address it
    returns has a number (the parser writes "S/N" when it finds none), the
    country "BR" and, as original text, the input with its white space
    normalised. *)
Theorem parsear_endereco_sempre_tem_numero (db : unicode_db)
    (endereco_bruto : str) :
  exists e,
    parsear_endereco db endereco_bruto = Ok e
    /\ numero e <> []
    /\ pais e = py "BR"
    /\ endereco_original e = normalizar_endereco db endereco_bruto.
Proof.
  destruct (parsear_endereco_campos db endereco_bruto)
    as (e & He & Hn & Hp & Ho & _).
  exists e. split; [exact He|]. split; [exact Hn|].
  split; [exact Hp | exact Ho].
Qed.

(** X9: for an address returned by [parsear_endereco], [formatado] is
    never empty, and a postal code, when the address has one, is written
    as "CEP " followed by its first five digits, a hyphen and the last
    three: the branch that writes the code as it is is not taken. *)
Theorem formatado_de_endereco_parseado (db : unicode_db)
    (endereco_bruto : str) (e : EnderecoEstruturado) :
  parsear_endereco db endereco_bruto = Ok e ->
  formatado db e <> []
  /\ (cep e <> [] ->
      exists antes depois,
        formatado db e
        = antes ++ (py "CEP " ++ firstn 5 (cep e) ++ py "-" ++ skipn 5 (cep e))
          ++ depois).
Proof.
  intros He.
  destruct (parsear_endereco_campos db endereco_bruto)
    as (e' & He' & Hn & _ & _ & Hcep).
  rewrite He in He'. injection He' as <-.
  unfold formatado. split.
  - assert (Hin : In (numero e) (formatado_partes db e)).
    { unfold formatado_partes. apply in_or_app. right.
      apply in_or_app. left.
      destruct (numero e) as [|c t]; [exact (False_ind _ (Hn eq_refl))|].
      left. reflexivity. }
    destruct (str_join_In (py " - ") _ _ Hin) as (a & b & ->).
    intros Hnil. apply app_eq_nil in Hnil as [_ Hnil].
    apply app_eq_nil in Hnil as [Hnil _]. exact (Hn Hnil).
  - intros Hc. destruct Hcep as [Hnil|[Hlen _]]; [exact (False_ind _ (Hc Hnil))|].
    apply str_join_In. unfold formatado_partes.
    do 4 (apply in_or_app; right). apply in_or_app. left.
    rewrite Hlen. change ((8 =? 8)%nat) with true.
    destruct (cep e) as [|c t]; [exact (False_ind _ (Hc eq_refl))|].
    cbn [nao_vazio andb]. left. reflexivity.
Qed.

Lemma formatado_de_endereco_parseado_witness :
  formatado plain_db
    (ok_ou (endereco_novo []) (parsear_endereco plain_db Cenarios.mucuna))
  <> [].
Proof.
  apply (formatado_de_endereco_parseado plain_db Cenarios.mucuna).
  vm_compute. reflexivity.
Defined.

(** X10: the original text kept in the address is the input with its white
    space normalised: the only white space left in it is the space
    character, never two in a row, and it neither starts nor ends with
    white space. *)
Theorem endereco_original_normalizado (db : unicode_db)
    (endereco_bruto : str) :
  exists e,
    parsear_endereco db endereco_bruto = Ok e
    /\ espacos_simples db (endereco_original e)
    /\ (forall c t, endereco_original e = c :: t -> isspace db c = false)
    /\ (forall t c, endereco_original e = t ++ [c] -> isspace db c = false).
Proof.
  destruct (parsear_endereco_campos db endereco_bruto)
    as (e & He & _ & _ & Ho & _).
  exists e. split; [exact He|]. rewrite Ho.
  apply normalizar_endereco_forma.
Qed.

(** X11: an empty text, or one made of white space only, gives the address
    of the defaults: street type "RUA", number "S/N", state "PI", country
    "BR", and every other field empty. *)
Theorem parsear_endereco_em_branco (db : unicode_db) (endereco_bruto : str) :
  str_strip db endereco_bruto = [] ->
  parsear_endereco db endereco_bruto
  = Ok {| tipo_logradouro := py "RUA"; logradouro := []; numero := py "S/N";
          complemento := []; bairro := []; cep := []; municipio := [];
          uf := py "PI"; pais := py "BR"; endereco_original := [] |}.
Proof.
  intros H. unfold parsear_endereco.
  rewrite (normalizar_endereco_em_branco db endereco_bruto H).
  vm_compute. reflexivity.
Qed.

Lemma parsear_endereco_em_branco_witness :
  exists e,
    parsear_endereco plain_db (py "  " ++ [10; 9]) = Ok e
    /\ numero e = py "S/N".
Proof.
  eexists. split.
  - apply (parsear_endereco_em_branco plain_db (py "  " ++ [10; 9])).
    vm_compute. reflexivity.
  - reflexivity.
Defined.

(** X12: [parsear_enderecos_coluna] returns the empty dictionary for a
    blank text; and when the text has a line that is not blank, the
    dictionary it returns is not empty and is the one the loop built: the
    assignment of the whole text to part 1, made when the loop leaves the
    dictionary empty, is not executed. *)
Theorem parsear_enderecos_coluna_vazio (db : unicode_db)
    (enderecos_texto : str) :
  (str_strip db enderecos_texto = [] ->
   parsear_enderecos_coluna db enderecos_texto = Ok ∅)
  /\ (forall linha mapa,
        In linha (str_splitlines enderecos_texto) ->
        str_strip db linha <> [] ->
        parsear_enderecos_coluna db enderecos_texto = Ok mapa ->
        mapa <> ∅
        /\ exists st,
             foldM (Coluna.passo_linha db) (str_splitlines enderecos_texto)
               Coluna.inicial = Ok st
             /\ mapa = Coluna._salvar st).
Proof.
  unfold parsear_enderecos_coluna. split.
  - intros H.
    rewrite foldM_inerte.
    2: { eapply Forall_impl; [apply (linhas_em_branco db), H|].
         intros linha Hl st. by apply passo_linha_coluna_em_branco. }
    rewrite result_bind_ok, H. reflexivity.
  - intros linha mapa Hin Hne H.
    destruct (foldM (Coluna.passo_linha db) (str_splitlines enderecos_texto)
                Coluna.inicial) as [st|] eqn:E; [|discriminate H].
    rewrite result_bind_ok in H.
    assert (Hc : Coluna._salvar st <> ∅).
    { apply _salvar_cheio.
      apply (foldM_coluna_cheio db _ _ _ E). right. by exists linha. }
    rewrite bool_decide_eq_false_2 in H by exact Hc.
    injection H as <-. split; [exact Hc|]. by exists st.
Qed.

Lemma parsear_enderecos_coluna_vazio_witness :
  parsear_enderecos_coluna plain_db (py " " ++ [10] ++ py "  ") = Ok ∅.
Proof.
  apply (proj1 (parsear_enderecos_coluna_vazio plain_db
                  (py " " ++ [10] ++ py "  "))).
  vm_compute. reflexivity.
Defined.

(** X13: when no line of the text, once stripped, starts with a decimal
    digit, and some line is not blank, the whole text is the address of
    part 1: the lines that are not blank, stripped and joined by one
    space. *)
Theorem parsear_enderecos_coluna_sem_numeros (db : unicode_db)
    (enderecos_texto : str) :
  let ls := List.filter nao_vazio
              (map (str_strip db) (str_splitlines enderecos_texto)) in
  ls <> [] ->
  Forall (fun l => match l with
                   | c :: _ => isdecimal db c = false
                   | [] => True
                   end) ls ->
  parsear_enderecos_coluna db enderecos_texto
  = Ok {[ 1%Z := str_join (py " ") ls ]}.
Proof.
  intros ls Hne Hd. unfold parsear_enderecos_coluna.
  change Coluna.inicial
    with {| Coluna.mapa := ∅;
            Coluna.num_atual := match @nil str with [] => None | _ => Some 1%Z end;
            Coluna.acumulo := [] |}.
  rewrite foldM_sem_numero.
  2: { apply List.Forall_forall. intros linha Hl.
       destruct (str_strip db linha) as [|c t] eqn:El; [done|].
       rewrite List.Forall_forall in Hd. apply (Hd (c :: t)).
       apply filter_In. split; [|done].
       rewrite <- El. by apply in_map. }
  rewrite result_bind_ok. cbv zeta. cbn [app]. fold ls.
  unfold Coluna._salvar. cbn [Coluna.num_atual Coluna.acumulo Coluna.mapa].
  destruct ls as [|x t]; [done|].
  rewrite bool_decide_eq_false_2 by apply insert_non_empty.
  reflexivity.
Qed.

Lemma parsear_enderecos_coluna_sem_numeros_witness :
  parsear_enderecos_coluna plain_db
    (py "RUA A, 10 - CENTRO" ++ [10] ++ py "  TERESINA/PI")
  = Ok {[ 1%Z := py "RUA A, 10 - CENTRO TERESINA/PI" ]}.
Proof.
  apply (parsear_enderecos_coluna_sem_numeros plain_db
           (py "RUA A, 10 - CENTRO" ++ [10] ++ py "  TERESINA/PI")).
  - vm_compute. discriminate.
  - vm_compute. repeat constructor.
Defined.

(** X14: for a blank text [parsear_partes] returns the empty list. *)
Theorem parsear_partes_em_branco (db : unicode_db) (partes_texto : str) :
  str_strip db partes_texto = [] -> parsear_partes db partes_texto = Ok [].
Proof.
  intros H. unfold parsear_partes.
  rewrite foldM_inerte.
  - reflexivity.
  - eapply Forall_impl; [apply (linhas_em_branco db), H|].
    intros linha Hl st. by apply passo_linha_partes_em_branco.
Qed.

Lemma parsear_partes_em_branco_witness :
  parsear_partes plain_db (py " " ++ [10; 13] ++ py "  ") = Ok [].
Proof.
  apply (parsear_partes_em_branco plain_db (py " " ++ [10; 13] ++ py "  ")).
  vm_compute. reflexivity.
Defined.

(** X15: in every entry that [parsear_partes] returns the document type is
    "CPF" or "CNPJ", or else it is empty and so is the document number: the
    loop never leaves a number without its type. *)
Theorem parsear_partes_tipo_de_documento (db : unicode_db)
    (partes_texto : str) (ps : list Parte.t) (p : Parte.t) :
  parsear_partes db partes_texto = Ok ps ->
  In p ps ->
  Parte.tipo_doc p = py "CPF" \/ Parte.tipo_doc p = py "CNPJ"
  \/ (Parte.tipo_doc p = [] /\ Parte.cpf_cnpj p = []).
Proof.
  intros H Hin. apply parsear_partes_ok in H.
  rewrite List.Forall_forall in H. exact (H p Hin).
Qed.

Lemma parsear_partes_tipo_de_documento_witness :
  exists p1 p2,
    parsear_partes plain_db Cenarios.partes = Ok [p1; p2]
    /\ (Parte.tipo_doc p1 = py "CPF" \/ Parte.tipo_doc p1 = py "CNPJ"
        \/ (Parte.tipo_doc p1 = [] /\ Parte.cpf_cnpj p1 = [])).
Proof.
  eexists _, _. split; [vm_compute; reflexivity|].
  eapply (parsear_partes_tipo_de_documento plain_db Cenarios.partes).
  - vm_compute. reflexivity.
  - left. reflexivity.
Defined.

(** X16: [_normalizar_processo] first removes the white space.  If what is
    left holds "TC" (in any letter case), an optional slash or comma, six
    digits, an optional slash or comma and four digits, the result is
    "TC/", the six digits, "/" and the four digits of the leftmost such
    occurrence, whatever surrounds it; otherwise the result is the text
    without its white space. *)
Theorem _normalizar_processo_forma (db : unicode_db) (txt : str) :
  let t := List.filter (fun c => negb (isspace db c)) txt in
  match re_search db IGNORECASE t PatProcesso.TC with
  | Some m =>
      exists d6 d4,
        m_group t m 1 = Some d6 /\ m_group t m 2 = Some d4
        /\ length d6 = 6%nat /\ length d4 = 4%nat
        /\ Forall (fun c => isdecimal db c = true) (d6 ++ d4)
        /\ _normalizar_processo db txt = py "TC/" ++ d6 ++ py "/" ++ d4
  | None => _normalizar_processo db txt = t
  end.
Proof.
  intros t. unfold _normalizar_processo.
  rewrite sem_espacos_filtra. fold t.
  destruct (re_search db IGNORECASE t PatProcesso.TC) as [m|] eqn:E.
  - apply re_search_sound in E as [Hok _].
    destruct (grupos_do_processo db t m Hok)
      as (d6 & d4 & H1 & H2 & L1 & L2 & Hd).
    exists d6, d4. unfold fmt_group. rewrite H1, H2.
    repeat split; assumption.
  - apply strip_by_id. apply filtrado_sem_espacos.
Qed.

(** X17: the document number of every entry that [parsear_partes] returns
    is written with decimal digits, dots, slashes and hyphens only and
    holds no white space, also when the text separates the groups of
    digits by spaces. *)
Theorem parsear_partes_documento_sem_espacos (db : unicode_db)
    (partes_texto : str) (ps : list Parte.t) (p : Parte.t) :
  parsear_partes db partes_texto = Ok ps ->
  In p ps ->
  Forall (fun c => (isdecimal db c = true \/ c = 46 \/ c = 47 \/ c = 45)
                   /\ isspace db c = false)
         (Parte.cpf_cnpj p).
Proof.
  intros H Hin. apply parsear_partes_documentos in H.
  rewrite List.Forall_forall in H. exact (H p Hin).
Qed.

Lemma parsear_partes_documento_sem_espacos_witness :
  exists p,
    parsear_partes plain_db (py "1 - JOAO DA SILVA CPF: 123 456 789 00")
    = Ok [p]
    /\ Parte.cpf_cnpj p = py "12345678900"
    /\ Forall (fun c => (isdecimal plain_db c = true
                         \/ c = 46 \/ c = 47 \/ c = 45)
                        /\ isspace plain_db c = false)
              (Parte.cpf_cnpj p).
Proof.
  eexists. split; [vm_compute; reflexivity|]. split; [reflexivity|].
  eapply (parsear_partes_documento_sem_espacos plain_db
            (py "1 - JOAO DA SILVA CPF: 123 456 789 00")).
  - vm_compute. reflexivity.
  - left. reflexivity.
Defined.

(** * More theorems about main.py *)

(** X18: [gerar_valor_extenso] raises in two cases only: when [float]
    reads the cleaned text as nan (the ValueError of [int], outside the
    [try]) and when it reads it as an infinity (OverflowError); for every
    other input it returns a text. *)
Theorem gerar_valor_extenso_erros (db : unicode_db) (valor_str : str) :
  (exists texto, gerar_valor_extenso db valor_str = Ok texto)
  \/ (py_float db (limpar_valor db valor_str) = Ok S754_nan
      /\ gerar_valor_extenso db valor_str = Raise ValueError)
  \/ (exists sg,
        py_float db (limpar_valor db valor_str) = Ok (S754_infinity sg)
        /\ gerar_valor_extenso db valor_str = Raise OverflowError).
Proof.
  destruct (py_float db (limpar_valor db valor_str)) as [n|e] eqn:E.
  - destruct n as [sg|sg| |sg m e].
    + left.
      destruct (gerar_valor_extenso_partes db valor_str _ 0%Z E eq_refl)
        as (c & _ & ->).
      eauto.
    + right. right. exists sg. split; [reflexivity|].
      unfold gerar_valor_extenso. rewrite E. reflexivity.
    + right. left. split; [reflexivity|].
      unfold gerar_valor_extenso. rewrite E. reflexivity.
    + left.
      destruct (gerar_valor_extenso_partes db valor_str _ _ E eq_refl)
        as (c & _ & ->).
      eauto.
  - left. exists valor_str.
    apply py_float_so_ValueError in E as Hv. subst e.
    unfold gerar_valor_extenso. rewrite E. reflexivity.
Qed.

(** X19: an amount that [float] reads as zero or as a negative number is
    written "zero reais": neither its integer part nor its cents are
    greater than zero. *)
Theorem gerar_valor_extenso_negativo (db : unicode_db) (valor_str : str)
    (n : spec_float) :
  py_float db (limpar_valor db valor_str) = Ok n ->
  match n with
  | S754_zero _ => True
  | S754_finite sg _ _ => sg = true
  | _ => False
  end ->
  gerar_valor_extenso db valor_str = Ok (py "zero reais").
Proof.
  intros Hn Hneg.
  pose proof (FloatFacts.py_float_valid db _ n Hn) as Hval.
  unfold gerar_valor_extenso. rewrite Hn.
  destruct n as [sg|sg| |sg m e]; try done.
  - by destruct sg.
  - subst sg.
    assert (exists i, Float.to_int (S754_finite true m e) = Ok i)
      as [i Hi] by (eexists; reflexivity).
    destruct (FloatFacts.negativo_sem_partes m e i Hval Hi)
      as (Hi0 & c & Hc & Hc0).
    rewrite Hi, result_bind_ok, Hc, result_bind_ok. cbv zeta.
    by rewrite montar_partes_sem_partes.
Qed.

Lemma gerar_valor_extenso_negativo_witness :
  gerar_valor_extenso plain_db (py "R$ -1.234,56") = Ok (py "zero reais").
Proof.
  apply (gerar_valor_extenso_negativo plain_db (py "R$ -1.234,56")
           (ok_ou S754_nan
              (py_float plain_db (limpar_valor plain_db (py "R$ -1.234,56"))))).
  - vm_compute. reflexivity.
  - vm_compute. reflexivity.
Defined.

(** X20: every document number in the list of responsible parties is made
    of decimal digits, dots, slashes and hyphens only. *)
Theorem numero_doc_so_digitos_e_pontuacao (db : unicode_db) (texto : str)
    (d : Certidao) (r : Responsavel) :
  extrair_dados_certidao db texto = Ok d ->
  In r (responsaveis d) ->
  Forall (char_doc db) (numero_doc r).
Proof.
  intros H Hin.
  apply extrair_dados_certidao_campos in H as (_ & _ & _ & Hrs).
  apply extrair_responsaveis_docs in Hrs.
  rewrite List.Forall_forall in Hrs. exact (Hrs r Hin).
Qed.

Lemma numero_doc_so_digitos_e_pontuacao_witness :
  exists d r,
    extrair_dados_certidao plain_db Exemplos.certidao_com_data = Ok d
    /\ responsaveis d = [r]
    /\ numero_doc r = py "123.456.789-00"
    /\ Forall (char_doc plain_db) (numero_doc r).
Proof.
  eexists _, _. split; [vm_compute; reflexivity|].
  split; [reflexivity|]. split; [reflexivity|].
  eapply (numero_doc_so_digitos_e_pontuacao plain_db
            Exemplos.certidao_com_data).
  - vm_compute. reflexivity.
  - left. reflexivity.
Defined.

(** X21: the date of the amount, when the certificate has one, is written
    as two digits, a slash, two digits, a slash and four digits. *)
Theorem data_atualizacao_tem_forma_de_data (db : unicode_db) (texto : str)
    (d : Certidao) (g : str) :
  extrair_dados_certidao db texto = Ok d ->
  data_atualizacao d = Some g ->
  forma_de_data db g.
Proof.
  intros H Hg.
  apply extrair_dados_certidao_campos in H as (_ & Hd & _).
  rewrite Hg in Hd. exact (extrair_data_forma db _ g Hd).
Qed.

Lemma data_atualizacao_tem_forma_de_data_witness :
  forma_de_data plain_db (py "05/03/2024").
Proof.
  eapply (data_atualizacao_tem_forma_de_data plain_db
            Exemplos.certidao_com_data).
  - vm_compute. reflexivity.
  - reflexivity.
Defined.

(** X22: the process number, when the certificate has one, has fourteen
    characters with a slash in the third and in the tenth place, also when
    the text separates the parts of the number by spaces. *)
Theorem numero_processo_com_barras (db : unicode_db) (texto : str)
    (d : Certidao) (p : str) :
  extrair_dados_certidao db texto = Ok d ->
  numero_processo d = Some p ->
  length p = 14%nat /\ nth_error p 2 = Some 47 /\ nth_error p 9 = Some 47.
Proof.
  intros H Hp.
  apply extrair_dados_certidao_campos in H as (Hn & _).
  rewrite Hp in Hn. exact (extrair_numero_processo_forma db _ p Hn).
Qed.

Lemma numero_processo_com_barras_witness :
  length (py "TC/012345/2020") = 14%nat
  /\ nth_error (py "TC/012345/2020") 2 = Some 47
  /\ nth_error (py "TC/012345/2020") 9 = Some 47.
Proof.
  eapply (numero_processo_com_barras plain_db Exemplos.certidao_com_data).
  - vm_compute. reflexivity.
  - reflexivity.
Defined.

(** X23: the document number that [_bloco_polo_passivo] writes for a party
    extracted from a certificate, [doc_limpo], is made of decimal digits
    only. *)
Theorem doc_limpo_de_certidao_so_digitos (db : unicode_db) (texto : str)
    (d : Certidao) (r : Responsavel) :
  extrair_dados_certidao db texto = Ok d ->
  In r (responsaveis d) ->
  Forall (fun c => isdecimal db c = true) (doc_limpo db (numero_doc r)).
Proof.
  intros H Hin. apply doc_limpo_digitos.
  apply extrair_dados_certidao_campos in H as (_ & _ & _ & Hrs).
  apply extrair_responsaveis_docs in Hrs.
  rewrite List.Forall_forall in Hrs. exact (Hrs r Hin).
Qed.

Lemma doc_limpo_de_certidao_so_digitos_witness :
  exists d r,
    extrair_dados_certidao plain_db Exemplos.certidao_com_data = Ok d
    /\ responsaveis d = [r]
    /\ doc_limpo plain_db (numero_doc r) = py "12345678900"
    /\ Forall (fun c => isdecimal plain_db c = true)
              (doc_limpo plain_db (numero_doc r)).
Proof.
  eexists _, _. split; [vm_compute; reflexivity|].
  split; [reflexivity|]. split; [vm_compute; reflexivity|].
  eapply (doc_limpo_de_certidao_so_digitos plain_db
            Exemplos.certidao_com_data).
  - vm_compute. reflexivity.
  - left. reflexivity.
Defined.

(** X24: the amount, when the certificate has one, is "R$ " followed by
    at least one character, each a decimal digit, a dot or a comma,
    whichever of the two searches (the labelled amount, the last amount
    of the text) found it. *)
Theorem valor_atualizado_so_digitos_ponto_e_virgula (db : unicode_db)
    (texto : str) (d : Certidao) (v : str) :
  extrair_dados_certidao db texto = Ok d ->
  valor_atualizado d = Some v ->
  exists g, v = py "R$ " ++ g /\ g <> [] /\ Forall (char_valor db) g.
Proof.
  intros H Hv.
  apply extrair_dados_certidao_valor in H.
  rewrite Hv in H. exact (extrair_valor_forma db _ v H).
Qed.

Lemma valor_atualizado_so_digitos_ponto_e_virgula_witness :
  exists g, py "R$ 1.234,56." = py "R$ " ++ g
            /\ g <> [] /\ Forall (char_valor plain_db) g.
Proof.
  eapply (valor_atualizado_so_digitos_ponto_e_virgula plain_db
            Exemplos.certidao_com_rotulo).
  - vm_compute. reflexivity.
  - reflexivity.
Defined.

(** X25: [extrair_dados_certidao] raises for no text: every group that it
    reads took part in the match it is read from, so that no [None] is
    stripped, upper-cased or concatenated, and the search of the judgment
    of each party returns as well. *)
Theorem extrair_dados_certidao_nunca_falha (db : unicode_db) (texto : str) :
  exists d, extrair_dados_certidao db texto = Ok d.
Proof.
  destruct (extrair_dados_certidao_total db texto) as (d & Hd & _).
  exists d. exact Hd.
Qed.

(** X26: the judgment recorded for a responsible party, when one is found
    after the document number, is written with decimal digits and slashes
    only: neither the word that precedes the number in the text nor the
    suffix of the chamber ("- SPL") is part of it. *)
Theorem acordao_do_responsavel_so_digitos_e_barra (db : unicode_db)
    (texto : str) (d : Certidao) (r : Responsavel) (a : str) :
  extrair_dados_certidao db texto = Ok d ->
  In r (responsaveis d) ->
  acordao r = Some a ->
  Forall (fun c => isdecimal db c = true \/ c = 47) a.
Proof.
  intros H Hin Ha.
  apply extrair_dados_certidao_campos in H as (_ & _ & _ & Hrs).
  apply extrair_responsaveis_acordaos in Hrs.
  rewrite List.Forall_forall in Hrs. specialize (Hrs r Hin).
  unfold acordao_bem_formado in Hrs. rewrite Ha in Hrs. exact Hrs.
Qed.

Lemma acordao_do_responsavel_so_digitos_e_barra_witness :
  Forall (fun c => isdecimal plain_db c = true \/ c = 47) (py "185/2023").
Proof.
  eapply (acordao_do_responsavel_so_digitos_e_barra plain_db
            Exemplos.certidao_com_acordao).
  - vm_compute. reflexivity.
  - left. reflexivity.
  - reflexivity.
Defined.

